(** * livesync-commonlib: the direct file manipulator

    A shallow embedding of [DirectFileManipulator] (get / put / delete,
    enumeration, the change feed) and of [readLines], with the properties
    of the store stated over it.

    Conventions of the embedding.
    - A JavaScript string is a [string] holding its UTF-8 bytes; the
      UTF-16 length that [.length] returns is [js_length]; the order of
      keys is the byte order, which is the code point order.
    - [undefined] is [None]; an optional field is an [option].
    - An object used as a record of keys ([Record<string, T>]) is the
      list of its own properties in the order of [Object.keys], array
      indices first ([Obj]); reading it also finds the members of
      [Object.prototype], and writing under [__proto__] creates no key.
    - A number that the code computes with fractions is a binary64 float
      ([Number]); counts, sizes and times are integers.
    - An asynchronous method is a function in the monad [M]: it threads the
      state of the outside world (remote database, clock, randomness of the
      cipher) and of the instance ([hashCaches], [since]), and either
      returns or throws.  [Logger] calls are left out, except that every
      request that [_fetch] announces is recorded in [requests].
    - What the sources import but do not contain (the hash, the cipher, the
      chunker, the path mapping, the remote server) is a field of [Env]. *)

From Stdlib Require Import ZArith NArith List String Ascii Bool Lia.
From Stdlib Require SpecFloat.
From stdpp Require Import base option list sorting strings.

Open Scope string_scope.
Open Scope list_scope.
Open Scope Z_scope.

(** ** JavaScript values that the code tests *)

(** Truthiness of a string-valued option such as [options.passphrase]. *)
Definition truthy (o : option string) : bool :=
  match o with
  | Some s => negb (String.eqb s "")
  | None => false
  end.

(** [`${v}`] for a value that is a string or [undefined]. *)
Definition template (o : option string) : string :=
  match o with
  | Some s => s
  | None => "undefined"
  end.

(** [string | boolean], the values of the record that [_collectChunks]
    returns.  Reading such a record at a key that it does not own but
    inherits gives a member of [Object.prototype], an object or a
    function: [IsMember k] is the member named [k]. *)
Inductive StrOrBool :=
  | IsStr (s : string)
  | IsBool (b : bool)
  | IsMember (k : string).

#[global] Instance StrOrBool_eq_dec : EqDecision StrOrBool.
Proof. solve_decision. Defined.

Definition truthy_sb (o : option StrOrBool) : bool :=
  match o with
  | Some (IsStr s) => negb (String.eqb s "")
  | Some (IsBool b) => b
  | Some (IsMember _) => true
  | None => false
  end.


(** [s.startsWith(searchString)] *)
Fixpoint startsWith (s searchString : string) {struct searchString} : bool :=
  match searchString with
  | EmptyString => true
  | String c p =>
      match s with
      | String c' s' => Ascii.eqb c c' && startsWith s' p
      | EmptyString => false
      end
  end.

(** [unique]: [[...new Set(obj)]], the first occurrence of each element. *)
Fixpoint unique (l : list string) : list string :=
  match l with
  | [] => []
  | x :: l' => x :: List.filter (fun y => negb (String.eqb x y)) (unique l')
  end.

(** ** Numbers rendered as text *)

Definition digit36 (d : N) : ascii :=
  if (d <? 10)%N then ascii_of_N (48 + d) else ascii_of_N (87 + d).

Definition digit10 (d : N) : ascii := ascii_of_N (48 + d).

(** The digits of [n] in a base, the last one first, written before
    [acc]; [fuel] bounds their number. *)
Fixpoint render (base : N) (digit : N → ascii) (fuel : nat) (n : N)
    (acc : string) : string :=
  match fuel with
  | O => acc
  | S fuel' =>
      let acc' := String (digit (n mod base)%N) acc in
      if (n / base =? 0)%N then acc'
      else render base digit fuel' (n / base) acc'
  end.

(** [n.toString(36)] for a non-negative bigint. *)
Definition toString36 (n : N) : string :=
  render 36 digit36 (S (N.to_nat (N.log2 n))) n "".

(** [`${n}`] for a non-negative integer. *)
Definition toString10 (n : N) : string :=
  render 10 digit10 (S (N.to_nat (N.log2 n))) n "".

(** The number that a text denotes in a base. *)
Fixpoint value (base : N) (val : ascii → N) (s : string) (acc : N) : N :=
  match s with
  | EmptyString => acc
  | String c s' => value base val s' (acc * base + val c)%N
  end.

Definition val36 (c : ascii) : N :=
  if (N_of_ascii c <? 58)%N then (N_of_ascii c - 48)%N
  else (N_of_ascii c - 87)%N.

Definition val10 (c : ascii) : N := (N_of_ascii c - 48)%N.

(** [s.length]: the number of UTF-16 code units of the text whose UTF-8
    bytes are [s].  A continuation byte adds nothing, the lead byte of a
    four-byte sequence stands for a surrogate pair. *)
Definition units_of_byte (c : ascii) : N :=
  let n := N_of_ascii c in
  if (n <? 128)%N then 1
  else if (n <? 192)%N then 0
  else if (n <? 240)%N then 1
  else 2.

Fixpoint js_length (s : string) : N :=
  match s with
  | EmptyString => 0
  | String c s' => units_of_byte c + js_length s'
  end.

(** ** Objects used as records of keys *)

(** A record of keys is a plain object: it inherits from
    [Object.prototype], and [Object.keys] lists its array indices first.
    The values that the code assigns are strings and booleans, never
    objects. *)
Module Obj.
(** The names of the members of [Object.prototype]. *)
Definition prototype_names : list string :=
  [ "constructor"; "__defineGetter__"; "__defineSetter__"; "hasOwnProperty";
    "__lookupGetter__"; "__lookupSetter__"; "isPrototypeOf";
    "propertyIsEnumerable"; "toString"; "valueOf"; "__proto__";
    "toLocaleString" ].

Definition inherited (k : string) : bool :=
  existsb (String.eqb k) prototype_names.

(** An array index: the decimal text of a number up to [2^32 - 2]. *)
Definition index_of (k : string) : option N :=
  let n := value 10 val10 k 0 in
  if String.eqb (toString10 n) k && (n <=? 4294967294)%N then Some n
  else None.

Section obj.
Context {V : Type}.

(** The own properties, in the order in which [Object.keys] lists them:
    the array indices in ascending order, then the other keys in the
    order of their creation. *)
Definition t := list (string * V).

(** The own property under [k]. *)
Fixpoint get (k : string) (o : t) : option V :=
  match o with
  | [] => None
  | (k', v) :: o' => if String.eqb k k' then Some v else get k o'
  end.

Fixpoint replace (k : string) (v : V) (o : t) : t :=
  match o with
  | [] => []
  | (k', v') :: o' =>
      if String.eqb k k' then (k, v) :: o' else (k', v') :: replace k v o'
  end.

Fixpoint insert_index (n : N) (k : string) (v : V) (o : t) : t :=
  match o with
  | [] => [(k, v)]
  | (k', v') :: o' =>
      match index_of k' with
      | Some n' =>
          if (n' <? n)%N then (k', v') :: insert_index n k v o'
          else (k, v) :: o
      | None => (k, v) :: o
      end
  end.

(** [o[k] = v], for a [v] that is no object.  Under [__proto__] the
    setter of [Object.prototype] takes the value and drops it; an own
    key keeps its place; a new array index goes among the indices, and
    any other new key goes last. *)
Definition set (k : string) (v : V) (o : t) : t :=
  if String.eqb k "__proto__" then o
  else
    match get k o with
    | Some _ => replace k v o
    | None =>
        match index_of k with
        | Some n => insert_index n k v o
        | None => o ++ [(k, v)]
        end
    end.

(** [k in o] *)
Definition has (k : string) (o : t) : bool :=
  match get k o with Some _ => true | None => inherited k end.

(** [Object.keys(o)] and [Object.entries(o)] *)
Definition keys (o : t) : list string := map fst o.
Definition entries (o : t) : list (string * V) := o.
End obj.
Arguments t : clear implicits.
End Obj.

(** [o[k]] on a record of strings and booleans: the own value, else the
    member that [Object.prototype] holds under [k], else [undefined]. *)
Definition read_sb (k : string) (o : Obj.t StrOrBool) : option StrOrBool :=
  match Obj.get k o with
  | Some v => Some v
  | None => if Obj.inherited k then Some (IsMember k) else None
  end.

(** ** Numbers *)

(** A JavaScript number is a binary64 float, and its arithmetic rounds to
    the nearest, ties to even. *)
Module Number.
Definition t := SpecFloat.spec_float.

Definition of_Z (z : Z) : t := SpecFloat.binary_normalize 53 1024 z 0 false.

Definition add : t → t → t := SpecFloat.SFadd 53 1024.
Definition mul : t → t → t := SpecFloat.SFmul 53 1024.

(** The literal [0.1]: the float [0x1.999999999999ap-4]. *)
Definition tenth : t :=
  SpecFloat.binary_normalize 53 1024 7205759403792794 (-56) false.

(** [Math.floor] *)
Definition floor (x : t) : t :=
  match x with
  | SpecFloat.S754_finite s m e =>
      if 0 <=? e then x
      else
        SpecFloat.binary_normalize 53 1024
          (Z.shiftr (if s then Z.neg m else Z.pos m) (- e)) 0 false
  | _ => x
  end.
End Number.

(** ** types.ts *)

Definition MAX_DOC_SIZE_BIN : Z := 102400.
Definition PREFIX_CHUNK : string := "h:".
Definition PREFIX_ENCRYPTED_CHUNK : string := "h:+".

Definition DocumentID := string.
Definition FilePathWithPrefix := string.

Inductive EntryType := plain | newnote.

#[global] Instance EntryType_eq_dec : EqDecision EntryType.
Proof. solve_decision. Defined.

(** [NewEntry | PlainEntry], with the [data] that [ReadyEntry] adds:
    [MetaEntry] and [ReadyEntry] of the manipulator are both this record. *)
Module Entry.
Record t := mk {
  _id : DocumentID;
  _rev : option string;
  _deleted : option bool;
  _conflicts : option (list string);
  path : FilePathWithPrefix;
  children : list string;
  ctime : Z;
  mtime : Z;
  size : Z;
  type : EntryType;
  deleted : option bool;
  data : option (list StrOrBool)
}.

Definition with_path (p : string) (e : t) : t :=
  mk (_id e) (_rev e) (_deleted e) (_conflicts e) p (children e)
     (ctime e) (mtime e) (size e) (type e) (deleted e) (data e).

Definition with_rev (r : option string) (e : t) : t :=
  mk (_id e) r (_deleted e) (_conflicts e) (path e) (children e)
     (ctime e) (mtime e) (size e) (type e) (deleted e) (data e).

Definition with_data (d : list StrOrBool) (e : t) : t :=
  mk (_id e) (_rev e) (_deleted e) (_conflicts e) (path e) (children e)
     (ctime e) (mtime e) (size e) (type e) (deleted e) (Some d).
End Entry.

(** The chunk documents that [put] uploads: [{_id, data, type: "leaf"}]. *)
Module Leaf.
Record t := mk {
  _id : string;
  data : string
}.
End Leaf.

Module FileInfo.
Record t := mk {
  ctime : Z;
  mtime : Z;
  size : Z
}.
End FileInfo.

Module Options.
Record t := mk {
  url : string;
  username : string;
  password : string;
  passphrase : option string;
  database : string;
  obfuscatePassphrase : option string;
  useDynamicIterationCount : option bool;
  customChunkSize : option Z;
  minimumChunkSize : option Z;
  useV1 : option bool
}.
End Options.

(** ** Results and errors *)

Inductive Result (A : Type) :=
  | Ok (a : A)
  | Throw (message : string).
Arguments Ok {A} a.
Arguments Throw {A} message.

Definition is_ok {A} (r : Result A) : bool :=
  match r with Ok _ => true | Throw _ => false end.

(** ** LRUCache *)

(** Modelled from the spec: LRUCache.ts is not among the sources.  The
    spec describes a bidirectional cache (chunk id to plaintext and back),
    bounded by the number of entries and by the aggregate length of the
    plaintexts, evicting the least recently used entry on either bound.
    Here it is one list of pairs, most recently used first, read by key
    ([get]) and by value ([revGet]); both reads refresh the entry. *)
Module LRUCache.
Section cache.
Context {K V : Type} `{EqDecision K, EqDecision V}.
Variable weigh : V → N.

Record t := mk {
  entries : list (K * V);
  maxCache : nat;
  maxCachedLength : N
}.

Definition create (maxCache : nat) (maxCachedLength : N) : t :=
  mk [] maxCache maxCachedLength.

Fixpoint find_key (k : K) (es : list (K * V)) : option V :=
  match es with
  | [] => None
  | (k', v) :: es' => if decide (k = k') then Some v else find_key k es'
  end.

Fixpoint find_value (v : V) (es : list (K * V)) : option K :=
  match es with
  | [] => None
  | (k, v') :: es' => if decide (v = v') then Some k else find_value v es'
  end.

Definition remove_key (k : K) (es : list (K * V)) : list (K * V) :=
  List.filter (fun e => negb (bool_decide (k = fst e))) es.

(** Keeps the most recently used entries that fit both bounds. *)
Fixpoint fit (count : nat) (length : N) (es : list (K * V)) {struct es}
    : list (K * V) :=
  match es with
  | [] => []
  | (k, v) :: es' =>
      match count with
      | O => []
      | S count' =>
          if (weigh v <=? length)%N
          then (k, v) :: fit count' (length - weigh v)%N es'
          else []
      end
  end.

Definition get (k : K) (c : t) : option V * t :=
  match find_key k (entries c) with
  | Some v =>
      (Some v, mk ((k, v) :: remove_key k (entries c))
                  (maxCache c) (maxCachedLength c))
  | None => (None, c)
  end.

Definition revGet (v : V) (c : t) : option K * t :=
  match find_value v (entries c) with
  | Some k =>
      (Some k, mk ((k, v) :: remove_key k (entries c))
                  (maxCache c) (maxCachedLength c))
  | None => (None, c)
  end.

Definition set (k : K) (v : V) (c : t) : t :=
  mk (fit (maxCache c) (maxCachedLength c)
          ((k, v) :: remove_key k (entries c)))
     (maxCache c) (maxCachedLength c).

(** Reading without refreshing, for the statements. *)
Definition peek (k : K) (c : t) : option V := find_key k (entries c).
Definition revPeek (v : V) (c : t) : option K := find_value v (entries c).
End cache.
Arguments t : clear implicits.
End LRUCache.

(** The cache of the manipulator, [LRUCache<DocumentID, string>]: at run
    time a key can be [undefined], and a value can be something that is
    no string, of which the code asks nothing more: both are [None]. *)
Definition weigh (v : option string) : N := js_length (template v).
Abbreviation HashCache := (LRUCache.t (option string) (option string)).

(** ** The remote server, as the manipulator sees it *)

(** The body of [GET db/id], as [getById] reads it: an object with [_id]
    and with [type] ["plain"] or ["newnote"] is a metadata entry; every
    other body (an error object, a leaf, a version document) is not. *)
Inductive RemoteDocument :=
  | DocEntry (e : Entry.t)
  | DocOther.

(** The body of [PUT db/id]; the code reads [ok]. *)
Record PutResponse := {
  put_ok : bool;
  put_error : option string
}.

(** A [doc] of [POST db/_all_docs], with the fields [_collectChunks]
    tests. *)
Record RowDoc := {
  doc_type : option string;
  doc_data : option string
}.

(** A row of [POST db/_all_docs]: [error] is the truthiness of
    [v.error]. *)
Record Row := {
  row_key : string;
  row_error : bool;
  row_doc : option RowDoc
}.

Record AllDocsByKeys := {
  rows : option (list Row)
}.

(** A result of [POST db/_bulk_docs]; a server that follows the protocol
    answers [{ok, id, rev}] or [{id, error, reason}]. *)
Record BulkResult := {
  bulk_ok : bool;
  bulk_key : option string;
  bulk_id : option string;
  bulk_error : option string
}.

(** A row of [GET db/_all_docs] with [include_docs]. *)
Record RangeRow := {
  range_key : string;
  range_doc : option RemoteDocument
}.

Record AllDocsRange := {
  range_rows : option (list RangeRow)
}.

(** Sequence numbers of the change feed. *)
Definition Seq := N.

Record Change := {
  change_seq : option Seq;
  change_doc : option RemoteDocument
}.

Record Changes := {
  pending : option Z;
  results : option (list Change)
}.

(** The requests that the manipulator issues through [_fetch]. *)
Inductive Request :=
  | GetDoc (id : string)
  | PutDoc (id : string) (body : Entry.t)
  | PostAllDocs (include_docs : bool) (keys : list string)
  | PostBulkDocs (docs : list Leaf.t)
  | GetAllDocs (startkey endkey : string) (limit : Z)
  | GetChanges (since : Seq) (feed : string) (limit : Z).

Definition Response (r : Request) : Type :=
  match r with
  | GetDoc _ => RemoteDocument
  | PutDoc _ _ => PutResponse
  | PostAllDocs _ _ => AllDocsByKeys
  | PostBulkDocs _ => list BulkResult
  | GetAllDocs _ _ _ => AllDocsRange
  | GetChanges _ _ _ => Changes
  end.

Definition is_put (r : Request) : bool :=
  match r with PutDoc _ _ => true | _ => false end.

(** ** The environment *)

(** What the sources import and do not contain.  [World] is the state of
    everything outside the instance; a function that depends on it or
    changes it takes and returns it. *)
Record Env := {
  World : Type;
  (** [h64] of xxhash-wasm *)
  xxhash64 : string → N;
  (** e2ee_v2.ts: [encrypt(input, passphrase, autoCalculateIterations,
      useV1)] draws a fresh salt and vector, [decrypt(encryptedResult,
      passphrase, autoCalculateIterations)] is a function of its
      arguments and throws on what it cannot decrypt *)
  encrypt : string → string → bool → bool → World → Result string * World;
  decrypt : string → string → bool → Result string;
  (** path.ts *)
  path2id_base : string → option string → DocumentID;
  shouldSplitAsPlainText : string → bool;
  (** strbin.ts: the pieces that the generator of [splitPieces2] yields *)
  splitPieces2 :
    list string → Number.t → bool → Z → string → option bool → list string;
  (** the remote server behind [fetch] *)
  fetch : ∀ r : Request, World → Result (Response r) * World;
  (** [Date.now()] *)
  Date_now : World → Z * World
}.

(** ** The manipulator *)

Module State.
Record t (W : Type) := mk {
  world : W;
  hashCaches : HashCache;
  since : option Seq;
  requests : list Request
}.
Arguments mk {W}.
Arguments world {W}.
Arguments hashCaches {W}.
Arguments since {W}.
Arguments requests {W}.
End State.

(** A computation of the instance: from a state to a result, or a thrown
    error, and the state reached. *)
Definition M (E : Env) (A : Type) : Type :=
  State.t (World E) → Result A * State.t (World E).

#[global] Instance M_ret (E : Env) : MRet (M E) :=
  λ A a s, (Ok a, s).

#[global] Instance M_bind (E : Env) : MBind (M E) :=
  λ A B f m s,
    match m s with
    | (Ok a, s') => f a s'
    | (Throw e, s') => (Throw e, s')
    end.

Definition throw {E A} (message : string) : M E A :=
  λ s, (Throw message, s).

(** [try { m } catch (ex) { h ex }] *)
Definition try_catch {E A} (m : M E A) (h : string → M E A) : M E A :=
  λ s,
    match m s with
    | (Ok a, s') => (Ok a, s')
    | (Throw e, s') => h e s'
    end.

Fixpoint foldM {E A B} (f : B → A → M E B) (b : B) (l : list A) : M E B :=
  match l with
  | [] => mret b
  | a :: l' => b' ← f b a; foldM f b' l'
  end.

Fixpoint mapM {E A B} (f : A → M E B) (l : list A) : M E (list B) :=
  match l with
  | [] => mret []
  | a :: l' => b ← f a; bs ← mapM f l'; mret (b :: bs)
  end.

Definition lift_result {E A} (r : Result A) : M E A :=
  λ s, (r, s).

Section Manipulator.
Variable E : Env.
Variable options : Options.t.

Import State.

Definition lift_world {A} (f : World E → Result A * World E) : M E A :=
  λ s,
    let '(r, w) := f (world s) in
    (r, mk w (hashCaches s) (since s) (requests s)).

Definition cache_get (k : option string) : M E (option (option string)) :=
  λ s,
    let '(v, c) := LRUCache.get k (hashCaches s) in
    (Ok v, mk (world s) c (since s) (requests s)).

Definition cache_revGet (v : option string) : M E (option (option string)) :=
  λ s,
    let '(k, c) := LRUCache.revGet v (hashCaches s) in
    (Ok k, mk (world s) c (since s) (requests s)).

Definition cache_set (k v : option string) : M E unit :=
  λ s,
    (Ok tt, mk (world s) (LRUCache.set weigh k v (hashCaches s))
               (since s) (requests s)).

Definition get_since : M E (option Seq) := λ s, (Ok (since s), s).

Definition set_since (v : option Seq) : M E unit :=
  λ s, (Ok tt, mk (world s) (hashCaches s) v (requests s)).

(** [_fetchJson]: the request is announced, sent, and its body parsed. *)
Definition _fetchJson (r : Request) : M E (Response r) :=
  λ s,
    let '(res, w) := fetch E r (world s) in
    (res, mk w (hashCaches s) (since s) (requests s ++ [r])).

Definition useDynamicIterationCount : bool :=
  default false (Options.useDynamicIterationCount options).

Definition useV1 : bool := default false (Options.useV1 options).

Definition passphrase : option string := Options.passphrase options.
Definition obfuscatePassphrase : option string :=
  Options.obfuscatePassphrase options.

(** One row of the answer of [_all_docs], in [_collectChunks]. *)
Definition collect_row (onlyCheckExistence : bool)
    (ret : Obj.t StrOrBool) (v : Row) : M E (Obj.t StrOrBool) :=
  let k := row_key v in
  if row_error v then mret (Obj.set k (IsBool false) ret)
  else if onlyCheckExistence then mret (Obj.set k (IsBool true) ret)
  else
    match row_doc v with
    | None => throw ("Corrupted chunk found (" +:+ k +:+ ")")
    | Some doc =>
        if negb (bool_decide (doc_type doc = Some "leaf")) then
          throw ("Corrupted chunk found (Pointed non-chunk object) ("
                 +:+ k +:+ ")")
        else
          match doc_data doc with
          | None =>
              throw ("Corrupted chunk found (No data contained) ("
                     +:+ k +:+ ")")
          | Some dataSrc =>
              data ← (if truthy passphrase
                      then lift_result
                             (decrypt E dataSrc (template passphrase)
                                useDynamicIterationCount)
                      else mret dataSrc);
              cache_set (Some k) (Some data);;
              mret (Obj.set k (IsStr data) ret)
          end
    end.

(** The first loop of [_collectChunks]: what the cache holds. *)
Definition collect_cached (acc : Obj.t StrOrBool * list string) (id : string)
    : M E (Obj.t StrOrBool * list string) :=
  cachedChunk ← cache_get (Some id);
  match cachedChunk with
  | Some (Some s) => mret (Obj.set id (IsStr s) acc.1, acc.2)
  | _ => mret (acc.1, acc.2 ++ [id])
  end.

Definition _collectChunks (ids : list string) (onlyCheckExistence : bool)
    : M E (Obj.t StrOrBool) :=
  acc ← foldM collect_cached ([], []) ids;
  let ret := acc.1 in
  let reqIds := acc.2 in
  if (length reqIds =? 0)%nat then mret ret
  else
    apiRet ← _fetchJson (PostAllDocs (negb onlyCheckExistence) (unique reqIds));
    match rows apiRet with
    | None => throw "API Error (_all_docs)"
    | Some rs => foldM (collect_row onlyCheckExistence) ret rs
    end.

Definition encryptDocumentPath (entry : Entry.t) : M E Entry.t :=
  p ← (if truthy obfuscatePassphrase
       then lift_world
              (encrypt E (Entry.path entry) (template obfuscatePassphrase)
                 useDynamicIterationCount useV1)
       else mret (Entry.path entry));
  mret (Entry.with_path p entry).

Definition decryptDocumentPath (entry : Entry.t) : M E Entry.t :=
  p ← (if truthy passphrase
       then lift_result
              (decrypt E (Entry.path entry) (template passphrase)
                 useDynamicIterationCount)
       else mret (Entry.path entry));
  mret (Entry.with_path p entry).

Definition path2id (path : string) : M E DocumentID :=
  mret (path2id_base E path obfuscatePassphrase).

(** [e in chunks && chunks[e] !== false ? chunks[e] : false]: [e] is in
    [chunks] exactly when reading [chunks[e]] gives a value, since no own
    value is [undefined]. *)
Definition chunk_or_false (chunks : Obj.t StrOrBool) (e : string) : StrOrBool :=
  match read_sb e chunks with
  | Some (IsBool false) => IsBool false
  | Some v => v
  | None => IsBool false
  end.

Definition getByMeta (doc : Entry.t) : M E Entry.t :=
  chunks ← _collectChunks (Entry.children doc) false;
  let data := map (chunk_or_false chunks) (Entry.children doc) in
  if existsb (λ e, bool_decide (e = IsBool false)) data
  then throw ("Missing chunks: " +:+ Entry.path doc +:+ "!")
  else mret (Entry.with_data data doc).

(** [false | MetaEntry | ReadyEntry]: [None] is [false]. *)
Definition getById (id : string) (metaOnly : bool) : M E (option Entry.t) :=
  docEntry ← _fetchJson (GetDoc id);
  match docEntry with
  | DocOther => mret None
  | DocEntry e =>
      doc ← decryptDocumentPath e;
      if metaOnly then mret (Some doc)
      else ready ← getByMeta doc; mret (Some ready)
  end.

Definition get (path : FilePathWithPrefix) (metaOnly : bool)
    : M E (option Entry.t) :=
  id ← path2id path;
  getById id metaOnly.
End Manipulator.

(** ["\u{10ffff}"], the highest code point. *)
Definition u10ffff : string :=
  String "244" (String "143" (String "191" (String "191" ""))).

Section Manipulator_write.
Variable E : Env.
Variable options : Options.t.

Import State.

Abbreviation passphrase := (passphrase options).
Abbreviation useDynamicIterationCount := (useDynamicIterationCount options).
Abbreviation useV1 := (useV1 options).

(** [Math.floor(MAX_DOC_SIZE_BIN * ((customChunkSize || 0) *
    (useV1 ? 1 : 0.1) + 1))], in the arithmetic of floats. *)
Definition maxChunkSize : Number.t :=
  let c := Number.of_Z (default 0 (Options.customChunkSize options)) in
  let factor :=
    if bool_decide (Options.useV1 options = Some true)
    then Number.of_Z 1 else Number.tenth in
  Number.floor
    (Number.mul (Number.of_Z MAX_DOC_SIZE_BIN)
       (Number.add (Number.mul c factor) (Number.of_Z 1))).

(** [this.options.minimumChunkSize || 20] *)
Definition minimumChunkSize : Z :=
  match Options.minimumChunkSize options with
  | Some n => if n =? 0 then 20 else n
  | None => 20
  end.

(** [hashedPiece], the two branches on [this.options.passphrase]. *)
Definition hashedPiece (piece : string) : string :=
  if truthy passphrase then
    "+" +:+ toString36
              (xxhash64 E (piece +:+ "-" +:+ template passphrase +:+ "-"
                           +:+ toString10 (js_length piece)))
  else
    toString36 (xxhash64 E (piece +:+ "-" +:+ toString10 (js_length piece))).

(** [leafId = "h:" + hashedPiece] *)
Definition leafId (piece : string) : DocumentID :=
  "h:" +:+ hashedPiece piece.

(** One turn of the loop "Make chunks once": [acc] is [chunks] and
    [children]. *)
Definition put_piece (acc : Obj.t string * list string) (piece : string)
    : M E (Obj.t string * list string) :=
  cachedLeafId ← cache_revGet E (Some piece);
  if truthy (mjoin cachedLeafId) then
    let id := template (mjoin cachedLeafId) in
    mret (Obj.set id piece acc.1, acc.2 ++ [id])
  else
    mret (Obj.set (leafId piece) piece acc.1, acc.2 ++ [leafId piece]).

Definition make_leaf (e : string * string) : M E Leaf.t :=
  d ← (if truthy passphrase
       then lift_world E
              (encrypt E e.2 (template passphrase)
                 useDynamicIterationCount useV1)
       else mret e.2);
  mret (Leaf.mk e.1 d).

(** One turn of the loop over the answer of [_bulk_docs].  Of
    [chunks[ret.key]] the cache is given the piece, when [chunks] owns
    the key; every other value (it is [undefined], or a member of
    [Object.prototype] when [ret.key] names one) is no text, and is kept
    as [None]. *)
Definition put_result (chunks : Obj.t string) (_ : unit) (ret : BulkResult)
    : M E unit :=
  if bulk_ok ret then
    cache_set E (bulk_key ret) (Obj.get (template (bulk_key ret)) chunks)
  else if negb (bool_decide (bulk_error ret = Some "conflict")) then
    throw ("Chunk uploading failed! " +:+ template (bulk_id ret))
  else mret tt.

(** [put], in the order of the source: the pieces and their ids
    ([put_chunks]), the chunks that the remote lacks and their upload
    ([put_upload]), the answer of the upload ([put_results]), the
    metadata document ([put_meta]). *)
Definition put_chunks (pieces : list string)
    : M E (Obj.t string * list string) :=
  foldM put_piece ([], []) pieces.

Definition put_upload (chunks : Obj.t string) : M E (list BulkResult) :=
  existedIds ← _collectChunks E options (Obj.keys chunks) true;
  let entries :=
    List.filter (λ e, negb (truthy_sb (read_sb e.1 existedIds)))
      (Obj.entries chunks) in
  chunksToBeUploaded ← mapM make_leaf entries;
  _fetchJson E (PostBulkDocs chunksToBeUploaded).

Definition put_results (chunks : Obj.t string) (apiRet : list BulkResult)
    : M E unit :=
  foldM (put_result chunks) tt apiRet.

Definition put_meta (id : DocumentID) (path : string)
    (children : list string) (info : FileInfo.t) (type : EntryType)
    : M E bool :=
  theEntry ← encryptDocumentPath E options
    (Entry.mk id None None None path children (FileInfo.ctime info)
       (FileInfo.mtime info) (FileInfo.size info) type None None);
  oldData ← getById E options id true;
  let theEntry :=
    match oldData with
    | Some old => Entry.with_rev (Entry._rev old) theEntry
    | None => theEntry
    end in
  ret ← _fetchJson E (PutDoc id theEntry);
  mret (put_ok ret).

Definition put (path : string) (data : list string) (info : FileInfo.t)
    (type : EntryType) : M E bool :=
  id ← path2id E options path;
  let pieceSize := maxChunkSize in
  let plainSplit := shouldSplitAsPlainText E path in
  let pieces :=
    splitPieces2 E data pieceSize plainSplit minimumChunkSize path
      (Options.useV1 options) in
  acc ← put_chunks pieces;
  let chunks := acc.1 in
  let children := acc.2 in
  apiRet ← put_upload chunks;
  put_results chunks apiRet;;
  put_meta id path children info type.

(** The entry that [delete] writes over [oldData]. *)
Definition tombstone (oldData : Entry.t) (now : Z) : Entry.t :=
  Entry.mk (Entry._id oldData) (Entry._rev oldData) None None
    (Entry.path oldData) [] (Entry.ctime oldData) now 0
    (Entry.type oldData) (Some true)
    (Some (default [] (Entry.data oldData))).

Definition delete (path : string) : M E bool :=
  id ← path2id E options path;
  oldData ← getById E options id true;
  match oldData with
  | None => mret true
  | Some oldData =>
      if negb (truthy (Entry._rev oldData)) then mret true
      else if bool_decide (Entry.deleted oldData = Some true) then mret true
      else
        now ← lift_world E (λ w, let '(t, w') := Date_now E w in (Ok t, w'));
        newData ← encryptDocumentPath E options (tombstone oldData now);
        ret ← _fetchJson E (PutDoc id newData);
        mret (put_ok ret)
  end.

(** *** Enumeration *)

(** How a generator stops: it returns, it throws, or the model ran out
    of fuel before either. *)
Inductive Completion :=
  | Done
  | Thrown (message : string)
  | OutOfFuel.

Definition Gen (A : Type) : Type :=
  State.t (World E) → (list A * Completion) * State.t (World E).

(** Modelled from the spec: task.ts is not among the sources.  The tasks
    are run and each outcome is delivered, [{ok}] or [{err}]; the model
    runs them one after the other, in order. *)
Definition processAllTasksWithConcurrencyLimit {A} (limit : nat)
    (tasks : list (M E A)) : M E (list (Result A)) :=
  mapM (λ task : M E A, λ s, let '(r, s') := task s in (Ok r, s')) tasks.

Definition enumerate_task (metaOnly : bool) (e : Entry.t) : M E Entry.t :=
  try_catch
    (w ← decryptDocumentPath E options e;
     if metaOnly then mret w else getByMeta E options w)
    (λ _, throw ("Something happened at " +:+ Entry.path e)).

Definition entry_of_row (r : RangeRow) : option Entry.t :=
  match range_doc r with
  | Some (DocEntry e) => Some e
  | _ => None
  end.

Definition oks {A} (l : list (Result A)) : list A :=
  omap (λ r, match r with Ok a => Some a | Throw _ => None end) l.

(** [req]: [limit] is 100 and [include_docs] is set. *)
Definition req (endKey key : string) : M E AllDocsRange :=
  _fetchJson E (GetAllDocs key endKey 100).

(** The loop of [_enumerate]; [request] is the request already under
    way, with the outcome that awaiting it gives. *)
Fixpoint _enumerate_loop (fuel : nat) (endKey : string) (metaOnly : bool)
    (request : Result AllDocsRange) : Gen Entry.t :=
  λ s,
    match fuel with
    | O => (([], OutOfFuel), s)
    | S fuel' =>
        match request with
        | Throw e => (([], Thrown e), s)
        | Ok result =>
            match range_rows result with
            | None => (([], Done), s)
            | Some [] => (([], Done), s)
            | Some (r0 :: rs0) =>
                let key := range_key (List.last rs0 r0) +:+ u10ffff in
                let '(request', s1) := req endKey key s in
                let entries := omap entry_of_row (r0 :: rs0) in
                let rowsForProc := map (enumerate_task metaOnly) entries in
                match processAllTasksWithConcurrencyLimit 5 rowsForProc s1 with
                | (Throw e, s2) => (([], Thrown e), s2)
                | (Ok newDocs, s2) =>
                    let '((ys, c), s3) :=
                      _enumerate_loop fuel' endKey metaOnly request' s2 in
                    ((oks newDocs ++ ys, c), s3)
                end
            end
        end
    end.

Definition _enumerate (fuel : nat) (startKey endKey : string)
    (metaOnly : bool) : Gen Entry.t :=
  λ s,
    let '(request, s1) := req endKey startKey s in
    _enumerate_loop fuel endKey metaOnly request s1.

(** The key ranges of [enumerateAllNormalDocs]. *)
Definition targets : list (string * string) :=
  [ ("", "h:");
    ("h:" +:+ u10ffff, "i:");
    ("i:" +:+ u10ffff, "ix:");
    ("ix:" +:+ u10ffff, "ps:");
    ("ps:" +:+ u10ffff, u10ffff) ].

Fixpoint enumerate_targets (fuel : nat) (metaOnly : bool)
    (ts : list (string * string)) : Gen Entry.t :=
  λ s,
    match ts with
    | [] => (([], Done), s)
    | (startKey, endKey) :: ts' =>
        match _enumerate fuel startKey endKey metaOnly s with
        | ((ys, Done), s1) =>
            let '((zs, c), s2) := enumerate_targets fuel metaOnly ts' s1 in
            ((ys ++ zs, c), s2)
        | r => r
        end
    end.

Definition enumerateAllNormalDocs (fuel : nat) (metaOnly : bool)
    : Gen Entry.t :=
  enumerate_targets fuel metaOnly targets.

(** *** The change feed *)

(** The body of the loop over [results]: the two [try] blocks and what
    they guard.  A document that is not a metadata entry has no
    [children], and assembling it throws. *)
Definition follow_change
    (callback : Entry.t → option Seq → World E → Result unit * World E)
    (_ : unit) (lineData : Change) : M E unit :=
  try_catch
    (match change_seq lineData with
     | Some seq => set_since E (Some seq)
     | None => mret tt
     end;;
     match change_doc lineData with
     | Some (DocEntry docEntry) =>
         docDecrypted ← decryptDocumentPath E options docEntry;
         doc ← getByMeta E options docDecrypted;
         try_catch (lift_world E (callback doc (change_seq lineData)))
           (λ _, mret tt)
     | Some DocOther => throw "TypeError"
     | None => mret tt
     end)
    (λ _, mret tt).

(** The [do ... while (pending > 0)] of [followUpdates]: [true] when the
    loop ended, [false] when the model ran out of fuel. *)
Fixpoint follow_loop (fuel : nat)
    (callback : Entry.t → option Seq → World E → Result unit * World E)
    : M E bool :=
  match fuel with
  | O => mret false
  | S fuel' =>
      cursor ← get_since E;
      ret ← _fetchJson E (GetChanges (default 0%N cursor) "normal" 25);
      let pending := default 0 (pending ret) in
      match results ret with
      | None => throw "TypeError: results is not iterable"
      | Some results =>
          foldM (follow_change callback) tt results;;
          if 0 <? pending then follow_loop fuel' callback else mret true
      end
  end.

(** [followUpdates]: [Some since] when it returns [this.since], [None]
    when the model ran out of fuel. *)
Definition followUpdates (fuel : nat)
    (callback : Entry.t → option Seq → World E → Result unit * World E)
    : M E (option (option Seq)) :=
  finished ← try_catch
    (cursor ← get_since E;
     match cursor with
     | None => set_since E (Some 0%N)
     | Some _ => mret tt
     end;;
     follow_loop fuel callback)
    (λ _, mret true);
  cursor ← get_since E;
  mret (if finished : bool then Some cursor else None).
End Manipulator_write.

(** ** The line reader *)

(** [TextDecoder.decode(chunk)] for UTF-8, without the [stream] option, as
    the Encoding Standard defines it, on the bytes of the text it returns:
    a well-formed sequence is passed on, every maximal ill-formed part
    becomes U+FFFD, and a byte order mark that opens the chunk is dropped.
    Each call decodes its chunk on its own. *)
Definition uFFFD : string := String "239" (String "191" (String "189" "")).

Definition in_range (lo hi : N) (c : ascii) : bool :=
  ((lo <=? N_of_ascii c) && (N_of_ascii c <=? hi))%N.

(** The range of the second byte after the lead byte [c]. *)
Definition second_lo (c : ascii) : N :=
  if (N_of_ascii c =? 224)%N then 160
  else if (N_of_ascii c =? 240)%N then 144 else 128.

Definition second_hi (c : ascii) : N :=
  if (N_of_ascii c =? 237)%N then 159
  else if (N_of_ascii c =? 244)%N then 143 else 191.

Fixpoint utf8_decode (bytes : string) : string :=
  match bytes with
  | EmptyString => ""
  | String c rest =>
      if in_range 0 127 c then String c (utf8_decode rest)
      else if in_range 194 223 c then
        match rest with
        | String c1 rest1 =>
            if in_range 128 191 c1 then String c (String c1 (utf8_decode rest1))
            else uFFFD +:+ utf8_decode rest
        | EmptyString => uFFFD
        end
      else if in_range 224 239 c then
        match rest with
        | String c1 rest1 =>
            if in_range (second_lo c) (second_hi c) c1 then
              match rest1 with
              | String c2 rest2 =>
                  if in_range 128 191 c2
                  then String c (String c1 (String c2 (utf8_decode rest2)))
                  else uFFFD +:+ utf8_decode rest1
              | EmptyString => uFFFD
              end
            else uFFFD +:+ utf8_decode rest
        | EmptyString => uFFFD
        end
      else if in_range 240 244 c then
        match rest with
        | String c1 rest1 =>
            if in_range (second_lo c) (second_hi c) c1 then
              match rest1 with
              | String c2 rest2 =>
                  if in_range 128 191 c2 then
                    match rest2 with
                    | String c3 rest3 =>
                        if in_range 128 191 c3
                        then String c (String c1 (String c2 (String c3
                               (utf8_decode rest3))))
                        else uFFFD +:+ utf8_decode rest2
                    | EmptyString => uFFFD
                    end
                  else uFFFD +:+ utf8_decode rest1
              | EmptyString => uFFFD
              end
            else uFFFD +:+ utf8_decode rest
        | EmptyString => uFFFD
        end
      else uFFFD +:+ utf8_decode rest
  end.

Definition BOM : string := String "239" (String "187" (String "191" "")).

Definition strip_BOM (bytes : string) : string :=
  if startsWith bytes BOM then
    match bytes with
    | String _ (String _ (String _ rest)) => rest
    | _ => bytes
    end
  else bytes.

Definition TextDecoder_decode (chunk : string) : string :=
  utf8_decode (strip_BOM chunk).

(** [text.split('\n')]: the pieces between the line feeds, at least one. *)
Fixpoint split_lines (text : string) : list string :=
  match text with
  | EmptyString => [""]
  | String c text' =>
      if Ascii.eqb c "010" then "" :: split_lines text'
      else
        match split_lines text' with
        | l :: ls => String c l :: ls
        | [] => [String c ""]
        end
  end.

(** [readLines], over the chunks that [readChunks] delivers: the lines it
    yields.  [middle] is the loop from 1 to [length - 2]. *)
Definition middle (chunkLines : list string) : list string :=
  removelast (tail chunkLines).

Fixpoint readLines_from (partOfLine : string) (chunks : list string)
    : list string :=
  match chunks with
  | [] => []
  | chunk :: chunks' =>
      let chunkText := TextDecoder_decode chunk in
      let chunkLines := split_lines chunkText in
      match chunkLines with
      | [] => readLines_from partOfLine chunks'
      | [l0] => readLines_from (partOfLine +:+ l0) chunks'
      | l0 :: l1 :: ls =>
          (partOfLine +:+ l0) :: middle chunkLines
            ++ readLines_from (List.last ls l1) chunks'
      end
  end.

Definition readLines (chunks : list string) : list string :=
  readLines_from "" chunks.

(** ** The request that [_fetch] builds *)

(** The digits of base64: [A-Z], [a-z], [0-9], [+], [/]. *)
Definition base64_digit (n : N) : ascii :=
  if (n <? 26)%N then ascii_of_N (65 + n)
  else if (n <? 52)%N then ascii_of_N (71 + n)
  else if (n <? 62)%N then ascii_of_N (n - 4)
  else if (n =? 62)%N then "+"%char
  else "/"%char.

(** Base64 of a sequence of bytes, padded with [=]. *)
Fixpoint base64 (bytes : string) : string :=
  match bytes with
  | EmptyString => ""
  | String a EmptyString =>
      let a := N_of_ascii a in
      String (base64_digit (a / 4))
        (String (base64_digit (a mod 4 * 16)) "==")
  | String a (String b EmptyString) =>
      let a := N_of_ascii a in
      let b := N_of_ascii b in
      String (base64_digit (a / 4))
        (String (base64_digit (a mod 4 * 16 + b / 16))
           (String (base64_digit (b mod 16 * 4)) "="))
  | String a (String b (String c rest)) =>
      let a := N_of_ascii a in
      let b := N_of_ascii b in
      let c := N_of_ascii c in
      String (base64_digit (a / 4))
        (String (base64_digit (a mod 4 * 16 + b / 16))
           (String (base64_digit (b mod 16 * 4 + c / 64))
              (String (base64_digit (c mod 64)) (base64 rest))))
  end.

(** The bytes that [window.btoa] encodes: one per character, which has
    to be below U+0100.  On the UTF-8 bytes of the text, a character from
    U+0080 to U+00FF is the lead byte C2 or C3 and one more byte. *)
Fixpoint latin1 (s : string) : option string :=
  match s with
  | EmptyString => Some ""
  | String c rest =>
      if in_range 0 127 c then String c <$> latin1 rest
      else if in_range 194 195 c then
        match rest with
        | String c1 rest1 =>
            if in_range 128 191 c1 then
              String (ascii_of_N (N_of_ascii c1 + (N_of_ascii c - 194) * 64))
                <$> latin1 rest1
            else None
        | EmptyString => None
        end
      else None
  end.

(** [base64encode]: [window.btoa(src)] where there is a [window] with
    [btoa], [Buffer.from(src).toString("base64")], the base64 of the UTF-8
    bytes of [src], elsewhere. *)
Definition base64encode (window_btoa : bool) (src : string) : Result string :=
  if window_btoa then
    match latin1 src with
    | Some bytes => Ok (base64 bytes)
    | None => Throw "InvalidCharacterError"
    end
  else Ok (base64 src).

(** [encodeURIComponent]: letters, digits and [- _ . ! ~ * ' ( )] stay,
    every other byte of the UTF-8 text becomes [%] and two upper-case
    hexadecimal digits. *)
Definition unreserved (c : ascii) : bool :=
  in_range 65 90 c || in_range 97 122 c || in_range 48 57 c
  || existsb (Ascii.eqb c) (list_ascii_of_string "-_.!~*'()").

Definition hex_digit (n : N) : ascii :=
  if (n <? 10)%N then ascii_of_N (48 + n) else ascii_of_N (55 + n).

Fixpoint encodeURIComponent (s : string) : string :=
  match s with
  | EmptyString => ""
  | String c s' =>
      if unreserved c then String c (encodeURIComponent s')
      else
        String "%" (String (hex_digit (N_of_ascii c / 16))
          (String (hex_digit (N_of_ascii c mod 16)) (encodeURIComponent s')))
  end.

(** The values that the code puts in a query or in the parameters of a
    request, and the text that a template or [encodeURIComponent] makes
    of them. *)
Inductive JsonValue :=
  | JStr (s : string)
  | JBool (b : bool)
  | JNum (n : N)
  | JUndefined.

Definition ToString (v : JsonValue) : string :=
  match v with
  | JStr s => s
  | JBool true => "true"
  | JBool false => "false"
  | JNum n => toString10 n
  | JUndefined => "undefined"
  end.

(** [JSON.stringify] of a text: between quotes, with the quote, the
    backslash and the control characters escaped. *)
Definition quote : ascii := "034".
Definition backslash : ascii := "092".

Definition hex_lower (n : N) : ascii :=
  if (n <? 10)%N then ascii_of_N (48 + n) else ascii_of_N (87 + n).

Definition JSON_escape (c : ascii) : string :=
  let n := N_of_ascii c in
  if (n =? 8)%N then String backslash "b"
  else if (n =? 9)%N then String backslash "t"
  else if (n =? 10)%N then String backslash "n"
  else if (n =? 12)%N then String backslash "f"
  else if (n =? 13)%N then String backslash "r"
  else if (n =? 34)%N then String backslash (String quote "")
  else if (n =? 92)%N then String backslash (String backslash "")
  else if (n <? 32)%N then
    String backslash
      ("u00" +:+ String (hex_lower (n / 16)) (String (hex_lower (n mod 16)) ""))
  else String c "".

Fixpoint JSON_escape_all (s : string) : string :=
  match s with
  | EmptyString => ""
  | String c s' => JSON_escape c +:+ JSON_escape_all s'
  end.

Definition JSON_stringify (s : string) : string :=
  String quote (JSON_escape_all s +:+ String quote "").

(** [JSON.stringify] of an array of texts. *)
Definition JSON_stringify_array (l : list string) : string :=
  "[" +:+ String.concat "," (map JSON_stringify l) +:+ "]".

Inductive Method := GET | POST | PUT.

Record Headers := {
  authorization : string;
  content_type : string
}.

(** The arguments of [fetch(requestURI, opt)]; [body] is the value that
    [JSON.stringify] serialises.  The [signal] of [opt] is left out: of
    the calls modelled here none passes a controller. *)
Record HttpRequest (B : Type) := {
  requestURI : string;
  headers : Headers;
  method : Method;
  body : option B
}.
Arguments requestURI {B}.
Arguments headers {B}.
Arguments method {B}.
Arguments body {B}.

Section Fetch.
Variable options : Options.t.
Variable window_btoa : bool.

(** [Object.entries(querySrc).map(...).join("&")] *)
Definition query_of (querySrc : Obj.t JsonValue) : string :=
  String.concat "&"
    (map (λ e, encodeURIComponent e.1 +:+ "=" +:+ encodeURIComponent (ToString e.2))
       (Obj.entries querySrc)).

Definition uri_of (path : list string) (querySrc : Obj.t JsonValue) : string :=
  let query := query_of querySrc in
  Options.url options +:+ "/" +:+ Options.database options +:+ "/"
  +:+ String.concat "/" (map encodeURIComponent path)
  +:+ (if negb (String.eqb query "") then "?" +:+ query else "").

(** [_fetch], up to the call of [fetch]: it throws when [btoa] does. *)
Definition _fetch {B} (path : list string) (querySrc : Obj.t JsonValue)
    (method : Method) (body : option B) : Result (HttpRequest B) :=
  match base64encode window_btoa
          (Options.username options +:+ ":" +:+ Options.password options) with
  | Throw e => Throw e
  | Ok credentials =>
      Ok {| requestURI := uri_of path querySrc;
            headers := {| authorization := "Basic " +:+ credentials;
                          content_type := "application/json" |};
            method := method;
            body := match method with
                    | GET => None
                    | _ => body
                    end |}
  end.

(** The request of [getById]. *)
Definition getById_request (id : string) : Result (HttpRequest (Obj.t JsonValue)) :=
  _fetch [id] [] GET None.

(** [enumerate]: the parameters it collects from its conditions, and the
    request of each turn of its loop. *)
Record EnumerateConditions := {
  startKey : option string;
  endKey : option string;
  ids : option (list string);
  metaOnly : bool
}.

Definition enumerate_param (cond : EnumerateConditions) : Obj.t JsonValue :=
  let param := [] in
  let param :=
    if truthy (startKey cond)
    then Obj.set "startkey" (JStr (template (startKey cond))) param
    else param in
  let param :=
    if truthy (endKey cond)
    then Obj.set "endkey" (JStr (template (endKey cond))) param
    else param in
  match ids cond with
  | Some l => Obj.set "keys" (JStr (JSON_stringify_array l)) param
  | None => param
  end.

Definition of_key (key : option string) : JsonValue :=
  match key with Some k => JStr k | None => JUndefined end.

Definition enumerate_request (cond : EnumerateConditions) (key : option string)
    : Result (HttpRequest (Obj.t JsonValue)) :=
  _fetch ["_all_docs"] [] GET
    (Some (Obj.set "limit" (JNum 100)
             (Obj.set "startkey" (of_key key)
                (Obj.set "include_docs" (JBool true) (enumerate_param cond))))).
End Fetch.

(** *** [enumerate] *)

(** The [doc] of a row, as [enumerate] uses it: an object with the
    fields of a metadata entry, or another object, of which it reads
    [_id] and which has no [children]. *)
Inductive EnumDoc :=
  | EEntry (e : Entry.t)
  | EOther (_id : option string).

Record EnumRow := {
  enum_doc : option EnumDoc
}.

Record EnumAnswer := {
  enum_rows : option (list EnumRow)
}.

Definition doc_id (doc : EnumDoc) : option string :=
  match doc with
  | EEntry e => Some (Entry._id e)
  | EOther i => i
  end.

Section EnumerateGen.
Variable E : Env.
Variable options : Options.t.
Variable window_btoa : bool.

(** The remote, for a request that is not one of [Request]: its answer,
    parsed as the answer of [_all_docs]. *)
Variable remote :
  HttpRequest (Obj.t JsonValue) → World E → Result EnumAnswer * World E.

Definition enumerate_fetch (cond : EnumerateConditions) (key : option string)
    : M E EnumAnswer :=
  match enumerate_request options window_btoa cond key with
  | Throw e => throw e
  | Ok r => lift_world E (remote r)
  end.

(** The loop over the rows of one answer: what it yields, and the [key]
    it ends with or the error it throws.  A row without [doc] is yielded
    as [undefined] with [metaOnly], and then reading its [_id] throws;
    [getByMeta] throws on what has no [children]. *)
Fixpoint enumerate_rows (metaOnly : bool) (rows : list EnumRow)
    (key : option string)
    : State.t (World E)
      → (list (option EnumDoc) * Result (option string)) * State.t (World E) :=
  λ s,
    match rows with
    | [] => (([], Ok key), s)
    | v :: rows' =>
        let doc := enum_doc v in
        let '(y, s1) :=
          if metaOnly then (Ok doc, s)
          else
            match doc with
            | Some (EEntry e) =>
                let '(r, s1) := getByMeta E options e s in
                (match r with
                 | Ok ready => Ok (Some (EEntry ready))
                 | Throw m => Throw m
                 end, s1)
            | _ => (Throw "TypeError", s)
            end in
        match y with
        | Throw m => (([], Throw m), s1)
        | Ok yielded =>
            match doc with
            | None => (([yielded], Throw "TypeError"), s1)
            | Some d =>
                let '((ys, r), s2) :=
                  enumerate_rows metaOnly rows'
                    (Some (template (doc_id d) +:+ u10ffff)) s1 in
                ((yielded :: ys, r), s2)
            end
        end
    end.

Fixpoint enumerate_loop (fuel : nat) (cond : EnumerateConditions)
    (key : option string) : Gen E (option EnumDoc) :=
  λ s,
    match fuel with
    | O => (([], OutOfFuel), s)
    | S fuel' =>
        match enumerate_fetch cond key s with
        | (Throw m, s1) => (([], Thrown m), s1)
        | (Ok result, s1) =>
            match enum_rows result with
            | None => (([], Done), s1)
            | Some [] => (([], Done), s1)
            | Some rows =>
                match enumerate_rows (metaOnly cond) rows key s1 with
                | ((ys, Throw m), s2) => ((ys, Thrown m), s2)
                | ((ys, Ok key'), s2) =>
                    let '((zs, c), s3) := enumerate_loop fuel' cond key' s2 in
                    ((ys ++ zs, c), s3)
                end
            end
        end
    end.

Definition enumerate (fuel : nat) (cond : EnumerateConditions)
    : Gen E (option EnumDoc) :=
  enumerate_loop fuel cond (startKey cond).
End EnumerateGen.

(** ** A small server and stand-ins for the imported helpers

    A document database that answers the six requests the way the
    protocol describes, and the simplest hash, cipher, chunker and path
    mapping that fit the description of the imported modules.  The general
    statements below hold for every [Env]; this one is where they are
    evaluated. *)
Module Couch.
Inductive Stored :=
  | SEntry (gen : N) (e : Entry.t)
  | SLeaf (gen : N) (data : string).

Record Server := mk {
  docs : list (string * Stored);
  changes : list Change;
  clock : Z
}.

Definition rev_of (gen : N) : string := toString10 gen +:+ "-r".

(** The documents are kept in the order of their keys. *)
Fixpoint store (k : string) (d : Stored) (l : list (string * Stored))
    : list (string * Stored) :=
  match l with
  | [] => [(k, d)]
  | (k', d') :: l' =>
      if String.eqb k k' then (k, d) :: l'
      else if String.ltb k k' then (k, d) :: (k', d') :: l'
      else (k', d') :: store k d l'
  end.

Definition lookup (k : string) (l : list (string * Stored)) : option Stored :=
  Obj.get k l.

Definition gen_of (d : Stored) : N :=
  match d with SEntry g _ => g | SLeaf g _ => g end.

Definition as_document (d : Stored) : RemoteDocument :=
  match d with
  | SEntry g e => DocEntry (Entry.with_rev (Some (rev_of g)) e)
  | SLeaf _ _ => DocOther
  end.

Definition next_seq (w : Server) : Seq :=
  (N.of_nat (length (changes w)) + 1)%N.

Definition get_doc (id : string) (w : Server) : RemoteDocument :=
  match lookup id (docs w) with
  | Some d => as_document d
  | None => DocOther
  end.

Definition put_doc (id : string) (body : Entry.t) (w : Server)
    : PutResponse * Server :=
  let accept g :=
    ({| put_ok := true; put_error := None |},
     mk (store id (SEntry g body) (docs w))
        (changes w ++ [{| change_seq := Some (next_seq w);
                          change_doc :=
                            Some (DocEntry (Entry.with_rev (Some (rev_of g)) body)) |}])
        (clock w)) in
  let conflict := ({| put_ok := false; put_error := Some "conflict" |}, w) in
  match lookup id (docs w) with
  | None =>
      match Entry._rev body with
      | None => accept 1%N
      | Some _ => conflict
      end
  | Some d =>
      if bool_decide (Entry._rev body = Some (rev_of (gen_of d)))
      then accept (gen_of d + 1)%N
      else conflict
  end.

Definition type_name (t : EntryType) : string :=
  match t with plain => "plain" | newnote => "newnote" end.

Definition row_of (include_docs : bool) (w : Server) (k : string) : Row :=
  match lookup k (docs w) with
  | None => {| row_key := k; row_error := true; row_doc := None |}
  | Some d =>
      {| row_key := k; row_error := false;
         row_doc :=
           if include_docs then
             Some match d with
                  | SLeaf _ data =>
                      {| doc_type := Some "leaf"; doc_data := Some data |}
                  | SEntry _ e =>
                      {| doc_type := Some (type_name (Entry.type e));
                         doc_data := None |}
                  end
           else None |}
  end.

Fixpoint bulk (leaves : list Leaf.t) (w : Server) : list BulkResult * Server :=
  match leaves with
  | [] => ([], w)
  | l :: leaves' =>
      match lookup (Leaf._id l) (docs w) with
      | Some _ =>
          let '(rs, w') := bulk leaves' w in
          ({| bulk_ok := false; bulk_key := None;
              bulk_id := Some (Leaf._id l);
              bulk_error := Some "conflict" |} :: rs, w')
      | None =>
          let '(rs, w') :=
            bulk leaves'
              (mk (store (Leaf._id l) (SLeaf 1 (Leaf.data l)) (docs w))
                  (changes w) (clock w)) in
          ({| bulk_ok := true; bulk_key := None;
              bulk_id := Some (Leaf._id l);
              bulk_error := None |} :: rs, w')
      end
  end.

Definition between (startkey endkey k : string) : bool :=
  String.leb startkey k && String.leb k endkey.

Definition range (startkey endkey : string) (limit : Z) (w : Server)
    : list RangeRow :=
  take (Z.to_nat limit)
    (map (λ kd, {| range_key := kd.1;
                   range_doc := Some (as_document kd.2) |})
       (List.filter (λ kd, between startkey endkey kd.1) (docs w))).

Definition after (since : Seq) (c : Change) : bool :=
  match change_seq c with
  | Some q => (since <? q)%N
  | None => false
  end.

Definition feed (since : Seq) (limit : Z) (w : Server) : Changes :=
  let cs := List.filter (after since) (changes w) in
  {| pending := Some (Z.of_nat (length cs - Z.to_nat limit));
     results := Some (take (Z.to_nat limit) cs) |}.

Definition serve (r : Request) (w : Server) : Result (Response r) * Server :=
  match r return Result (Response r) * Server with
  | GetDoc id => (Ok (get_doc id w), w)
  | PutDoc id body => let '(a, w') := put_doc id body w in (Ok a, w')
  | PostAllDocs include_docs keys =>
      (Ok {| rows := Some (map (row_of include_docs w) keys) |}, w)
  | PostBulkDocs leaves => let '(a, w') := bulk leaves w in (Ok a, w')
  | GetAllDocs startkey endkey limit =>
      (Ok {| range_rows := Some (range startkey endkey limit w) |}, w)
  | GetChanges since _ limit => (Ok (feed since limit w), w)
  end.

(** A cipher in the shape the spec gives: what [seal] produces under a
    passphrase opens under that passphrase and under no other, and
    nothing else opens.  The passphrase is written before the text, each
    of its characters after a ["1"], and closed by a ["0"]. *)
Fixpoint mark (passphrase : string) : string :=
  match passphrase with
  | EmptyString => "0"
  | String c p => String "1" (String c (mark p))
  end.

Definition seal (input passphrase : string) : string :=
  "%" +:+ mark passphrase +:+ input.

Fixpoint strip (prefix s : string) : option string :=
  match prefix with
  | EmptyString => Some s
  | String c prefix' =>
      match s with
      | String c' s' => if Ascii.eqb c c' then strip prefix' s' else None
      | EmptyString => None
      end
  end.

Definition open (encryptedResult passphrase : string) : Result string :=
  match strip ("%" +:+ mark passphrase) encryptedResult with
  | Some input => Ok input
  | None => Throw "Encrypted data corrupted!"
  end.

Definition hash (input : string) : N :=
  fold_left (λ h c, (h * 31 + N_of_ascii c) mod 2 ^ 64)%N
    (list_ascii_of_string input) 7%N.

Definition env : Env := {|
  World := Server;
  xxhash64 := hash;
  encrypt := λ input passphrase _ _ w, (Ok (seal input passphrase), w);
  decrypt := λ encryptedResult passphrase _, open encryptedResult passphrase;
  path2id_base := λ path obfuscatePassphrase,
    if truthy obfuscatePassphrase
    then "f:" +:+ toString36 (hash (template obfuscatePassphrase +:+ ":" +:+ path))
    else path;
  shouldSplitAsPlainText := λ _, true;
  splitPieces2 := λ data _ _ _ _ _, data;
  fetch := serve;
  Date_now := λ w, (clock w, mk (docs w) (changes w) (clock w + 1))
|}.

(** The same server refusing every chunk. *)
Definition refuse (l : Leaf.t) : BulkResult :=
  {| bulk_ok := false; bulk_key := None; bulk_id := Some (Leaf._id l);
     bulk_error := Some "forbidden" |}.

Definition serve_readonly (r : Request) (w : Server)
    : Result (Response r) * Server :=
  match r return Result (Response r) * Server with
  | PostBulkDocs leaves => (Ok (map refuse leaves), w)
  | r' => serve r' w
  end.

Definition readonly : Env := {|
  World := Server;
  xxhash64 := xxhash64 env;
  encrypt := encrypt env;
  decrypt := decrypt env;
  path2id_base := path2id_base env;
  shouldSplitAsPlainText := shouldSplitAsPlainText env;
  splitPieces2 := splitPieces2 env;
  fetch := serve_readonly;
  Date_now := Date_now env
|}.

(** The server and the cipher, with a hash, a path mapping and a chunker
    of one's choice. *)
Definition standin (hash : string → N)
    (path2id : string → option string → DocumentID)
    (plainText : string → bool)
    (split : list string → Number.t → bool → Z → string → option bool
             → list string) : Env := {|
  World := Server;
  xxhash64 := hash;
  encrypt := encrypt env;
  decrypt := decrypt env;
  path2id_base := path2id;
  shouldSplitAsPlainText := plainText;
  splitPieces2 := split;
  fetch := serve;
  Date_now := Date_now env
|}.

Definition empty : Server := mk [] [] 1000.

Definition options (passphrase obfuscatePassphrase : option string)
    : Options.t :=
  Options.mk "http://localhost:5984" "user" "password" passphrase "vault"
    obfuscatePassphrase None None None None.

(** A new instance: an empty cache of 300 entries and 50,000,000
    characters, [since = ""], no request yet. *)
Definition fresh (w : Server) : State.t Server :=
  State.mk w (LRUCache.create 300 50000000%N) None [].
End Couch.

(** * Specification

    The predicates and the values that the properties below are stated
    with. *)

Section Specification.
Import State.

(** An entry to evaluate on. *)
Definition plan : Entry.t :=
  Entry.mk "plan" None None None "secret/plan.md" [] 1 2 0 plain None None.

(** The plaintext that the cache holds for a chunk id. *)
Definition cached (c : HashCache) (id : string) : option string :=
  mjoin (LRUCache.peek (Some id) c).

Definition is_cached (c : HashCache) (id : string) : bool :=
  match cached c id with Some _ => true | None => false end.

Definition uncached (c : HashCache) (ids : list string) : list string :=
  List.filter (λ id, negb (is_cached c id)) ids.

(** A row that carries no usable leaf: no [doc], a [type] other than
    ["leaf"], or no [data]. *)
Definition bad_row (v : Row) : bool :=
  negb (row_error v) &&
  match row_doc v with
  | None => true
  | Some doc =>
      negb (bool_decide (doc_type doc = Some "leaf"))
      || negb (bool_decide (is_Some (doc_data doc)))
  end.

(** The answer reports [c] missing: its last row about [c] is an error
    row. *)
Definition reports_missing (c : string) (rs : list Row) : bool :=
  fold_left (λ acc v, if String.eqb c (row_key v) then row_error v else acc)
    rs false.

Definition throws {E A} (m : M E A) (s : State.t (World E)) : Prop :=
  ∃ message s', m s = (Throw message, s').

Definition is_false (o : option StrOrBool) : bool :=
  match o with Some (IsBool false) => true | _ => false end.

Definition report (c : string) (acc : bool) (v : Row) : bool :=
  if String.eqb c (row_key v) then row_error v else acc.

(** What the remote says, when it is asked for the chunks of [doc] that
    the cache does not hold: it reports a child of [doc] missing, one
    that is not named [__proto__], or one of its rows carries no usable
    leaf. *)
Definition integrity_violated (E : Env) (doc : Entry.t)
    (s : State.t (World E)) : Prop :=
  ∃ rs w',
    unique (uncached (hashCaches s) (Entry.children doc)) ≠ [] ∧
    fetch E (PostAllDocs true
               (unique (uncached (hashCaches s) (Entry.children doc))))
      (world s)
    = (Ok {| rows := Some rs |}, w') ∧
    ((∃ c, c ∈ Entry.children doc ∧ c ≠ "__proto__" ∧
           reports_missing c rs = true) ∨
     (∃ v, v ∈ rs ∧ bad_row v = true)).

(** A metadata entry whose chunk the server does not have. *)
Definition orphan : Entry.t :=
  Entry.mk "a.md" (Some "1-r") None None "a.md" ["h:gone"] 1 2 5 plain None None.

(** A server that holds such an entry and no chunk, and one whose entry
    names its child [__proto__]. *)
Definition gone_orphan : Couch.Server :=
  Couch.mk
    [ ("a.md",
       Couch.SEntry 1
         (Entry.mk "a.md" None None None "a.md" ["h:gone"] 1 2 5 plain
            None None)) ]
    [] 1000.

Definition proto_orphan : Couch.Server :=
  Couch.mk
    [ ("p.md",
       Couch.SEntry 1
         (Entry.mk "p.md" None None None "p.md" ["__proto__"] 1 2 5 plain
            None None)) ]
    [] 1000.

(** The path of a stored entry, as the manipulator reads it: decrypted
    under the passphrase, when one is set. *)
Definition stored_path (E : Env) (options : Options.t) (e : Entry.t)
    : Result string :=
  if truthy (passphrase options)
  then decrypt E (Entry.path e) (template (passphrase options))
         (useDynamicIterationCount options)
  else Ok (Entry.path e).

(** The path of an entry, as the manipulator writes it: encrypted under
    [obfuscatePassphrase], when it is set. *)
Definition sealed_path (E : Env) (options : Options.t) (p : string)
    (w : World E) : Result string * World E :=
  if truthy (obfuscatePassphrase options)
  then encrypt E p (template (obfuscatePassphrase options))
         (useDynamicIterationCount options) (useV1 options) w
  else (Ok p, w).

(** [only P m]: [m] leaves the requests already made in place, and every
    request it adds satisfies [P]. *)
Definition only {E A} (P : Request → bool) (m : M E A) : Prop :=
  ∀ s r s', m s = (r, s') →
    ∃ new, State.requests s' = State.requests s ++ new ∧ forallb P new = true.

Definition not_put (r : Request) : bool := negb (is_put r).

(** A result that is neither [ok] nor a conflict. *)
Definition fatal (ret : BulkResult) : bool :=
  negb (bulk_ok ret) && negb (bool_decide (bulk_error ret = Some "conflict")).

(** The pieces that [put] works on. *)
Definition pieces (E : Env) (options : Options.t) (path : string)
    (data : list string) : list string :=
  splitPieces2 E data (maxChunkSize options) (shouldSplitAsPlainText E path)
    (minimumChunkSize options) path (Options.useV1 options).

(** The loop over the answer: it throws at the first fatal result, and
    without one it ends; either way it touches nothing but the cache. *)
Definition upload_outcome (apiRet : list BulkResult) : Result unit :=
  match List.find fatal apiRet with
  | Some ret => Throw ("Chunk uploading failed! " +:+ template (bulk_id ret))
  | None => Ok tt
  end.

(** A vault whose chunks were named by another client: the file [a.md] is
    the one chunk ["x"], stored under the id [h:1a2b3c]. *)
Definition legacy : Couch.Server :=
  Couch.mk
    [ ("a.md",
       Couch.SEntry 1
         (Entry.mk "a.md" None None None "a.md" ["h:1a2b3c"] 1 2 1 plain
            None None));
      ("h:1a2b3c", Couch.SLeaf 1 "x") ]
    [] 1000.

(** The instance after it has read [a.md]. *)
Definition after_reading : State.t Couch.Server :=
  (get Couch.env (Couch.options None None) "a.md" false (Couch.fresh legacy)).2.

(** The write of the spec's first scenario, on an empty server. *)
Definition hello : list string := ["Hello, "; "world!"].

Definition hello_info : FileInfo.t := FileInfo.mk 1 2 13.

Definition written (options : Options.t) : Result bool * State.t Couch.Server :=
  put Couch.env options "a/b.md" hello hello_info plain (Couch.fresh Couch.empty).

(** The loaded text of an entry. *)
Definition text_of (v : StrOrBool) : string :=
  match v with IsStr s => s | _ => "" end.

Definition joined (e : Entry.t) : string :=
  String.concat "" (map text_of (default [] (Entry.data e))).

Definition newline : ascii := "010".

Fixpoint has_newline (s : string) : bool :=
  match s with
  | EmptyString => false
  | String c s' => Ascii.eqb c newline || has_newline s'
  end.

(** The bytes of a stream of lines, each closed by a line feed. *)
Fixpoint stream_of (lines : list string) : string :=
  match lines with
  | [] => ""
  | l :: ls => l +:+ String newline (stream_of ls)
  end.

Fixpoint concat_chunks (chunks : list string) : string :=
  match chunks with
  | [] => ""
  | c :: cs => c +:+ concat_chunks cs
  end.

(** Well-formed UTF-8: the byte sequences of the Unicode standard. *)
Inductive utf8_wf : string → Prop :=
  | wf_end : utf8_wf ""
  | wf_one c s :
      in_range 0 127 c = true → utf8_wf s → utf8_wf (String c s)
  | wf_two c c1 s :
      in_range 194 223 c = true → in_range 128 191 c1 = true →
      utf8_wf s → utf8_wf (String c (String c1 s))
  | wf_three c c1 c2 s :
      in_range 224 239 c = true →
      in_range (second_lo c) (second_hi c) c1 = true →
      in_range 128 191 c2 = true →
      utf8_wf s → utf8_wf (String c (String c1 (String c2 s)))
  | wf_four c c1 c2 c3 s :
      in_range 240 244 c = true →
      in_range (second_lo c) (second_hi c) c1 = true →
      in_range 128 191 c2 = true → in_range 128 191 c3 = true →
      utf8_wf s → utf8_wf (String c (String c1 (String c2 (String c3 s)))).

(** A chunk that holds whole characters and does not open with a byte
    order mark. *)
Definition whole_characters (chunk : string) : Prop :=
  utf8_wf chunk ∧ startsWith chunk BOM = false.

(** The line [é] and its stream: the bytes C3 A9 0A. *)
Definition e_acute : string := String "195" (String "169" "").

Fixpoint nondecreasing (l : list N) : bool :=
  match l with
  | a :: l' =>
      match l' with
      | b :: _ => (a <=? b)%N && nondecreasing l'
      | [] => true
      end
  | [] => true
  end.

Definition maximum (l : list N) : N := fold_right N.max 0%N l.

(** [keeps_since m]: [m] leaves the cursor alone. *)
Definition keeps_since {E A} (m : M E A) : Prop :=
  ∀ s r s', m s = (r, s') → State.since s' = State.since s.

(** The cursor after a result: its [seq], when it has one. *)
Definition advance (cursor : option Seq) (lineData : Change) : option Seq :=
  match change_seq lineData with
  | Some seq => Some seq
  | None => cursor
  end.

(** The pages that the loop reads, with at most [fuel] requests. *)
Fixpoint pages_read (E : Env) (options : Options.t)
    (callback : Entry.t → option Seq → World E → Result unit * World E)
    (fuel : nat) (s : State.t (World E)) : list (list Change) :=
  match fuel with
  | O => []
  | S fuel' =>
      match _fetchJson E (GetChanges (default 0%N (since s)) "normal" 25) s with
      | (Ok ret, s1) =>
          match results ret with
          | Some rs =>
              rs :: (if 0 <? default 0 (pending ret)
                     then pages_read E options callback fuel'
                            (foldM (follow_change E options callback) tt rs s1).2
                     else [])
          | None => []
          end
      | (Throw _, _) => []
      end
  end.

(** The requests of [followUpdates]: the change feed with [feed=normal]
    and [limit=25], and the chunks of the documents it assembles. *)
Definition paged_feed (r : Request) : bool :=
  match r with
  | GetChanges _ feed limit => String.eqb feed "normal" && (limit =? 25)
  | PostAllDocs _ _ => true
  | _ => false
  end.

(** [this.since] once [followUpdates] has replaced the empty cursor. *)
Definition started (E : Env) (s : State.t (World E)) : State.t (World E) :=
  match since s with
  | None => mk (world s) (hashCaches s) (Some 0%N) (requests s)
  | Some _ => s
  end.

(** The [seq]s of the results read, in the order of the feed. *)
Definition seqs (pages : list (list Change)) : list Seq :=
  omap change_seq (concat pages).

(** A server after two writes, and a callback that does nothing. *)
Definition two_files : State.t Couch.Server :=
  let options := Couch.options None None in
  let s1 := (put Couch.env options "a.md" ["one"] (FileInfo.mk 1 2 3) plain
               (Couch.fresh Couch.empty)).2 in
  let s2 := (put Couch.env options "b.md" ["two"] (FileInfo.mk 3 4 3) plain s1).2 in
  Couch.fresh (State.world s2).

Definition quiet : Entry.t → option Seq → Couch.Server → Result unit * Couch.Server :=
  λ _ _ w, (Ok tt, w).

Definition slt (a b : string) : Prop := String.compare a b = Lt.

Definition sle (a b : string) : Prop := String.compare a b ≠ Gt.

(** [k] is in the range of a query: [startkey <= k <= endkey]. *)
Definition in_target (t : string * string) (k : string) : bool :=
  String.leb t.1 k && String.leb k t.2.

(** The prefixes that the ranges leave out. *)
Definition reserved : list string := ["h:"; "i:"; "ix:"; "ps:"].

(** [keeps_world Inv m]: [m] takes a world where [Inv] holds to one where
    it holds. *)
Definition keeps_world {E A} (Inv : World E → Prop) (m : M E A) : Prop :=
  ∀ s r s', Inv (State.world s) → m s = (r, s') → Inv (State.world s').

(** The answer to a range query on the documents [db], in key order. *)
Definition page (db : list (string * RemoteDocument)) (startkey endkey : string)
    : list RangeRow :=
  take 100
    (map (λ kd, {| range_key := kd.1; range_doc := Some kd.2 |})
       (List.filter (λ kd, in_target (startkey, endkey) kd.1) db)).

(** The ids that a generator has yielded. *)
Definition ids_of (ys : list Entry.t) : list string := map Entry._id ys.

(** Ids in ascending order between two keys. *)
Definition ascending (lo hi : string) (ids : list string) : Prop :=
  StronglySorted slt ids ∧ Forall (λ k, sle lo k ∧ sle k hi) ids.

(** The documents of [db] that a page holds. *)
Definition selected (db : list (string * RemoteDocument))
    (startkey endkey : string) : list (string * RemoteDocument) :=
  take 100 (List.filter (λ kd, in_target (startkey, endkey) kd.1) db).

Definition row_of_doc (kd : string * RemoteDocument) : RangeRow :=
  {| range_key := kd.1; range_doc := Some kd.2 |}.

(** Ranges that follow each other: each ends below the start of the
    later ones. *)
Definition in_sequence (ts : list (string * string)) : Prop :=
  StronglySorted (λ t t', slt t.2 t'.1) ts.

(** The documents of the stand-in server, as a range query shows them. *)
Definition documents (w : Couch.Server) : list (string * RemoteDocument) :=
  map (λ kd, (kd.1, Couch.as_document kd.2)) (Couch.docs w).

(** The documents of the server are those of [w0]. *)
Definition same_documents (w0 w : Couch.Server) : Prop :=
  Couch.docs w = Couch.docs w0.

(** The tombstone scenario of the spec: a file is written and deleted; its
    metadata then reads [deleted], of size 0 and without children; a second
    [delete] answers [true] and sends no [PUT]. *)
Definition deleted_once : State.t Couch.Server :=
  let options := Couch.options None None in
  let s1 := (put Couch.env options "t.md" ["x"] (FileInfo.mk 1 2 1) plain
               (Couch.fresh Couch.empty)).2 in
  (delete Couch.env options "t.md" s1).2.

(** A server with 101 files: [d100] to [d199], and [d199z]. *)
Definition file (id : string) : Couch.Stored :=
  Couch.SEntry 1 (Entry.mk id None None None id [] 1 2 0 plain None None).

Definition hundred : list string :=
  map (λ i, "d" +:+ toString10 (100 + N.of_nat i)) (seq 0 100).

Definition crowded : Couch.Server :=
  Couch.mk
    (fold_right (λ id docs, Couch.store id (file id) docs) []
       (hundred ++ ["d199z"]))
    [] 1000.

End Specification.

(** ** The vocabulary of the further properties *)

(** The number that a base64 digit stands for. *)
Definition base64_value (c : ascii) : option N :=
  let n := N_of_ascii c in
  if in_range 65 90 c then Some (n - 65)%N
  else if in_range 97 122 c then Some (n - 71)%N
  else if in_range 48 57 c then Some (n + 4)%N
  else if (n =? 43)%N then Some 62%N
  else if (n =? 47)%N then Some 63%N
  else None.

Definition pad : ascii := "=".

(** The bytes that a base64 text stands for. *)
Fixpoint unbase64 (s : string) : option string :=
  match s with
  | EmptyString => Some ""
  | String c0 (String c1 (String c2 (String c3 rest))) =>
      match base64_value c0, base64_value c1 with
      | Some x, Some y =>
          let b0 := ascii_of_N (x * 4 + y / 16) in
          if Ascii.eqb c2 pad then
            if Ascii.eqb c3 pad && String.eqb rest "" then Some (String b0 "")
            else None
          else
            match base64_value c2 with
            | Some z =>
                let b1 := ascii_of_N (y mod 16 * 16 + z / 4) in
                if Ascii.eqb c3 pad then
                  if String.eqb rest "" then Some (String b0 (String b1 ""))
                  else None
                else
                  match base64_value c3 with
                  | Some u =>
                      let b2 := ascii_of_N (z mod 4 * 64 + u) in
                      (λ bytes, String b0 (String b1 (String b2 bytes)))
                        <$> unbase64 rest
                  | None => None
                  end
            | None => None
            end
      | _, _ => None
      end
  | _ => None
  end.

(** A text of ASCII characters. *)
Definition ascii_only (s : string) : Prop :=
  Forall (λ c, in_range 0 127 c = true) (list_ascii_of_string s).

(** The value of a hexadecimal digit, and the text that a
    percent-encoded text stands for. *)
Definition hex_value (c : ascii) : option N :=
  let n := N_of_ascii c in
  if in_range 48 57 c then Some (n - 48)%N
  else if in_range 65 70 c then Some (n - 55)%N
  else None.

Fixpoint unescape (s : string) : option string :=
  match s with
  | EmptyString => Some ""
  | String c s' =>
      if Ascii.eqb c "%" then
        match s' with
        | String h (String l s'') =>
            match hex_value h, hex_value l with
            | Some x, Some y =>
                String (ascii_of_N (x * 16 + y)) <$> unescape s''
            | _, _ => None
            end
        | _ => None
        end
      else String c <$> unescape s'
  end.

(** The characters of a percent-encoded text. *)
Definition segment_char (c : ascii) : bool :=
  unreserved c || Ascii.eqb c "%".

(** What follows a prefix. *)
Fixpoint chop (prefix s : string) : option string :=
  match prefix with
  | EmptyString => Some s
  | String c prefix' =>
      match s with
      | String c' s' => if Ascii.eqb c c' then chop prefix' s' else None
      | EmptyString => None
      end
  end.

(** The pieces of a text between the occurrences of a character. *)
Fixpoint split_at (sep : ascii) (s : string) : list string :=
  match s with
  | EmptyString => [""]
  | String c s' =>
      if Ascii.eqb c sep then "" :: split_at sep s'
      else
        match split_at sep s' with
        | l :: ls => String c l :: ls
        | [] => [String c ""]
        end
  end.

(** The text before the first occurrence of a character, and the text
    after it. *)
Fixpoint cut_at (sep : ascii) (s : string) : option (string * string) :=
  match s with
  | EmptyString => None
  | String c s' =>
      if Ascii.eqb c sep then Some ("", s')
      else
        match cut_at sep s' with
        | Some (a, b) => Some (String c a, b)
        | None => None
        end
  end.

(** A request URI read back: the segments of its path after the address
    of the database, and the parameters of its query. *)
Definition parse_parameter (s : string) : option (string * string) :=
  match cut_at "=" s with
  | Some (name, v) =>
      match unescape name, unescape v with
      | Some name', Some v' => Some (name', v')
      | _, _ => None
      end
  | None => None
  end.

Fixpoint all_some {A} (l : list (option A)) : option (list A) :=
  match l with
  | [] => Some []
  | Some a :: l' =>
      match all_some l' with
      | Some r => Some (a :: r)
      | None => None
      end
  | None :: _ => None
  end.

Definition parse_query (query : string) : option (list (string * string)) :=
  all_some (map parse_parameter (split_at "&" query)).

Definition parse_uri (options : Options.t) (uri : string)
    : option (list string * list (string * string)) :=
  match chop (Options.url options +:+ "/" +:+ Options.database options +:+ "/")
          uri with
  | None => None
  | Some rest =>
      match cut_at "?" rest with
      | None =>
          match all_some (map unescape (split_at "/" rest)) with
          | Some path => Some (path, [])
          | None => None
          end
      | Some (p, query) =>
          match all_some (map unescape (split_at "/" p)), parse_query query with
          | Some path, Some params => Some (path, params)
          | _, _ => None
          end
      end
  end.

(** A text whose characters all satisfy [P]. *)
Definition chars (P : ascii → bool) (s : string) : Prop :=
  Forall (λ c, P c = true) (list_ascii_of_string s).

Definition other_than (sep : ascii) (c : ascii) : bool :=
  negb (Ascii.eqb c sep).

(** A parameter of a query, as [_fetch] writes it. *)
Definition parameter (e : string * JsonValue) : string :=
  encodeURIComponent e.1 +:+ "=" +:+ encodeURIComponent (ToString e.2).

(** The text that [put] hashes for a piece. *)
Definition hash_input (options : Options.t) (piece : string) : string :=
  if truthy (passphrase options) then
    piece +:+ "-" +:+ template (passphrase options) +:+ "-"
    +:+ toString10 (js_length piece)
  else piece +:+ "-" +:+ toString10 (js_length piece).

(** A computation that sends no request. *)
Definition silent {E A} (m : M E A) : Prop := only (λ _, false) m.

(** The ids that [_collectChunks] asks the remote for. *)
Definition missing (c : HashCache) (ids : list string) : list string :=
  unique (uncached c ids).

(** The requests for chunks that one call can add: none, or one. *)
Definition chunk_request (include_docs : bool) (keys : list string)
    : list Request :=
  match keys with
  | [] => []
  | _ :: _ => [PostAllDocs include_docs keys]
  end.

(** The text that a row carries: the data of its leaf, decrypted when a
    passphrase is set. *)
Definition row_text (E : Env) (options : Options.t) (v : Row)
    : option string :=
  if row_error v then None
  else
    match row_doc v with
    | Some doc =>
        if bool_decide (doc_type doc = Some "leaf") then
          match doc_data doc with
          | Some dataSrc =>
              if truthy (passphrase options) then
                match decrypt E dataSrc (template (passphrase options))
                        (useDynamicIterationCount options) with
                | Ok text => Some text
                | Throw _ => None
                end
              else Some dataSrc
          | None => None
          end
        else None
    | None => None
    end.

(** Where the text [t] of the child [c] of [doc] comes from, when [doc]
    is assembled in the state [s]: the cache holds it for [c], or a row
    with the key [c] carries it, in the answer to the request for the
    chunks that the cache lacks. *)
Definition text_from (E : Env) (options : Options.t) (doc : Entry.t)
    (s : State.t (World E)) (c t : string) : Prop :=
  cached (State.hashCaches s) c = Some t ∨
  ∃ rs w' v,
    fetch E (PostAllDocs true
               (missing (State.hashCaches s) (Entry.children doc)))
      (State.world s)
    = (Ok {| rows := Some rs |}, w') ∧
    v ∈ rs ∧ row_key v = c ∧ row_text E options v = Some t.

(** A record that holds texts of the cache, as the first loop of
    [_collectChunks] builds it. *)
Definition of_cache (c : HashCache) (ret : Obj.t StrOrBool) : Prop :=
  ∀ k x, Obj.get k ret = Some x →
         ∃ t, x = IsStr t ∧ k ≠ "__proto__" ∧ cached c k = Some t.

(** The item of [data] for the child [c]: a text of that child, or, for a
    child that names a member of [Object.prototype], that member. *)
Definition item_of (E : Env) (options : Options.t) (doc : Entry.t)
    (s : State.t (World E)) (c : string) (item : StrOrBool) : Prop :=
  (∃ t, item = IsStr t ∧ c ≠ "__proto__" ∧ text_from E options doc s c t) ∨
  (item = IsMember c ∧ Obj.inherited c = true).

(** The text that the cache holds for an id, [""] when it holds none. *)
Definition cached_text (c : HashCache) (id : string) : StrOrBool :=
  IsStr (default "" (cached c id)).

(** The number of line feeds of a text. *)
Fixpoint newlines (s : string) : nat :=
  match s with
  | EmptyString => O
  | String c s' => (if Ascii.eqb c newline then 1 else 0) + newlines s'
  end.

(** The text that the reader has decoded: every chunk on its own. *)
Definition decoded (chunks : list string) : string :=
  concat_chunks (map TextDecoder_decode chunks).

(** The task of an entry threw, in some state: [_enumerate] logs the
    error and goes on. *)
Definition task_failed (E : Env) (options : Options.t)
    (Inv : World E → Prop) (metaOnly : bool) (e : Entry.t) : Prop :=
  ∃ s msg s',
    Inv (State.world s) ∧
    enumerate_task E options metaOnly e s = (Throw msg, s').

(** No key is another key followed by more text. *)
Definition no_extension (keys : list string) : Prop :=
  ∀ k s, k ∈ keys → s ≠ "" → k +:+ s ∉ keys.

(** The documents of [db] from [startkey] to [endkey]. *)
Definition in_range_of (db : list (string * RemoteDocument))
    (startkey endkey : string) : list (string * RemoteDocument) :=
  List.filter (λ kd, in_target (startkey, endkey) kd.1) db.

(** A cache that holds no chunk: none of its entries has an id for key. *)
Definition holds_no_chunk (c : HashCache) : Prop :=
  Forall (λ kv, kv.1 = None) (LRUCache.entries c).

(** The record of chunks that [put] builds on such a cache. *)
Definition chunks_of (E : Env) (options : Options.t) (pieces : list string)
    (chunks : Obj.t string) : Obj.t string :=
  fold_left (λ o piece, Obj.set (leafId E options piece) piece o) pieces chunks.

(** What the stand-in server stores for a chunk. *)
Definition sealed (pass : option string) (piece : string) : string :=
  if truthy pass then Couch.seal piece (template pass) else piece.

Definition leaf_of (pass : option string) (e : string * string) : Leaf.t :=
  Leaf.mk e.1 (sealed pass e.2).

Definition accepted (l : Leaf.t) : BulkResult :=
  {| bulk_ok := true; bulk_key := None; bulk_id := Some (Leaf._id l);
     bulk_error := None |}.

(** A chunker to evaluate on: a text is cut after its third character. *)
Definition cut3 (text : string) : list string :=
  match text with
  | String a (String b (String c (String d rest))) =>
      [String a (String b (String c "")); String d rest]
  | _ => [text]
  end.

(** The metadata that [put] sends for a file, on the stand-in server. *)
Definition metadata_of (pass : option string) (id path : string)
    (children : list string) (info : FileInfo.t) (type : EntryType)
    : Entry.t :=
  Entry.mk id None None None
    (sealed pass path) children (FileInfo.ctime info) (FileInfo.mtime info)
    (FileInfo.size info) type None None.

(** The plain [GET] of [_all_docs]: no query and no body. *)
Definition plain_all_docs (options : Options.t)
    (r : HttpRequest (Obj.t JsonValue)) : Prop :=
  requestURI r
  = Options.url options +:+ "/" +:+ Options.database options +:+ "/_all_docs"
  ∧ method r = GET ∧ body r = None.

(** A server that lists its documents, one row for each, without [doc]:
    the answer to a query without [include_docs]. *)
Definition listing (r : HttpRequest (Obj.t JsonValue)) (w : Couch.Server)
    : Result EnumAnswer * Couch.Server :=
  (Ok {| enum_rows := Some (map (λ _, {| enum_doc := None |}) (Couch.docs w)) |},
   w).

(** A server that lists its documents with [doc], whatever the request
    asks: the answer that [enumerate] expects. *)
Definition listing_docs (r : HttpRequest (Obj.t JsonValue))
    (w : Couch.Server) : Result EnumAnswer * Couch.Server :=
  (Ok {| enum_rows :=
           Some (map (λ kd,
                   {| enum_doc :=
                        Some match Couch.as_document kd.2 with
                             | DocEntry e => EEntry e
                             | DocOther => EOther (Some kd.1)
                             end |})
                   (Couch.docs w)) |},
   w).

(** * Properties *)

(** ** Running the monad *)

Lemma bind_ok {E A B} (m : M E A) (f : A → M E B) s a s' :
  m s = (Ok a, s') → (m ≫= f) s = f a s'.
Proof. intros H. unfold mbind, M_bind. now rewrite H. Qed.

Lemma bind_throw {E A B} (m : M E A) (f : A → M E B) s e s' :
  m s = (Throw e, s') → (m ≫= f) s = (Throw e, s').
Proof. intros H. unfold mbind, M_bind. now rewrite H. Qed.

Lemma bind_inv {E A B} (m : M E A) (f : A → M E B) s r s' :
  (m ≫= f) s = (r, s') →
  (∃ a s1, m s = (Ok a, s1) ∧ f a s1 = (r, s')) ∨
  (∃ e, m s = (Throw e, s') ∧ r = Throw e).
Proof.
  unfold mbind, M_bind. destruct (m s) as [[a|e] s1]; intros H.
  - left. eauto.
  - right. inversion H; subst. eauto.
Qed.

Lemma with_path_same (e : Entry.t) : Entry.with_path (Entry.path e) e = e.
Proof. now destruct e. Qed.

Lemma truthy_template o : truthy o = true → o = Some (template o).
Proof. destruct o; simpl; [reflexivity | discriminate]. Qed.

Lemma append_cons c s t : String c s +:+ t = String c (s +:+ t).
Proof. reflexivity. Qed.

Lemma append_empty t : "" +:+ t = t.
Proof. reflexivity. Qed.

Lemma append_empty_r a : a +:+ "" = a.
Proof.
  induction a as [|x a IH]; [reflexivity|]. now rewrite append_cons, IH.
Qed.

Lemma append_assoc a b c : (a +:+ b) +:+ c = a +:+ b +:+ c.
Proof.
  induction a as [|x a IH]; [reflexivity|].
  rewrite !append_cons. now rewrite IH.
Qed.

Lemma length_append s t :
  String.length (s +:+ t) = (String.length s + String.length t)%nat.
Proof.
  induction s as [|c s IH]; [reflexivity|].
  rewrite append_cons. simpl. now rewrite IH.
Qed.

(** ** The stand-in cipher keeps the laws of the spec *)

Lemma strip_app p s : Couch.strip p (p +:+ s) = Some s.
Proof.
  induction p as [|c p IH]; simpl; [reflexivity|].
  now rewrite Ascii.eqb_refl.
Qed.

Lemma strip_length p s r : Couch.strip p s = Some r →
  String.length s = (String.length p + String.length r)%nat.
Proof.
  revert s. induction p as [|c p IH]; simpl; intros s H.
  - now inversion H.
  - destruct s as [|c' s]; [discriminate|].
    destruct (Ascii.eqb c c'); [|discriminate].
    simpl. f_equal. now apply IH.
Qed.

Lemma strip_mark p q s r :
  Couch.strip (Couch.mark q) (Couch.mark p +:+ s) = Some r → p = q.
Proof.
  revert p. induction q as [|c q IH]; intros p; destruct p as [|c' p]; simpl.
  - reflexivity.
  - discriminate.
  - discriminate.
  - destruct (Ascii.eqb_spec c c') as [->|]; [|discriminate].
    intros H. f_equal. now apply IH.
Qed.

Lemma open_seal input p : Couch.open (Couch.seal input p) p = Ok input.
Proof.
  unfold Couch.open, Couch.seal.
  change ("%" +:+ Couch.mark p +:+ input)
    with (("%" +:+ Couch.mark p) +:+ input).
  now rewrite strip_app.
Qed.

Lemma open_other_key input p q :
  p ≠ q → ∃ m, Couch.open (Couch.seal input p) q = Throw m.
Proof.
  intros Hne. unfold Couch.open, Couch.seal.
  rewrite !append_cons, !append_empty. simpl.
  destruct (Couch.strip (Couch.mark q) (Couch.mark p +:+ input)) eqn:H.
  - apply strip_mark in H. congruence.
  - eauto.
Qed.

Lemma seal_longer input p :
  (String.length input < String.length (Couch.seal input p))%nat.
Proof.
  unfold Couch.seal. rewrite !length_append. simpl. lia.
Qed.

Lemma open_shorter c p input :
  Couch.open c p = Ok input → (String.length input < String.length c)%nat.
Proof.
  unfold Couch.open.
  destruct (Couch.strip _ c) eqn:H; [|discriminate].
  intros [= ->]. apply strip_length in H. simpl in H. lia.
Qed.

(** ** Paths are encrypted under one option and decrypted under another *)

Section PathKey.
Variable E : Env.
Variable options : Options.t.

Import State.

Abbreviation obf := (obfuscatePassphrase options).
Abbreviation pass := (passphrase options).
Abbreviation dyn := (useDynamicIterationCount options).

(** The laws of the cipher, from the spec: what [encrypt] produces
    decrypts under its passphrase to the input and fails under another;
    a ciphertext is not its plaintext. *)
Hypothesis decrypt_encrypt : ∀ input p d v1 w c w',
  encrypt E input p d v1 w = (Ok c, w') → decrypt E c p d = Ok input.
Hypothesis decrypt_other_key : ∀ input p q d v1 w c w',
  p ≠ q → encrypt E input p d v1 w = (Ok c, w') →
  ∃ m, decrypt E c q d = Throw m.
Hypothesis encrypt_changes : ∀ input p d v1 w c w',
  encrypt E input p d v1 w = (Ok c, w') → c ≠ input.
Hypothesis decrypt_changes : ∀ c p d input,
  decrypt E c p d = Ok input → input ≠ c.

Lemma encryptDocumentPath_unset e s :
  truthy obf = false → encryptDocumentPath E options e s = (Ok e, s).
Proof.
  intros H. unfold encryptDocumentPath. rewrite H.
  unfold mbind, M_bind, mret, M_ret. now rewrite with_path_same.
Qed.

Lemma encryptDocumentPath_set e s :
  truthy obf = true →
  encryptDocumentPath E options e s =
    match encrypt E (Entry.path e) (template obf) dyn (useV1 options)
            (world s) with
    | (Ok c, w) =>
        (Ok (Entry.with_path c e), mk w (hashCaches s) (since s) (requests s))
    | (Throw m, w) =>
        (Throw m, mk w (hashCaches s) (since s) (requests s))
    end.
Proof.
  intros H. unfold encryptDocumentPath. rewrite H.
  unfold mbind, M_bind, mret, M_ret, lift_world.
  now destruct (encrypt E _ _ _ _ _) as [[c|m] w].
Qed.

Lemma decryptDocumentPath_unset e s :
  truthy pass = false → decryptDocumentPath E options e s = (Ok e, s).
Proof.
  intros H. unfold decryptDocumentPath. rewrite H.
  unfold mbind, M_bind, mret, M_ret. now rewrite with_path_same.
Qed.

Lemma decryptDocumentPath_set e s :
  truthy pass = true →
  decryptDocumentPath E options e s =
    match decrypt E (Entry.path e) (template pass) dyn with
    | Ok p => (Ok (Entry.with_path p e), s)
    | Throw m => (Throw m, s)
    end.
Proof.
  intros H. unfold decryptDocumentPath. rewrite H.
  unfold mbind, M_bind, mret, M_ret, lift_result.
  now destruct (decrypt E _ _ _).
Qed.

Lemma with_path_twice p q e :
  Entry.with_path p (Entry.with_path q e) = Entry.with_path p e.
Proof. reflexivity. Qed.

(** C10.  [encryptDocumentPath] encrypts the path under
    [options.obfuscatePassphrase] and leaves it alone when that option is
    not set; [decryptDocumentPath] decrypts it under [options.passphrase]
    and leaves it alone when that one is not set.  Hence decrypting what
    was encrypted gives the path back only when both options are unset or
    both hold the same passphrase, and in those two cases it does. *)
Theorem path_key_asymmetry (e : Entry.t) (s : State.t (World E)) :
  (truthy obf = false → encryptDocumentPath E options e s = (Ok e, s)) ∧
  (truthy obf = true →
     encryptDocumentPath E options e s =
       match encrypt E (Entry.path e) (template obf) dyn (useV1 options)
               (world s) with
       | (Ok c, w) =>
           (Ok (Entry.with_path c e),
            mk w (hashCaches s) (since s) (requests s))
       | (Throw m, w) =>
           (Throw m, mk w (hashCaches s) (since s) (requests s))
       end) ∧
  (truthy pass = false → decryptDocumentPath E options e s = (Ok e, s)) ∧
  (truthy pass = true →
     decryptDocumentPath E options e s =
       match decrypt E (Entry.path e) (template pass) dyn with
       | Ok p => (Ok (Entry.with_path p e), s)
       | Throw m => (Throw m, s)
       end) ∧
  (∀ e1 s1 e2 s2,
     encryptDocumentPath E options e s = (Ok e1, s1) →
     decryptDocumentPath E options e1 s1 = (Ok e2, s2) →
     Entry.path e2 = Entry.path e →
     (truthy obf = false ∧ truthy pass = false) ∨
     (truthy obf = true ∧ obf = pass)) ∧
  ((truthy obf = false ∧ truthy pass = false) ∨
   (truthy obf = true ∧ obf = pass) →
   ∀ e1 s1,
     encryptDocumentPath E options e s = (Ok e1, s1) →
     decryptDocumentPath E options e1 s1 = (Ok e, s1)).
Proof.
  split; [apply encryptDocumentPath_unset|].
  split; [apply encryptDocumentPath_set|].
  split; [apply decryptDocumentPath_unset|].
  split; [apply decryptDocumentPath_set|].
  split.
  - intros e1 s1 e2 s2 Henc Hdec Hpath.
    destruct (truthy obf) eqn:Ho; destruct (truthy pass) eqn:Hp.
    + right. split; [reflexivity|].
      rewrite encryptDocumentPath_set in Henc by assumption.
      destruct (encrypt E _ _ _ _ _) as [[c|m] w] eqn:Hc; [|discriminate].
      inversion Henc; subst e1 s1; clear Henc.
      rewrite decryptDocumentPath_set in Hdec by assumption.
      simpl in Hdec.
      destruct (decide (template obf = template pass)) as [Heq|Hne].
      * rewrite (truthy_template _ Ho), (truthy_template _ Hp). now f_equal.
      * destruct (decrypt_other_key _ _ _ _ _ _ _ _ Hne Hc) as [m Hm].
        rewrite Hm in Hdec. discriminate.
    + exfalso.
      rewrite encryptDocumentPath_set in Henc by assumption.
      destruct (encrypt E _ _ _ _ _) as [[c|m] w] eqn:Hc; [|discriminate].
      inversion Henc; subst e1 s1; clear Henc.
      rewrite decryptDocumentPath_unset in Hdec by assumption.
      inversion Hdec; subst e2 s2. simpl in Hpath.
      now apply encrypt_changes in Hc.
    + exfalso.
      rewrite encryptDocumentPath_unset in Henc by assumption.
      inversion Henc; subst e1 s1; clear Henc.
      rewrite decryptDocumentPath_set in Hdec by assumption.
      destruct (decrypt E _ _ _) as [p|m] eqn:Hd; [|discriminate].
      inversion Hdec; subst e2 s2. simpl in Hpath.
      now apply decrypt_changes in Hd.
    + left. now split.
  - intros [[Ho Hp]|[Ho Heq]] e1 s1 Henc.
    + rewrite encryptDocumentPath_unset in Henc by assumption.
      inversion Henc; subst. now apply decryptDocumentPath_unset.
    + rewrite encryptDocumentPath_set in Henc by assumption.
      destruct (encrypt E _ _ _ _ _) as [[c|m] w] eqn:Hc; [|discriminate].
      inversion Henc; subst e1 s1; clear Henc.
      assert (Hp : truthy pass = true) by now rewrite <- Heq.
      rewrite decryptDocumentPath_set by assumption. simpl.
      rewrite <- Heq, (decrypt_encrypt _ _ _ _ _ _ _ Hc).
      now rewrite with_path_twice, with_path_same.
Qed.
End PathKey.

(** The laws of the cipher hold of the stand-in. *)
Lemma couch_decrypt_encrypt : ∀ input p d v1 w c w',
  encrypt Couch.env input p d v1 w = (Ok c, w') →
  decrypt Couch.env c p d = Ok input.
Proof. intros input p d v1 w c w' [= <- _]. apply open_seal. Defined.

Lemma couch_decrypt_other_key : ∀ input p q d v1 w c w',
  p ≠ q → encrypt Couch.env input p d v1 w = (Ok c, w') →
  ∃ m, decrypt Couch.env c q d = Throw m.
Proof. intros input p q d v1 w c w' Hne [= <- _]. now apply open_other_key. Defined.

Lemma couch_encrypt_changes : ∀ input p d v1 w c w',
  encrypt Couch.env input p d v1 w = (Ok c, w') → c ≠ input.
Proof.
  intros input p d v1 w c w' [= <- _] Heq.
  pose proof (seal_longer input p) as H. rewrite Heq in H. lia.
Defined.

Lemma couch_decrypt_changes : ∀ c p d input,
  decrypt Couch.env c p d = Ok input → input ≠ c.
Proof. intros c p d input H Heq. apply open_shorter in H. subst. lia. Defined.

(** Both options hold ["p"]: the path comes back. *)
Lemma path_key_asymmetry_witness :
  decryptDocumentPath Couch.env (Couch.options (Some "p") (Some "p"))
    (Entry.with_path (Couch.seal "secret/plan.md" "p") plan)
    (Couch.fresh Couch.empty)
  = (Ok plan, Couch.fresh Couch.empty).
Proof.
  refine (proj2 (proj2 (proj2 (proj2 (proj2
    (path_key_asymmetry Couch.env (Couch.options (Some "p") (Some "p"))
       couch_decrypt_encrypt couch_decrypt_other_key couch_encrypt_changes
       couch_decrypt_changes plan (Couch.fresh Couch.empty))))))
    _ _ _ _).
  - right. split; reflexivity.
  - reflexivity.
Defined.

(** ** Objects and the cache *)

Lemma obj_get_replace {V} (k c : string) (v : V) (o : Obj.t V) :
  Obj.get c (Obj.replace k v o)
  = if String.eqb c k
    then match Obj.get k o with Some _ => Some v | None => None end
    else Obj.get c o.
Proof.
  induction o as [|[k' v'] o IH]; cbn [Obj.replace Obj.get].
  - now destruct (String.eqb c k).
  - destruct (String.eqb_spec k k') as [->|Hk]; cbn [Obj.get].
    + now destruct (String.eqb c k').
    + rewrite IH.
      destruct (String.eqb_spec c k') as [->|Hc].
      * destruct (String.eqb_spec k' k) as [->|]; [contradiction|reflexivity].
      * reflexivity.
Qed.

Lemma obj_get_insert_index {V} n (k c : string) (v : V) (o : Obj.t V) :
  Obj.get k o = None →
  Obj.get c (Obj.insert_index n k v o)
  = if String.eqb c k then Some v else Obj.get c o.
Proof.
  induction o as [|[k' v'] o IH]; cbn [Obj.insert_index Obj.get].
  - reflexivity.
  - destruct (String.eqb_spec k k') as [->|Hk]; [discriminate|]. intros Hget.
    assert (Hhere : Obj.get c ((k, v) :: (k', v') :: o)
                    = if String.eqb c k then Some v
                      else if String.eqb c k' then Some v' else Obj.get c o)
      by reflexivity.
    destruct (Obj.index_of k') as [n'|]; [|exact Hhere].
    destruct (n' <? n)%N; [|exact Hhere].
    cbn [Obj.get]. rewrite (IH Hget).
    destruct (String.eqb_spec c k') as [->|]; [|reflexivity].
    destruct (String.eqb_spec k' k) as [->|]; [contradiction|reflexivity].
Qed.

Lemma obj_get_last {V} (k c : string) (v : V) (o : Obj.t V) :
  Obj.get k o = None →
  Obj.get c (o ++ [(k, v)]) = if String.eqb c k then Some v else Obj.get c o.
Proof.
  induction o as [|[k' v'] o IH]; cbn [app Obj.get].
  - reflexivity.
  - destruct (String.eqb_spec k k') as [->|Hk]; [discriminate|]. intros Hget.
    rewrite (IH Hget).
    destruct (String.eqb_spec c k') as [->|]; [|reflexivity].
    destruct (String.eqb_spec k' k) as [->|]; [contradiction|reflexivity].
Qed.

(** Assigning under [__proto__] leaves the record as it is. *)
Lemma obj_set_proto {V} (v : V) (o : Obj.t V) : Obj.set "__proto__" v o = o.
Proof. reflexivity. Qed.

(** Assigning under any other key binds it, and no other. *)
Lemma obj_get_set {V} (k c : string) (v : V) (o : Obj.t V) :
  k ≠ "__proto__" →
  Obj.get c (Obj.set k v o) = if String.eqb c k then Some v else Obj.get c o.
Proof.
  intros Hk. unfold Obj.set.
  destruct (String.eqb_spec k "__proto__") as [|_]; [contradiction|].
  destruct (Obj.get k o) as [v0|] eqn:Hget.
  - rewrite obj_get_replace, Hget. reflexivity.
  - destruct (Obj.index_of k) as [n|].
    + now apply obj_get_insert_index.
    + now apply obj_get_last.
Qed.

(** Whatever the key, the others keep their bindings. *)
Lemma obj_get_set_other {V} (k c : string) (v : V) (o : Obj.t V) :
  c ≠ k → Obj.get c (Obj.set k v o) = Obj.get c o.
Proof.
  intros Hc. destruct (String.eqb_spec k "__proto__") as [->|Hk];
    [reflexivity|].
  rewrite obj_get_set by assumption.
  destruct (String.eqb_spec c k); [contradiction|reflexivity].
Qed.

Section CacheFacts.
Context {K V : Type} `{EqDecision K, EqDecision V}.
Implicit Types (k : K) (v : V) (c : LRUCache.t K V) (es : list (K * V)).

Lemma find_key_remove_ne k k' es :
  k ≠ k' →
  LRUCache.find_key k' (LRUCache.remove_key k es) = LRUCache.find_key k' es.
Proof.
  intros Hne. induction es as [|[k0 v0] es IH]; [reflexivity|].
  unfold LRUCache.remove_key in *. simpl.
  destruct (decide (k = k0)) as [->|Hk].
  - rewrite bool_decide_true by reflexivity. simpl.
    destruct (decide (k' = k0)) as [->|]; [contradiction|]. apply IH.
  - rewrite bool_decide_false by assumption. simpl.
    destruct (decide (k' = k0)); [reflexivity|]. apply IH.
Qed.

Lemma find_key_remove_eq k es :
  LRUCache.find_key k (LRUCache.remove_key k es) = None.
Proof.
  induction es as [|[k0 v0] es IH]; [reflexivity|].
  unfold LRUCache.remove_key in *. simpl.
  destruct (decide (k = k0)) as [->|Hk].
  - rewrite bool_decide_true by reflexivity. simpl. apply IH.
  - rewrite bool_decide_false by assumption. simpl.
    destruct (decide (k = k0)); [contradiction|]. apply IH.
Qed.

(** Reading refreshes the entry and changes no binding. *)
Lemma get_peek k c :
  (LRUCache.get k c).1 = LRUCache.peek k c ∧
  ∀ k', LRUCache.peek k' (LRUCache.get k c).2 = LRUCache.peek k' c.
Proof.
  unfold LRUCache.get, LRUCache.peek.
  destruct (LRUCache.find_key k (LRUCache.entries c)) as [v|] eqn:Hk; simpl.
  - split; [reflexivity|]. intros k'.
    destruct (decide (k' = k)) as [->|Hne]; [now rewrite Hk|].
    now apply find_key_remove_ne.
  - split; [reflexivity|]. reflexivity.
Qed.

Lemma revGet_miss v c :
  LRUCache.revPeek v c = None → LRUCache.revGet v c = (None, c).
Proof. unfold LRUCache.revGet, LRUCache.revPeek. now intros ->. Qed.

Lemma bounds_get k c :
  LRUCache.maxCache (LRUCache.get k c).2 = LRUCache.maxCache c ∧
  LRUCache.maxCachedLength (LRUCache.get k c).2 = LRUCache.maxCachedLength c.
Proof.
  unfold LRUCache.get.
  now destruct (LRUCache.find_key k (LRUCache.entries c)).
Qed.

Variable weigh : V → N.

(** What was just set is there, when one entry of that weight fits. *)
Lemma peek_set k v c :
  (1 ≤ LRUCache.maxCache c)%nat →
  (weigh v ≤ LRUCache.maxCachedLength c)%N →
  LRUCache.peek k (LRUCache.set weigh k v c) = Some v.
Proof.
  intros Hcount Hlen. unfold LRUCache.peek, LRUCache.set. simpl.
  destruct (LRUCache.maxCache c) as [|n]; [lia|].
  apply N.leb_le in Hlen. simpl. rewrite Hlen. simpl.
  now destruct (decide (k = k)).
Qed.

Lemma find_key_fit_None k n len es :
  LRUCache.find_key k es = None →
  LRUCache.find_key k (LRUCache.fit weigh n len es) = None.
Proof.
  revert n len. induction es as [|[k0 v0] es IH]; intros n len; simpl.
  - reflexivity.
  - destruct (decide (k = k0)); [discriminate|]. intros Hk.
    destruct n; [reflexivity|].
    destruct (weigh v0 <=? len)%N; [|reflexivity].
    simpl. destruct (decide (k = k0)); [contradiction|]. now apply IH.
Qed.

(** Setting another key adds no binding for this one. *)
Lemma peek_set_other k k' v c :
  k ≠ k' → LRUCache.peek k' c = None →
  LRUCache.peek k' (LRUCache.set weigh k v c) = None.
Proof.
  intros Hne Hk'. unfold LRUCache.peek, LRUCache.set in *.
  cbn [LRUCache.entries]. apply find_key_fit_None. simpl.
  destruct (decide (k' = k)); [congruence|].
  now rewrite find_key_remove_ne.
Qed.
End CacheFacts.

(** ** A missing or corrupted chunk is an error *)

Section Integrity.
Variable E : Env.
Variable options : Options.t.

Import State.

Lemma uncached_ext (c c' : HashCache) ids :
  (∀ k, LRUCache.peek k c' = LRUCache.peek k c) →
  uncached c' ids = uncached c ids.
Proof.
  intros H. unfold uncached, is_cached, cached.
  induction ids as [|id ids IH]; [reflexivity|].
  simpl. rewrite IH, H. reflexivity.
Qed.

(** The first loop of [_collectChunks] asks for the ids that the cache
    does not hold, and changes only the order of the cache. *)
Lemma collect_cached_fold ids : ∀ acc s,
  ∃ ret c',
    foldM (collect_cached E) acc ids s
    = (Ok (ret, acc.2 ++ uncached (hashCaches s) ids),
       mk (world s) c' (since s) (requests s))
    ∧ (∀ k, LRUCache.peek k c' = LRUCache.peek k (hashCaches s))
    ∧ LRUCache.maxCache c' = LRUCache.maxCache (hashCaches s)
    ∧ LRUCache.maxCachedLength c' = LRUCache.maxCachedLength (hashCaches s).
Proof.
  induction ids as [|id ids IH]; intros acc s.
  - exists acc.1, (hashCaches s). simpl.
    unfold uncached. simpl. rewrite app_nil_r.
    destruct acc, s; simpl. repeat split; reflexivity.
  - simpl. unfold mbind, M_bind. unfold collect_cached at 1.
    unfold mbind, M_bind, cache_get.
    destruct (get_peek (Some id) (hashCaches s)) as [Hv Hc].
    destruct (bounds_get (Some id) (hashCaches s)) as [Hb1 Hb2].
    destruct (LRUCache.get (Some id) (hashCaches s)) as [v c1] eqn:Hget.
    simpl in Hv, Hc, Hb1, Hb2.
    assert (Hu : uncached (hashCaches s) (id :: ids)
                 = if is_cached (hashCaches s) id
                   then uncached (hashCaches s) ids
                   else id :: uncached (hashCaches s) ids).
    { unfold uncached. simpl. now destruct (is_cached (hashCaches s) id). }
    unfold is_cached in Hu at 1. unfold cached in Hu at 1.
    rewrite <- Hv in Hu.
    destruct v as [[str|]|]; simpl in Hu.
    + unfold mret, M_ret.
      destruct (IH (Obj.set id (IsStr str) acc.1, acc.2)
                   (mk (world s) c1 (since s) (requests s)))
        as (ret & c' & Hrun & Hpeek & Hm1 & Hm2).
      simpl in Hrun, Hpeek, Hm1, Hm2. rewrite Hrun.
      exists ret, c'. rewrite Hu, (uncached_ext _ _ _ Hc).
      repeat split; try congruence; intros k; now rewrite Hpeek.
    + unfold mret, M_ret.
      destruct (IH (acc.1, acc.2 ++ [id])
                   (mk (world s) c1 (since s) (requests s)))
        as (ret & c' & Hrun & Hpeek & Hm1 & Hm2).
      simpl in Hrun, Hpeek, Hm1, Hm2. rewrite Hrun.
      exists ret, c'. rewrite Hu, (uncached_ext _ _ _ Hc), <- app_assoc.
      repeat split; try congruence; intros k; now rewrite Hpeek.
    + unfold mret, M_ret.
      destruct (IH (acc.1, acc.2 ++ [id])
                   (mk (world s) c1 (since s) (requests s)))
        as (ret & c' & Hrun & Hpeek & Hm1 & Hm2).
      simpl in Hrun, Hpeek, Hm1, Hm2. rewrite Hrun.
      exists ret, c'. rewrite Hu, (uncached_ext _ _ _ Hc), <- app_assoc.
      repeat split; try congruence; intros k; now rewrite Hpeek.
Qed.

Lemma report_from_false c rs : ∀ b,
  fold_left (report c) rs false = true → fold_left (report c) rs b = true.
Proof.
  induction rs as [|v rs IH]; simpl; intros b H; [discriminate|].
  unfold report at 2. unfold report at 2 in H.
  destruct (String.eqb c (row_key v)); [assumption|]. now apply IH.
Qed.

(** A row that is taken without an error is not a bad one, and marks
    its key [false] exactly when it is an error row. *)
Lemma is_false_set c k v (ret : Obj.t StrOrBool) :
  c ≠ "__proto__" →
  is_false (Obj.get c (Obj.set k v ret))
  = if String.eqb c k then is_false (Some v) else is_false (Obj.get c ret).
Proof.
  intros Hc. destruct (String.eqb_spec c k) as [<-|Hk].
  - rewrite obj_get_set by assumption. now rewrite String.eqb_refl.
  - now rewrite obj_get_set_other.
Qed.

Lemma collect_row_ok ret v s ret' s' :
  collect_row E options false ret v s = (Ok ret', s') →
  bad_row v = false ∧
  ∀ c, c ≠ "__proto__" →
       is_false (Obj.get c ret') = report c (is_false (Obj.get c ret)) v.
Proof.
  unfold collect_row, bad_row, report.
  destruct (row_error v) eqn:Herr; simpl.
  - intros [= <- <-]. split; [reflexivity|]. intros c Hc.
    rewrite is_false_set by assumption.
    now destruct (String.eqb c (row_key v)).
  - destruct (row_doc v) as [doc|]; [|discriminate].
    destruct (bool_decide (doc_type doc = Some "leaf")); [|discriminate].
    destruct (doc_data doc) as [dataSrc|]; [|discriminate]. simpl.
    unfold mbind, M_bind.
    match goal with |- context [?m s] =>
      destruct (m s) as [[data|e] s1]; [|discriminate] end.
    unfold cache_set, mret, M_ret. intros [= <- <-].
    split; [reflexivity|]. intros c Hc.
    rewrite is_false_set by assumption.
    now destruct (String.eqb c (row_key v)).
Qed.

Lemma collect_rows_ok rs : ∀ ret s ret' s',
  foldM (collect_row E options false) ret rs s = (Ok ret', s') →
  forallb (λ v, negb (bad_row v)) rs = true ∧
  ∀ c, c ≠ "__proto__" →
       is_false (Obj.get c ret')
       = fold_left (report c) rs (is_false (Obj.get c ret)).
Proof.
  induction rs as [|v rs IH]; simpl; intros ret s ret' s' H.
  - inversion H; subst. now split.
  - apply bind_inv in H as [(ret1 & s1 & Hv & Hrest)|(e & _ & He)];
      [|discriminate].
    apply collect_row_ok in Hv as [Hbad Hget].
    apply IH in Hrest as [Hall Hfold].
    rewrite Hbad, Hall. split; [reflexivity|].
    intros c Hc. now rewrite Hfold, Hget.
Qed.

Lemma getByMeta_throws doc s :
  integrity_violated E doc s → throws (getByMeta E options doc) s.
Proof.
  intros (rs & w' & Hks & Hfetch & Hbad).
  unfold throws, getByMeta, _collectChunks.
  destruct (collect_cached_fold (Entry.children doc) ([], []) s)
    as (ret0 & c' & Hrun & _). simpl in Hrun.
  unfold mbind at 1, M_bind at 1. unfold mbind at 1, M_bind at 1.
  rewrite Hrun. cbn [fst snd].
  assert (Hlen : (length (uncached (hashCaches s) (Entry.children doc))
                  =? 0)%nat = false).
  { destruct (uncached (hashCaches s) (Entry.children doc));
      [now contradiction Hks|reflexivity]. }
  rewrite Hlen.
  unfold mbind at 1, M_bind at 1, _fetchJson. cbn [world negb].
  rewrite Hfetch. cbn [rows].
  match goal with |- context [foldM ?f ?r ?l ?st] =>
    destruct (foldM f r l st) as [[ret1|e] s1] eqn:Hrows end;
    [|eauto].
  apply collect_rows_ok in Hrows as [Hall Hfold].
  destruct Hbad as [(c & Hc & Hproto & Hmiss)|(v & Hv & Hbad)].
  - assert (Hfalse : chunk_or_false ret1 c = IsBool false).
    { specialize (Hfold c Hproto). unfold reports_missing in Hmiss.
      rewrite (report_from_false _ _ _ Hmiss) in Hfold.
      unfold chunk_or_false, read_sb.
      destruct (Obj.get c ret1) as [[?|[|]|?]|]; try discriminate; reflexivity. }
    assert (Hex : existsb (λ e, bool_decide (e = IsBool false))
                    (map (chunk_or_false ret1) (Entry.children doc)) = true).
    { apply existsb_exists. exists (IsBool false). split.
      - apply in_map_iff. exists c. split; [assumption|].
        now apply list_elem_of_In.
      - now apply bool_decide_eq_true. }
    rewrite Hex. unfold throw. eauto.
  - exfalso. rewrite forallb_forall in Hall.
    apply list_elem_of_In in Hv. apply Hall in Hv. rewrite Hbad in Hv.
    discriminate.
Qed.

(** X17.  When the remote, asked for the chunks of an entry, reports one
    of its children missing, one that is not named [__proto__], or
    answers with a document that is not a leaf or has no data, assembling
    the entry ([getByMeta], and [get] without [metaOnly]) throws: no
    partial content is returned. *)
Theorem missing_chunk_is_an_error :
  (∀ doc s,
     integrity_violated E doc s → throws (getByMeta E options doc) s) ∧
  (∀ path s e w1 doc,
     let id := path2id_base E path (obfuscatePassphrase options) in
     let s1 := mk w1 (hashCaches s) (since s) (requests s ++ [GetDoc id]) in
     fetch E (GetDoc id) (world s) = (Ok (DocEntry e), w1) →
     decryptDocumentPath E options e s1 = (Ok doc, s1) →
     integrity_violated E doc s1 →
     throws (get E options path false) s).
Proof.
  split; [apply getByMeta_throws|].
  intros path s e w1 doc id s1 Hget Hdec Hbad.
  apply getByMeta_throws in Hbad as (message & s' & Hthrow).
  exists message, s'.
  unfold get, path2id, getById.
  unfold mbind at 1, M_bind at 1, mret at 1, M_ret at 1.
  unfold mbind at 1, M_bind at 1, _fetchJson. fold id. rewrite Hget.
  fold s1. unfold mbind at 1, M_bind at 1. rewrite Hdec.
  unfold mbind, M_bind. now rewrite Hthrow.
Qed.
End Integrity.

Lemma missing_chunk_is_an_error_witness :
  throws (getByMeta Couch.env (Couch.options None None) orphan)
    (Couch.fresh Couch.empty).
Proof.
  apply (proj1 (missing_chunk_is_an_error Couch.env (Couch.options None None))).
  exists [{| row_key := "h:gone"; row_error := true; row_doc := None |}],
    Couch.empty.
  split; [discriminate|]. split; [reflexivity|].
  left. exists "h:gone". split; [|split; [discriminate|reflexivity]].
  apply list_elem_of_In. now left.
Defined.

(** C3 at the input [get("p.md")] on a server that holds the metadata
    entry [p.md] with the one child [__proto__] and no chunk: the server
    reports the child missing, [_collectChunks] assigns [false] under
    [__proto__], which binds nothing, [getByMeta] finds [__proto__] in
    the record all the same and reads a member of [Object.prototype]
    there, and [get] returns the entry, with that member as its data,
    where an entry with any other missing child makes it throw. *)
Theorem missing_chunk_named_proto_is_no_error :
  let options := Couch.options None None in
  let run := get Couch.env options "p.md" false (Couch.fresh proto_orphan) in
  fetch Couch.env (PostAllDocs true ["__proto__"]) proto_orphan
  = (Ok {| rows := Some [ {| row_key := "__proto__"; row_error := true;
                             row_doc := None |} ] |},
     proto_orphan) ∧
  State.requests run.2 = [GetDoc "p.md"; PostAllDocs true ["__proto__"]] ∧
  run.1
  = Ok (Some (Entry.mk "p.md" (Some "1-r") None None "p.md" ["__proto__"]
                1 2 5 plain None (Some [IsMember "__proto__"]))) ∧
  (get Couch.env options "a.md" false (Couch.fresh gone_orphan)).1
  = Throw "Missing chunks: a.md!".
Proof. vm_compute. repeat split. Qed.

(** ** The requests of a computation *)

Create HintDb requests.

Section Requests.
Variable E : Env.
Variable options : Options.t.
Variable P : Request → bool.

Import State.

Lemma only_same {A} (m : M E A) :
  (∀ s r s', m s = (r, s') → requests s' = requests s) → only P m.
Proof.
  intros H s r s' Hm. exists []. rewrite app_nil_r. split; [|reflexivity].
  now apply (H s r s').
Qed.

Lemma only_ret {A} (a : A) : only P (mret a : M E A).
Proof. apply only_same. now intros s r s' [= <- <-]. Qed.

Lemma only_throw {A} e : only P (throw e : M E A).
Proof. apply only_same. now intros s r s' [= <- <-]. Qed.

Lemma only_bind {A B} (m : M E A) (f : A → M E B) :
  only P m → (∀ a, only P (f a)) → only P (m ≫= f).
Proof.
  intros Hm Hf s r s' H.
  apply bind_inv in H as [(a & s1 & H1 & H2)|(e & H1 & _)].
  - apply Hm in H1 as (n1 & E1 & Hn1). apply Hf in H2 as (n2 & E2 & Hn2).
    exists (n1 ++ n2). rewrite E2, E1, app_assoc, forallb_app, Hn1, Hn2.
    now split.
  - now apply Hm in H1.
Qed.

Lemma only_try_catch {A} (m : M E A) h :
  only P m → (∀ e, only P (h e)) → only P (try_catch m h).
Proof.
  intros Hm Hh s r s' H. unfold try_catch in H.
  destruct (m s) as [[a|e] s1] eqn:H1.
  - inversion H; subst. now apply Hm in H1.
  - apply Hm in H1 as (n1 & E1 & Hn1). apply Hh in H as (n2 & E2 & Hn2).
    exists (n1 ++ n2). rewrite E2, E1, app_assoc, forallb_app, Hn1, Hn2.
    now split.
Qed.

Lemma only_foldM {A B} (f : B → A → M E B) l :
  (∀ b a, only P (f b a)) → ∀ b, only P (foldM f b l).
Proof.
  intros Hf. induction l as [|a l IH]; intros b; simpl.
  - apply only_ret.
  - apply only_bind; auto.
Qed.

Lemma only_mapM {A B} (f : A → M E B) l :
  (∀ a, only P (f a)) → only P (mapM f l).
Proof.
  intros Hf. induction l as [|a l IH]; simpl.
  - apply only_ret.
  - apply only_bind; [auto|]. intros b.
    apply only_bind; [auto|]. intros bs. apply only_ret.
Qed.

Lemma only_lift_world {A} (f : World E → Result A * World E) :
  only P (lift_world E f).
Proof.
  apply only_same. intros s r s'. unfold lift_world.
  destruct (f (world s)). now intros [= <- <-].
Qed.

Lemma only_lift_result {A} (r : Result A) : only P (lift_result r : M E A).
Proof. apply only_same. now intros s r' s' [= <- <-]. Qed.

Lemma only_cache_get k : only P (cache_get E k).
Proof.
  apply only_same. intros s r s'. unfold cache_get.
  destruct (LRUCache.get k (hashCaches s)). now intros [= <- <-].
Qed.

Lemma only_cache_revGet v : only P (cache_revGet E v).
Proof.
  apply only_same. intros s r s'. unfold cache_revGet.
  destruct (LRUCache.revGet v (hashCaches s)). now intros [= <- <-].
Qed.

Lemma only_cache_set k v : only P (cache_set E k v).
Proof. apply only_same. now intros s r s' [= <- <-]. Qed.

Lemma only_get_since : only P (get_since E).
Proof. apply only_same. now intros s r s' [= <- <-]. Qed.

Lemma only_set_since v : only P (set_since E v).
Proof. apply only_same. now intros s r s' [= <- <-]. Qed.

Lemma only_fetch r : P r = true → only P (_fetchJson E r).
Proof.
  intros HP s res s'. unfold _fetchJson.
  destruct (fetch E r (world s)). intros [= <- <-].
  exists [r]. simpl. now rewrite HP.
Qed.
End Requests.

#[export] Hint Resolve only_ret only_throw only_lift_world only_lift_result
  only_cache_get only_cache_revGet only_cache_set only_get_since
  only_set_since : requests.

(** Splits a computation along its binds and branches. *)
Ltac only_step :=
  match goal with
  | |- only _ (_ ≫= _) => apply only_bind; [|intros ?]
  | |- only _ (foldM _ _ _) => apply only_foldM; intros ? ?
  | |- only _ (mapM _ _) => apply only_mapM; intros ?
  | |- only _ (try_catch _ _) => apply only_try_catch; [|intros ?]
  | |- only _ (if ?b then _ else _) => destruct b
  | |- only _ (match ?x with Some _ => _ | None => _ end) => destruct x
  | |- only _ (match ?x with DocEntry _ => _ | DocOther => _ end) => destruct x
  | |- only ?P (_fetchJson ?E ?r) => exact (only_fetch E P r eq_refl)
  | |- only _ _ => solve [auto with requests]
  end.

Ltac only_auto := repeat only_step.

(** ** The answer of the chunk upload *)

Section UploadPolicy.
Variable E : Env.
Variable options : Options.t.

Import State.

Lemma only_collectChunks_gen P ids b :
  (∀ include_docs keys, P (PostAllDocs include_docs keys) = true) →
  only P (_collectChunks E options ids b).
Proof.
  intros HP. unfold _collectChunks. only_step.
  - only_step. unfold collect_cached. only_auto.
  - only_step; [only_auto|].
    only_step;
      [match goal with |- only _ (_fetchJson _ ?r) =>
         exact (only_fetch E P r (HP _ _)) end|].
    only_step; [|only_auto]. only_step. unfold collect_row. only_auto.
Qed.

Lemma only_collectChunks ids b :
  only not_put (_collectChunks E options ids b).
Proof. now apply only_collectChunks_gen. Qed.

Lemma only_getByMeta P doc :
  (∀ include_docs keys, P (PostAllDocs include_docs keys) = true) →
  only P (getByMeta E options doc).
Proof.
  intros HP. unfold getByMeta.
  only_step; [now apply only_collectChunks_gen|]. only_auto.
Qed.

Lemma only_decryptDocumentPath P e : only P (decryptDocumentPath E options e).
Proof. unfold decryptDocumentPath. only_auto. Qed.

Lemma only_put_chunks ps : only not_put (put_chunks E options ps).
Proof. unfold put_chunks. only_step. unfold put_piece. only_auto. Qed.

Lemma only_put_upload chunks : only not_put (put_upload E options chunks).
Proof.
  unfold put_upload. only_step; [apply only_collectChunks|].
  only_step; [|only_auto]. only_step. unfold make_leaf. only_auto.
Qed.

Lemma put_result_conflict chunks ret s :
  bulk_ok ret = false → bulk_error ret = Some "conflict" →
  put_result E chunks tt ret s = (Ok tt, s).
Proof.
  intros Hok Herr. unfold put_result. rewrite Hok, Herr.
  now rewrite bool_decide_true.
Qed.

Lemma put_result_fatal chunks ret s :
  fatal ret = true → throws (put_result E chunks tt ret) s.
Proof.
  unfold fatal, put_result, throws. intros [Hok Herr]%andb_true_iff.
  apply negb_true_iff in Hok. rewrite Hok, Herr. unfold throw. eauto.
Qed.

Lemma put_results_run chunks apiRet : ∀ s,
  ∃ c',
    put_results E chunks apiRet s
    = (upload_outcome apiRet, mk (world s) c' (since s) (requests s)).
Proof.
  unfold put_results, upload_outcome.
  induction apiRet as [|ret apiRet IH]; intros s.
  - exists (hashCaches s). now destruct s.
  - cbn [foldM List.find]. unfold mbind, M_bind, put_result, fatal.
    destruct (bulk_ok ret); cbn [negb andb].
    + unfold cache_set.
      match goal with |- context [foldM _ _ _ ?st] =>
        destruct (IH st) as (c' & Hc') end.
      exists c'. exact Hc'.
    + destruct (bool_decide (bulk_error ret = Some "conflict"));
        cbn [negb].
      * unfold mret, M_ret. apply IH.
      * unfold throw. exists (hashCaches s). now destruct s.
Qed.

(** C4.  In the answer of the chunk upload a result with
    [error == "conflict"] counts as success: the loop goes on and nothing
    changes.  A result that is neither [ok] nor a conflict makes [put]
    throw, and [put] has then sent no [PUT]: the metadata document is not
    written.  Without such a result [put] goes on to the metadata
    document. *)
Theorem leaf_upload_policy :
  (∀ chunks ret s,
     bulk_ok ret = false → bulk_error ret = Some "conflict" →
     put_result E chunks tt ret s = (Ok tt, s)) ∧
  (∀ path data info type s acc s1 apiRet s2,
     put_chunks E options (pieces E options path data) s = (Ok acc, s1) →
     put_upload E options acc.1 s1 = (Ok apiRet, s2) →
     if existsb fatal apiRet then
       ∃ message s' new,
         put E options path data info type s = (Throw message, s') ∧
         world s' = world s2 ∧
         requests s' = requests s ++ new ∧
         forallb not_put new = true
     else
       ∃ c',
         put E options path data info type s
         = put_meta E options
             (path2id_base E path (obfuscatePassphrase options)) path
             acc.2 info type
             (mk (world s2) c' (since s2) (requests s2))).
Proof.
  split; [apply put_result_conflict|].
  intros path data info type s acc s1 apiRet s2 Hchunks Hupload.
  destruct (put_results_run acc.1 apiRet s2) as (c' & Hr).
  assert (Hput :
    put E options path data info type s
    = match upload_outcome apiRet with
      | Ok _ =>
          put_meta E options
            (path2id_base E path (obfuscatePassphrase options)) path
            acc.2 info type (mk (world s2) c' (since s2) (requests s2))
      | Throw e => (Throw e, mk (world s2) c' (since s2) (requests s2))
      end).
  { unfold put, path2id.
    unfold mbind at 1, M_bind at 1, mret at 1, M_ret at 1.
    unfold mbind at 1, M_bind at 1. fold (pieces E options path data). rewrite Hchunks.
    unfold mbind at 1, M_bind at 1. rewrite Hupload.
    unfold mbind at 1, M_bind at 1. rewrite Hr.
    now destruct (upload_outcome apiRet). }
  unfold upload_outcome in Hput.
  destruct (existsb fatal apiRet) eqn:Hex.
  - destruct (List.find fatal apiRet) as [ret|] eqn:Hfind.
    + apply only_put_chunks in Hchunks as (n1 & E1 & Hn1).
      apply only_put_upload in Hupload as (n2 & E2 & Hn2).
      eexists _, _, (n1 ++ n2). split; [exact Hput|].
      simpl. rewrite E2, E1, app_assoc, forallb_app, Hn1, Hn2.
      now repeat split.
    + apply existsb_exists in Hex as (ret & Hin & Hfatal).
      eapply find_none in Hfind; [|exact Hin]. congruence.
  - destruct (List.find fatal apiRet) as [ret|] eqn:Hfind.
    + apply find_some in Hfind as [Hin Hfatal].
      assert (existsb fatal apiRet = true)
        by (apply existsb_exists; eauto).
      congruence.
    + exists c'. exact Hput.
Qed.
End UploadPolicy.

(** A server that refuses the chunks: [put] throws. *)
Lemma leaf_upload_policy_witness :
  throws (put Couch.readonly (Couch.options None None) "a.md" ["x"]
            (FileInfo.mk 1 2 1) plain)
    (Couch.fresh Couch.empty).
Proof.
  pose (E := Couch.readonly). pose (o := Couch.options None None).
  pose (s := Couch.fresh Couch.empty).
  pose (r1 := put_chunks E o (pieces E o "a.md" ["x"]) s).
  pose (acc := match r1.1 with Ok a => a | Throw _ => ([], []) end).
  pose (r2 := put_upload E o acc.1 r1.2).
  pose (apiRet := match r2.1 with Ok a => a | Throw _ => [] end).
  assert (H1 : put_chunks E o (pieces E o "a.md" ["x"]) s = (Ok acc, r1.2))
    by (vm_compute; reflexivity).
  assert (H2 : put_upload E o acc.1 r1.2 = (Ok apiRet, r2.2))
    by (vm_compute; reflexivity).
  pose proof (proj2 (leaf_upload_policy E o) "a.md" ["x"] (FileInfo.mk 1 2 1)
                plain s acc r1.2 apiRet r2.2 H1 H2) as H.
  assert (Hf : existsb fatal apiRet = true) by (vm_compute; reflexivity).
  rewrite Hf in H. destruct H as (message & s' & new & H & _).
  exists message, s'. exact H.
Defined.

(** ** delete *)

Section Delete.
Variable E : Env.
Variable options : Options.t.

Import State.

Abbreviation id_of path := (path2id_base E path (obfuscatePassphrase options)).


Lemma getById_absent id s w1 metaOnly :
  fetch E (GetDoc id) (world s) = (Ok DocOther, w1) →
  getById E options id metaOnly s
  = (Ok None, mk w1 (hashCaches s) (since s) (requests s ++ [GetDoc id])).
Proof.
  intros H. unfold getById, mbind, M_bind, _fetchJson. now rewrite H.
Qed.

Lemma delete_unfold path s :
  delete E options path s
  = match getById E options (id_of path) true s with
    | (Ok None, s1) => (Ok true, s1)
    | (Ok (Some oldData), s1) =>
        if negb (truthy (Entry._rev oldData)) then (Ok true, s1)
        else if bool_decide (Entry.deleted oldData = Some true)
        then (Ok true, s1)
        else
          let '(now, w2) := Date_now E (world s1) in
          match encryptDocumentPath E options (tombstone oldData now)
                  (mk w2 (hashCaches s1) (since s1) (requests s1)) with
          | (Ok newData, s3) =>
              match fetch E (PutDoc (id_of path) newData) (world s3) with
              | (Ok ret, w4) =>
                  (Ok (put_ok ret),
                   mk w4 (hashCaches s3) (since s3)
                      (requests s3 ++ [PutDoc (id_of path) newData]))
              | (Throw m, w4) =>
                  (Throw m,
                   mk w4 (hashCaches s3) (since s3)
                      (requests s3 ++ [PutDoc (id_of path) newData]))
              end
          | (Throw m, s3) => (Throw m, s3)
          end
    | (Throw m, s1) => (Throw m, s1)
    end.
Proof.
  unfold delete, path2id.
  unfold mbind at 1, M_bind at 1, mret at 1, M_ret at 1.
  unfold mbind at 1, M_bind at 1.
  destruct (getById E options (id_of path) true s) as [[[oldData|]|m] s1];
    try reflexivity.
  destruct (negb (truthy (Entry._rev oldData))); [reflexivity|].
  destruct (bool_decide (Entry.deleted oldData = Some true)); [reflexivity|].
  unfold mbind at 1, M_bind at 1, lift_world.
  destruct (Date_now E (world s1)) as [now w2].
  unfold mbind at 1, M_bind at 1.
  destruct (encryptDocumentPath E options _ _) as [[newData|m] s3];
    [|reflexivity].
  unfold mbind, M_bind, _fetchJson, mret, M_ret.
  now destruct (fetch E (PutDoc _ newData) (world s3)) as [[ret|m] w4].
Qed.


Lemma getById_present id e w1 p s :
  fetch E (GetDoc id) (world s) = (Ok (DocEntry e), w1) →
  stored_path E options e = Ok p →
  getById E options id true s
  = (Ok (Some (Entry.with_path p e)),
     mk w1 (hashCaches s) (since s) (requests s ++ [GetDoc id])).
Proof.
  intros Hget Hpath. unfold getById, mbind, M_bind, _fetchJson.
  rewrite Hget. unfold decryptDocumentPath, mbind, M_bind.
  unfold stored_path in Hpath.
  destruct (truthy (passphrase options)).
  - unfold lift_result. now rewrite Hpath.
  - unfold mret, M_ret. now inversion Hpath.
Qed.

Lemma encryptDocumentPath_sealed e p' w s :
  sealed_path E options (Entry.path e) (world s) = (Ok p', w) →
  encryptDocumentPath E options e s
  = (Ok (Entry.with_path p' e), mk w (hashCaches s) (since s) (requests s)).
Proof.
  unfold sealed_path, encryptDocumentPath, mbind, M_bind.
  destruct (truthy (obfuscatePassphrase options)).
  - unfold lift_world. intros ->. reflexivity.
  - unfold mret, M_ret. intros [= <- <-]. now destruct s.
Qed.

(** X18.  [delete] asks the remote for the entry of the path.  When the
    remote has none, and when the entry it has reads back and is already
    deleted or has no revision, [delete] returns [true] after that one
    [GET].  When the entry reads back, has a revision and is not deleted,
    [delete] sends one [PUT] of an entry with [deleted = true],
    [size = 0], [children = []], the [ctime], [_rev], [_id] and [type]
    found, [mtime] the current time and the path found, encrypted anew,
    and returns whether the remote acknowledged it.  An entry reads back
    when no passphrase is set or its path decrypts under the
    passphrase. *)
Theorem delete_idempotent_tombstone (path : string) (s : State.t (World E)) :
  let asked w1 :=
    mk w1 (hashCaches s) (since s) (requests s ++ [GetDoc (id_of path)]) in
  (∀ w1,
     fetch E (GetDoc (id_of path)) (world s) = (Ok DocOther, w1) →
     delete E options path s = (Ok true, asked w1)) ∧
  (∀ e w1 p,
     fetch E (GetDoc (id_of path)) (world s) = (Ok (DocEntry e), w1) →
     stored_path E options e = Ok p →
     Entry.deleted e = Some true ∨ truthy (Entry._rev e) = false →
     delete E options path s = (Ok true, asked w1)) ∧
  (∀ e w1 p now w2 p' w3 r w4,
     fetch E (GetDoc (id_of path)) (world s) = (Ok (DocEntry e), w1) →
     stored_path E options e = Ok p →
     truthy (Entry._rev e) = true →
     Entry.deleted e ≠ Some true →
     Date_now E w1 = (now, w2) →
     sealed_path E options p w2 = (Ok p', w3) →
     let newData :=
       Entry.mk (Entry._id e) (Entry._rev e) None None p' [] (Entry.ctime e)
         now 0 (Entry.type e) (Some true)
         (Some (default [] (Entry.data e))) in
     fetch E (PutDoc (id_of path) newData) w3 = (r, w4) →
     delete E options path s
     = (match r with Ok ret => Ok (put_ok ret) | Throw m => Throw m end,
        mk w4 (hashCaches s) (since s)
           (requests s ++ [GetDoc (id_of path); PutDoc (id_of path) newData]))).
Proof.
  intros asked. split; [|split].
  - intros w1 H. rewrite delete_unfold.
    now rewrite (getById_absent _ _ _ _ H).
  - intros e w1 p Hget Hpath Hdone.
    rewrite delete_unfold, (getById_present _ _ _ _ _ Hget Hpath).
    cbn [Entry.with_path Entry._rev Entry.deleted].
    destruct Hdone as [Hdel|Hrev].
    + rewrite Hdel, bool_decide_true by reflexivity.
      now destruct (negb _).
    + now rewrite Hrev.
  - intros e w1 p now w2 p' w3 r w4 Hget Hpath Hrev Hdel Hnow Hseal newData
      Hput.
    rewrite delete_unfold, (getById_present _ _ _ _ _ Hget Hpath).
    cbn [Entry.with_path Entry._rev Entry.deleted world].
    rewrite Hrev, bool_decide_false by assumption. cbn [negb].
    rewrite Hnow.
    rewrite (encryptDocumentPath_sealed _ p' w3)
      by (cbn [tombstone Entry.path Entry.with_path world]; exact Hseal).
    cbn [world hashCaches since requests].
    change (Entry.with_path p' (tombstone (Entry.with_path p e) now))
      with newData.
    rewrite Hput, <- app_assoc. now destruct r.
Qed.
End Delete.

(** The file written in the first scenario is deleted: the [PUT] carries
    its tombstone, which the server takes. *)
Lemma delete_idempotent_tombstone_witness :
  let options := Couch.options None None in
  let s := (written options).2 in
  let newData :=
    Entry.mk "a/b.md" (Some "1-r") None None "a/b.md" [] 1 1000 0 plain
      (Some true) (Some []) in
  ∃ w4,
    delete Couch.env options "a/b.md" s
    = (Ok true,
       State.mk w4 (State.hashCaches s) (State.since s)
         (State.requests s ++ [GetDoc "a/b.md"; PutDoc "a/b.md" newData])) ∧
    Couch.get_doc "a/b.md" w4
    = DocEntry (Entry.with_rev (Some "2-r") newData).
Proof.
  intros options s newData.
  pose (e := Entry.mk "a/b.md" (Some "1-r") None None "a/b.md"
               ["h:2ge3xkc6uh"; "h:3b9jp6mrj"] 1 2 13 plain None None).
  pose (w1 := State.world s).
  pose (w2 := Couch.mk (Couch.docs w1) (Couch.changes w1) 1001).
  pose (answer := fetch Couch.env (PutDoc "a/b.md" newData) w2).
  exists answer.2. split.
  - apply (proj2 (proj2 (delete_idempotent_tombstone Couch.env options
                           "a/b.md" s))
             e w1 "a/b.md" 1000 w2 "a/b.md" w2
             (Ok {| put_ok := true; put_error := None |}) answer.2).
    + vm_compute. reflexivity.
    + reflexivity.
    + reflexivity.
    + discriminate.
    + vm_compute. reflexivity.
    + vm_compute. reflexivity.
    + vm_compute. reflexivity.
  - vm_compute. reflexivity.
Defined.

(** C5 at the input [delete("a/b.md")] with [passphrase = "p"] and no
    [obfuscatePassphrase], after [put("a/b.md", ["Hello, ", "world!"],
    ...)] on an empty server: the server holds the entry, and [delete]
    throws after its [GET], having written nothing; so does [delete] of
    the path [t.md], which the server holds deleted.  [delete] starts
    with [getById], which decrypts the stored path under the passphrase,
    and [put] and [delete] store the path as it is. *)
Theorem delete_breaks_on_path_key :
  let options := Couch.options (Some "p") None in
  (written options).1 = Ok true ∧
  Couch.get_doc "a/b.md" (State.world (written options).2)
  = DocEntry
      (Entry.mk "a/b.md" (Some "1-r") None None "a/b.md"
         ["h:+1tjkmyzxfyto"; "h:+2gfpuva2wyq"] 1 2 13 plain None None) ∧
  delete Couch.env options "a/b.md" (Couch.fresh (State.world (written options).2))
  = (Throw "Encrypted data corrupted!",
     State.mk (State.world (written options).2)
       (State.hashCaches (Couch.fresh Couch.empty)) None [GetDoc "a/b.md"]) ∧
  (∃ e,
     Couch.get_doc "t.md" (State.world deleted_once) = DocEntry e ∧
     Entry.deleted e = Some true) ∧
  (delete Couch.env options "t.md" (Couch.fresh (State.world deleted_once))).1
  = Throw "Encrypted data corrupted!".
Proof. vm_compute. repeat split. eexists. split; reflexivity. Qed.

(** ** Leaf ids *)

Lemma digit36_not_plus d : (d < 36)%N → digit36 d ≠ "+"%char.
Proof.
  intros Hd Heq. apply (f_equal N_of_ascii) in Heq. unfold digit36 in Heq.
  destruct (N.ltb_spec d 10).
  - rewrite N_ascii_embedding in Heq by lia. simpl in Heq. lia.
  - rewrite N_ascii_embedding in Heq by lia. simpl in Heq. lia.
Qed.

(** The text of a number starts with one of its digits. *)
Lemma render_head base digit fuel : ∀ n acc,
  (0 < base)%N → fuel ≠ O →
  ∃ d rest, (d < base)%N ∧ render base digit fuel n acc = String (digit d) rest.
Proof.
  induction fuel as [|fuel IH]; intros n acc Hbase Hfuel; [contradiction|].
  simpl. destruct (n / base =? 0)%N.
  - exists (n mod base)%N, acc. split; [|reflexivity].
    apply N.mod_upper_bound. lia.
  - destruct fuel as [|fuel'].
    + exists (n mod base)%N, acc. split; [|reflexivity].
      apply N.mod_upper_bound. lia.
    + apply IH; [assumption|discriminate].
Qed.

Lemma toString36_head n :
  ∃ d rest, (d < 36)%N ∧ toString36 n = String (digit36 d) rest.
Proof. apply render_head; [lia|discriminate]. Qed.

Lemma value_append base val s t : ∀ acc,
  value base val (s +:+ t) acc = value base val t (value base val s acc).
Proof.
  induction s as [|c s IH]; intros acc; [reflexivity|].
  rewrite append_cons. simpl. apply IH.
Qed.

(** With fuel for all its digits, the text of [n] denotes [n]. *)
Lemma render_value base digit val fuel : ∀ n acc,
  (1 < base)%N → (∀ d, (d < base)%N → val (digit d) = d) →
  (n < base ^ N.of_nat fuel)%N → fuel ≠ O →
  ∃ ds, render base digit fuel n acc = ds +:+ acc ∧ value base val ds 0%N = n.
Proof.
  induction fuel as [|fuel IH]; intros n acc Hbase Hval Hn Hfuel;
    [contradiction|].
  cbn [render].
  assert (Hmod : (n mod base < base)%N) by (apply N.mod_upper_bound; lia).
  destruct (N.eqb_spec (n / base) 0) as [Hq|Hq].
  - exists (String (digit (n mod base)%N) ""). split; [reflexivity|].
    simpl. rewrite Hval by assumption.
    pose proof (N.div_mod n base). nia.
  - assert (Hlt : (n / base < base ^ N.of_nat fuel)%N).
    { apply N.Div0.div_lt_upper_bound.
      rewrite Nat2N.inj_succ, N.pow_succ_r' in Hn. lia. }
    destruct fuel as [|fuel'].
    { change (N.of_nat 0) with 0%N in Hlt. rewrite N.pow_0_r in Hlt.
      exfalso. apply Hq. apply N.lt_1_r. exact Hlt. }
    destruct (IH (n / base)%N (String (digit (n mod base)%N) acc)
                Hbase Hval Hlt) as (ds & Hds & Hv); [discriminate|].
    exists (ds +:+ String (digit (n mod base)%N) ""). split.
    + rewrite Hds, append_assoc. reflexivity.
    + rewrite value_append, Hv. simpl. rewrite Hval by assumption.
      pose proof (N.div_mod n base). nia.
Qed.

Lemma enough_digits base n :
  (2 ≤ base)%N → (n < base ^ N.of_nat (S (N.to_nat (N.log2 n))))%N.
Proof.
  intros Hbase. rewrite Nat2N.inj_succ, N2Nat.id.
  apply N.lt_le_trans with (2 ^ N.succ (N.log2 n))%N.
  - destruct n as [|p]; [reflexivity|]. apply N.log2_spec. lia.
  - apply N.pow_le_mono_l. assumption.
Qed.

Lemma val36_digit36 d : (d < 36)%N → val36 (digit36 d) = d.
Proof.
  intros Hd. unfold val36, digit36. destruct (N.ltb_spec d 10).
  - rewrite N_ascii_embedding by lia.
    destruct (N.ltb_spec (48 + d) 58); lia.
  - rewrite N_ascii_embedding by lia.
    destruct (N.ltb_spec (87 + d) 58); lia.
Qed.

(** [toString36] writes its argument in base 36, and [toString10] in base
    10. *)
Lemma toString36_value n : value 36 val36 (toString36 n) 0%N = n.
Proof.
  destruct (render_value 36 digit36 val36 (S (N.to_nat (N.log2 n))) n "")
    as (ds & Hds & Hv);
    [lia|apply val36_digit36|apply enough_digits; lia|discriminate|].
  unfold toString36. now rewrite Hds, append_empty_r.
Qed.

Lemma toString10_value n : value 10 val10 (toString10 n) 0%N = n.
Proof.
  destruct (render_value 10 digit10 val10 (S (N.to_nat (N.log2 n))) n "")
    as (ds & Hds & Hv);
    [lia| |apply enough_digits; lia|discriminate|].
  - intros d Hd. unfold val10, digit10. rewrite N_ascii_embedding by lia. lia.
  - unfold toString10. now rewrite Hds, append_empty_r.
Qed.

Example toString36_35 : toString36 35 = "z".
Proof. reflexivity. Qed.

Example toString36_1295 : toString36 1296 = "100".
Proof. reflexivity. Qed.

Example toString10_13 : toString10 13 = "13".
Proof. reflexivity. Qed.

Section LeafId.
Variable E : Env.
Variable options : Options.t.

Import State.

Abbreviation plain_hash piece :=
  (xxhash64 E (piece +:+ "-" +:+ toString10 (js_length piece))).
Abbreviation keyed_hash piece :=
  (xxhash64 E (piece +:+ "-" +:+ template (passphrase options) +:+ "-"
               +:+ toString10 (js_length piece))).

Lemma leafId_unset piece :
  truthy (passphrase options) = false →
  leafId E options piece = "h:" +:+ toString36 (plain_hash piece).
Proof. intros H. unfold leafId, hashedPiece. now rewrite H. Qed.

Lemma leafId_set piece :
  truthy (passphrase options) = true →
  leafId E options piece = "h:+" +:+ toString36 (keyed_hash piece).
Proof. intros H. unfold leafId, hashedPiece. now rewrite H. Qed.

Lemma leafId_prefix piece :
  startsWith (leafId E options piece) "h:" = true ∧
  startsWith (leafId E options piece) "h:+" = truthy (passphrase options).
Proof.
  destruct (truthy (passphrase options)) eqn:H.
  - rewrite leafId_set by assumption. rewrite !append_cons, append_empty.
    split; reflexivity.
  - rewrite leafId_unset by assumption.
    destruct (toString36_head (plain_hash piece)) as (d & rest & Hd & ->).
    rewrite !append_cons, append_empty. cbn [startsWith].
    rewrite !Ascii.eqb_refl. split; [reflexivity|]. cbn [andb].
    destruct (Ascii.eqb_spec "+" (digit36 d)) as [Heq|Hne]; [|reflexivity].
    symmetry in Heq. now apply digit36_not_plus in Heq.
Qed.

(** When the cache has no id for the piece, [put] gives it its leaf id. *)
Lemma put_piece_miss acc piece s :
  LRUCache.revPeek (Some piece) (hashCaches s) = None →
  put_piece E options acc piece s
  = (Ok (Obj.set (leafId E options piece) piece acc.1,
         acc.2 ++ [leafId E options piece]), s).
Proof.
  intros H. unfold put_piece, mbind, M_bind, cache_revGet.
  rewrite (revGet_miss _ _ H). simpl. now destruct s.
Qed.

(** The lookup by plaintext finds an id, or none, and at most moves an
    entry of the cache. *)
Lemma put_piece_cases acc piece s :
  ∃ c',
    put_piece E options acc piece s
    = (let id :=
         if truthy (mjoin (LRUCache.revPeek (Some piece) (hashCaches s)))
         then template (mjoin (LRUCache.revPeek (Some piece) (hashCaches s)))
         else leafId E options piece in
       Ok (Obj.set id piece acc.1, acc.2 ++ [id]),
       mk (world s) c' (since s) (requests s)).
Proof.
  unfold put_piece, mbind, M_bind, cache_revGet, LRUCache.revGet,
    LRUCache.revPeek.
  destruct (LRUCache.find_value (Some piece) (LRUCache.entries (hashCaches s)))
    as [k|]; cbn [fst snd].
  - eexists. destruct (truthy (mjoin (Some k))); reflexivity.
  - exists (hashCaches s). cbn [mjoin truthy]. now destruct s.
Qed.

(** C2, amended.  For a piece that the cache does not map back to an id,
    or maps back to [undefined] or to the empty id, the leaf id that [put]
    assigns is ["h:"] followed by the hash, in base 36, of the piece, ["-"]
    and its length when no passphrase is set, and ["h:+"] followed by the
    hash of the piece, ["-"], the passphrase, ["-"] and the length when one
    is set.  An id derived this way starts with ["h:"], and with ["h:+"]
    exactly when a passphrase is set.  For a piece that the cache maps
    back to an id that is not empty, [put] takes that id, whatever it
    is. *)
Theorem leaf_id_derivation (piece : string) :
  (∀ acc s,
     LRUCache.revPeek (Some piece) (hashCaches s) = None →
     put_piece E options acc piece s
     = (Ok (Obj.set (leafId E options piece) piece acc.1,
            acc.2 ++ [leafId E options piece]), s)) ∧
  (truthy (passphrase options) = false →
     leafId E options piece = "h:" +:+ toString36 (plain_hash piece)) ∧
  (truthy (passphrase options) = true →
     leafId E options piece = "h:+" +:+ toString36 (keyed_hash piece)) ∧
  startsWith (leafId E options piece) "h:" = true ∧
  startsWith (leafId E options piece) "h:+" = truthy (passphrase options) ∧
  (∀ acc s,
     truthy (mjoin (LRUCache.revPeek (Some piece) (hashCaches s))) = false →
     ∃ c',
       put_piece E options acc piece s
       = (Ok (Obj.set (leafId E options piece) piece acc.1,
              acc.2 ++ [leafId E options piece]),
          mk (world s) c' (since s) (requests s))) ∧
  (∀ acc s id,
     LRUCache.revPeek (Some piece) (hashCaches s) = Some (Some id) →
     id ≠ "" →
     ∃ c',
       put_piece E options acc piece s
       = (Ok (Obj.set id piece acc.1, acc.2 ++ [id]),
          mk (world s) c' (since s) (requests s))).
Proof.
  split; [intros acc s; apply put_piece_miss|].
  split; [apply leafId_unset|].
  split; [apply leafId_set|].
  split; [apply leafId_prefix|].
  split; [apply leafId_prefix|].
  split.
  - intros acc s Hfalsy.
    destruct (put_piece_cases acc piece s) as (c' & Hrun).
    exists c'. rewrite Hrun, Hfalsy. reflexivity.
  - intros acc s id Hhit Hid.
    destruct (put_piece_cases acc piece s) as (c' & Hrun).
    assert (Ht : truthy (Some id) = true).
    { cbn [truthy]. now destruct (String.eqb_spec id ""). }
    exists c'. rewrite Hrun, Hhit.
    change (mjoin (Some (Some id))) with (Some id). now rewrite Ht.
Qed.
End LeafId.

(** A first piece, on a new instance. *)
Lemma leaf_id_derivation_witness :
  put_piece Couch.env (Couch.options None None) ([], []) "x"
    (Couch.fresh Couch.empty)
  = (Ok ([(leafId Couch.env (Couch.options None None) "x", "x")],
         [leafId Couch.env (Couch.options None None) "x"]),
     Couch.fresh Couch.empty).
Proof.
  apply (proj1 (leaf_id_derivation Couch.env (Couch.options None None) "x")).
  reflexivity.
Defined.

(** C2, as stated, fails: after reading [a.md], [put] of the piece ["x"]
    names it [h:1a2b3c], the id found in the cache, and not the id derived
    from its hash. *)
Lemma leaf_id_counterexample :
  (put_piece Couch.env (Couch.options None None) ([], []) "x" after_reading).1
  = Ok ([("h:1a2b3c", "x")], ["h:1a2b3c"]) ∧
  truthy (passphrase (Couch.options None None)) = false ∧
  "h:1a2b3c"
  ≠ "h:" +:+ toString36 (xxhash64 Couch.env ("x" +:+ "-" +:+ toString10 (js_length "x"))).
Proof. vm_compute. repeat split. discriminate. Qed.

(** A cache that maps the piece ["x"] back to the empty id: [put] derives
    the id all the same. *)
Example empty_cached_id_is_not_taken :
  let s := State.mk Couch.empty
             (LRUCache.mk [(Some "", Some "x")] 300 50000000%N) None [] in
  LRUCache.revPeek (Some "x") (State.hashCaches s) = Some (Some "") ∧
  (put_piece Couch.env (Couch.options None None) ([], []) "x" s).1
  = Ok ([(leafId Couch.env (Couch.options None None) "x", "x")],
        [leafId Couch.env (Couch.options None None) "x"]).
Proof. vm_compute. split; reflexivity. Qed.

(** ** The cache after an upload and after a fetch *)

Section CachePopulation.
Variable E : Env.
Variable options : Options.t.

Import State.

(** A fetched leaf is in the cache once its row is taken, when one entry
    of its length fits the cache. *)
Lemma collect_row_fills_cache ret v doc dataSrc data s :
  row_error v = false → row_doc v = Some doc →
  doc_type doc = Some "leaf" → doc_data doc = Some dataSrc →
  (if truthy (passphrase options)
   then decrypt E dataSrc (template (passphrase options))
          (useDynamicIterationCount options)
   else Ok dataSrc) = Ok data →
  (1 ≤ LRUCache.maxCache (hashCaches s))%nat →
  (weigh (Some data) ≤ LRUCache.maxCachedLength (hashCaches s))%N →
  ∃ s',
    collect_row E options false ret v s
    = (Ok (Obj.set (row_key v) (IsStr data) ret), s') ∧
    cached (hashCaches s') (row_key v) = Some data.
Proof.
  intros Herr Hdoc Htype Hdata Hplain Hcount Hlen.
  unfold collect_row. rewrite Herr, Hdoc, Htype, Hdata.
  rewrite bool_decide_true by reflexivity. cbn [negb].
  unfold mbind, M_bind.
  destruct (truthy (passphrase options)).
  - unfold lift_result. rewrite Hplain. unfold cache_set, mret, M_ret.
    eexists. split; [reflexivity|]. unfold cached. cbn [hashCaches].
    now rewrite peek_set.
  - unfold mret, M_ret. inversion Hplain; subst. unfold cache_set.
    eexists. split; [reflexivity|]. unfold cached. cbn [hashCaches].
    now rewrite peek_set.
Qed.

(** A result [{ok, id, rev}] has no [key]: the loop of [put] sets the
    cache at [undefined], and an id that was not in the cache is not in it
    afterwards. *)
Lemma put_result_leaves_cache chunks ret id s :
  bulk_ok ret = true → bulk_key ret = None →
  LRUCache.peek (Some id) (hashCaches s) = None →
  ∃ s',
    put_result E chunks tt ret s = (Ok tt, s') ∧
    cached (hashCaches s') id = None.
Proof.
  intros Hok Hkey Hpeek. unfold put_result. rewrite Hok, Hkey.
  unfold cache_set. eexists. split; [reflexivity|].
  unfold cached. cbn [hashCaches]. now rewrite peek_set_other.
Qed.
End CachePopulation.

(** C9 at the input [put("a/b.md", ["Hello, ", "world!"], ...)] on an
    empty server: both chunks are uploaded and acknowledged, [put] returns
    [true], and the cache holds neither of them; its one entry is
    [undefined]. *)
Theorem upload_does_not_fill_cache :
  let options := Couch.options None None in
  let s := (written options).2 in
  (written options).1 = Ok true ∧
  State.requests s
  = [ PostAllDocs false ["h:2ge3xkc6uh"; "h:3b9jp6mrj"];
      PostBulkDocs [Leaf.mk "h:2ge3xkc6uh" "Hello, ";
                    Leaf.mk "h:3b9jp6mrj" "world!"];
      GetDoc "a/b.md";
      PutDoc "a/b.md"
        (Entry.mk "a/b.md" None None None "a/b.md"
           ["h:2ge3xkc6uh"; "h:3b9jp6mrj"] 1 2 13 plain None None) ] ∧
  Couch.lookup "h:2ge3xkc6uh" (Couch.docs (State.world s))
  = Some (Couch.SLeaf 1 "Hello, ") ∧
  Couch.lookup "h:3b9jp6mrj" (Couch.docs (State.world s))
  = Some (Couch.SLeaf 1 "world!") ∧
  cached (State.hashCaches s) "h:2ge3xkc6uh" = None ∧
  cached (State.hashCaches s) "h:3b9jp6mrj" = None ∧
  LRUCache.entries (State.hashCaches s) = [(None, None)].
Proof. vm_compute. repeat split. Qed.

(** The same chunks, once fetched, are in the cache. *)
Example fetch_fills_cache :
  let options := Couch.options None None in
  let s := (get Couch.env options "a/b.md" false (written options).2).2 in
  cached (State.hashCaches s) "h:2ge3xkc6uh" = Some "Hello, " ∧
  cached (State.hashCaches s) "h:3b9jp6mrj" = Some "world!".
Proof. vm_compute. split; reflexivity. Qed.

(** ** Writing, then reading *)

(** C1 at the input [put("a/b.md", ["Hello, ", "world!"], {ctime: 1,
    mtime: 2, size: 13})] with [passphrase = "p"] and no
    [obfuscatePassphrase], on an empty server: [put] returns [true], having
    stored the path as it is, and [get] of the same path throws, since it
    decrypts the stored path under the passphrase. *)
Theorem round_trip_breaks_on_path_key :
  let options := Couch.options (Some "p") None in
  (written options).1 = Ok true ∧
  Couch.get_doc "a/b.md" (State.world (written options).2)
  = DocEntry
      (Entry.mk "a/b.md" (Some "1-r") None None "a/b.md"
         ["h:+1tjkmyzxfyto"; "h:+2gfpuva2wyq"] 1 2 13 plain None None) ∧
  (get Couch.env options "a/b.md" false (written options).2).1
  = Throw "Encrypted data corrupted!".
Proof. vm_compute. repeat split. Qed.

(** With no passphrase, and with the same passphrase in both options, the
    same write reads back. *)
Example round_trip_plain :
  let options := Couch.options None None in
  ∃ e,
    (get Couch.env options "a/b.md" false (written options).2).1 = Ok (Some e) ∧
    joined e = "Hello, world!" ∧
    Entry.ctime e = 1 ∧ Entry.mtime e = 2 ∧ Entry.size e = 13.
Proof. eexists. vm_compute. repeat split. Qed.

Example round_trip_encrypted :
  let options := Couch.options (Some "p") (Some "p") in
  ∃ e,
    (get Couch.env options "a/b.md" false (written options).2).1 = Ok (Some e) ∧
    joined e = "Hello, world!" ∧ Entry.path e = "a/b.md" ∧
    Entry.ctime e = 1 ∧ Entry.mtime e = 2 ∧ Entry.size e = 13.
Proof. eexists. vm_compute. repeat split. Qed.

(** ** Line framing *)

Lemma in_range_disjoint lo hi lo' hi' c :
  (hi < lo' ∨ hi' < lo)%N → in_range lo hi c = true →
  in_range lo' hi' c = false.
Proof.
  unfold in_range. intros Hlt [H1 H2]%andb_true_iff.
  apply N.leb_le in H1, H2. apply andb_false_iff.
  destruct Hlt; [left|right]; apply N.leb_gt; lia.
Qed.

Lemma utf8_decode_wf s : utf8_wf s → utf8_decode s = s.
Proof.
  induction 1 as [|c s Hc _ IH|c c1 s Hc Hc1 _ IH
                  |c c1 c2 s Hc Hc1 Hc2 _ IH
                  |c c1 c2 c3 s Hc Hc1 Hc2 Hc3 _ IH].
  - reflexivity.
  - cbn [utf8_decode]. now rewrite Hc, IH.
  - cbn [utf8_decode].
    rewrite (in_range_disjoint 194 223 0 127 c) by (assumption || lia).
    now rewrite Hc, Hc1, IH.
  - cbn [utf8_decode].
    rewrite (in_range_disjoint 224 239 0 127 c) by (assumption || lia).
    rewrite (in_range_disjoint 224 239 194 223 c) by (assumption || lia).
    now rewrite Hc, Hc1, Hc2, IH.
  - cbn [utf8_decode].
    rewrite (in_range_disjoint 240 244 0 127 c) by (assumption || lia).
    rewrite (in_range_disjoint 240 244 194 223 c) by (assumption || lia).
    rewrite (in_range_disjoint 240 244 224 239 c) by (assumption || lia).
    now rewrite Hc, Hc1, Hc2, Hc3, IH.
Qed.

Lemma strip_BOM_none s : startsWith s BOM = false → strip_BOM s = s.
Proof. unfold strip_BOM. now intros ->. Qed.

Lemma decode_whole_characters chunk :
  whole_characters chunk → TextDecoder_decode chunk = chunk.
Proof.
  intros [Hwf Hbom]. unfold TextDecoder_decode.
  rewrite strip_BOM_none by assumption. now apply utf8_decode_wf.
Qed.

Lemma split_lines_nonempty t : split_lines t ≠ [].
Proof.
  destruct t as [|c t]; simpl; [discriminate|].
  destruct (Ascii.eqb c "010"); [discriminate|].
  destruct (split_lines t); discriminate.
Qed.

Lemma split_lines_no_newline t : has_newline t = false → split_lines t = [t].
Proof.
  induction t as [|c t IH]; simpl; [reflexivity|].
  unfold newline. destruct (Ascii.eqb c "010"); [discriminate|].
  simpl. intros H. now rewrite IH.
Qed.

Lemma split_lines_pieces t :
  Forall (λ l, has_newline l = false) (split_lines t).
Proof.
  induction t as [|c t IH]; simpl.
  - now constructor.
  - destruct (Ascii.eqb c "010") eqn:Hc; [now constructor|].
    destruct (split_lines t) as [|l ls].
    + constructor; [|constructor]. simpl. unfold newline. now rewrite Hc.
    + inversion IH; subst. constructor; [|assumption].
      simpl. unfold newline. now rewrite Hc.
Qed.

Lemma split_prepend part x :
  has_newline part = false →
  split_lines (part +:+ x)
  = match split_lines x with
    | l :: ls => (part +:+ l) :: ls
    | [] => [part]
    end.
Proof.
  induction part as [|c part IH]; cbn [has_newline].
  - intros _. rewrite append_empty.
    destruct (split_lines x) eqn:H; [now apply split_lines_nonempty in H|].
    now rewrite append_empty.
  - unfold newline. destruct (Ascii.eqb c "010") eqn:Hc; [discriminate|].
    cbn [orb]. intros H. rewrite append_cons. cbn [split_lines].
    rewrite Hc, IH by assumption.
    destruct (split_lines x); [reflexivity|now rewrite append_cons].
Qed.

Lemma split_lines_app a b :
  split_lines (a +:+ b)
  = removelast (split_lines a)
    ++ split_lines (List.last (split_lines a) "" +:+ b).
Proof.
  induction a as [|c a IH].
  - now rewrite append_empty.
  - rewrite append_cons. cbn [split_lines].
    pose proof (split_lines_nonempty a) as Hne.
    destruct (Ascii.eqb c "010") eqn:Hc.
    + rewrite IH. destruct (split_lines a) as [|x xs]; [contradiction|].
      reflexivity.
    + rewrite IH. destruct (split_lines a) as [|x [|y ys]]; [contradiction| |].
      * cbn [removelast List.last app]. rewrite append_cons.
        cbn [split_lines]. now rewrite Hc.
      * reflexivity.
Qed.

Lemma has_newline_app a b :
  has_newline (a +:+ b) = has_newline a || has_newline b.
Proof.
  induction a as [|c a IH]; [reflexivity|].
  rewrite append_cons. simpl. now rewrite IH, orb_assoc.
Qed.

Lemma last_cons_default {A} (x d : A) l : List.last (x :: l) d = List.last l x.
Proof.
  revert x d. induction l as [|y l IH]; intros x d; [reflexivity|].
  change (List.last (x :: y :: l) d) with (List.last (y :: l) d).
  rewrite IH. symmetry. apply IH.
Qed.

Lemma Forall_last {A} (P : A → Prop) l d :
  Forall P l → l ≠ [] → P (List.last l d).
Proof.
  induction 1 as [|x l Hx Hl IH]; [contradiction|]. intros _.
  destruct l as [|y l]; [assumption|]. apply IH. discriminate.
Qed.

(** What [readLines] has yielded when the chunks end: the lines of the
    text read so far that a line feed has closed. *)
Lemma readLines_from_spec chunks : ∀ partOfLine,
  has_newline partOfLine = false →
  Forall (λ c, TextDecoder_decode c = c) chunks →
  readLines_from partOfLine chunks
  = removelast (split_lines (partOfLine +:+ concat_chunks chunks)).
Proof.
  induction chunks as [|chunk chunks IH]; intros part Hpart Hdec.
  - simpl. rewrite split_prepend by assumption. reflexivity.
  - inversion Hdec as [|? ? Hchunk Hrest]; subst.
    cbn [readLines_from concat_chunks].
    rewrite Hchunk. rewrite split_prepend by assumption.
    rewrite split_lines_app.
    pose proof (split_lines_pieces chunk) as Hpieces.
    destruct (split_lines chunk) as [|l0 [|l1 ls]] eqn:Hsplit.
    + now apply split_lines_nonempty in Hsplit.
    + cbn [removelast List.last app].
      inversion Hpieces as [|? ? Hl0 _]; subst.
      rewrite IH; [|now rewrite has_newline_app, Hpart, Hl0|assumption].
      rewrite append_assoc. now rewrite split_prepend by assumption.
    + assert (Hlast : has_newline (List.last ls l1) = false).
      { rewrite <- (last_cons_default l1 ""). apply Forall_last; [|discriminate].
        now inversion Hpieces. }
      rewrite (IH _ Hlast Hrest).
      change (List.last (l0 :: l1 :: ls) "") with (List.last (l1 :: ls) "").
      rewrite (last_cons_default l1 "").
      change (removelast (l0 :: l1 :: ls)) with (l0 :: removelast (l1 :: ls)).
      cbn [app]. unfold middle. cbn [tail].
      pose proof (split_lines_nonempty
                    (List.last ls l1 +:+ concat_chunks chunks)) as Hne.
      transitivity
        (removelast
           (((part +:+ l0) :: removelast (l1 :: ls))
            ++ split_lines (List.last ls l1 +:+ concat_chunks chunks)));
        [|reflexivity].
      now rewrite removelast_app by assumption.
Qed.

Lemma split_lines_stream lines :
  Forall (λ l, has_newline l = false) lines →
  split_lines (stream_of lines) = lines ++ [""].
Proof.
  induction 1 as [|l ls Hl _ IH]; [reflexivity|].
  cbn [stream_of]. rewrite split_prepend by assumption.
  cbn [split_lines]. unfold newline at 1. rewrite Ascii.eqb_refl.
  rewrite IH. cbn [app]. now rewrite (append_empty_r l).
Qed.

(** Line framing, where it holds: when every chunk holds whole characters,
    the reader yields the lines of the stream, whatever the partition. *)
Lemma readLines_whole_characters lines chunks :
  Forall (λ l, has_newline l = false) lines →
  concat_chunks chunks = stream_of lines →
  Forall whole_characters chunks →
  readLines chunks = lines.
Proof.
  intros Hlines Hstream Hwhole. unfold readLines.
  rewrite readLines_from_spec; [|reflexivity|].
  - rewrite append_empty, Hstream, split_lines_stream by assumption.
    apply removelast_last.
  - eapply Forall_impl; [exact Hwhole|]. apply decode_whole_characters.
Qed.

(** C6 at the stream of the one line [é], delivered in the chunks [C3] and
    [A9 0A]: the reader yields one line, and it is U+FFFD U+FFFD, not [é].
    Delivered in one chunk the line is intact. *)
Theorem line_framing_splits_characters :
  let chunks := [String "195" ""; String "169" (String newline "")] in
  concat_chunks chunks = stream_of [e_acute] ∧
  readLines chunks = [uFFFD +:+ uFFFD] ∧
  readLines chunks ≠ [e_acute] ∧
  readLines [stream_of [e_acute]] = [e_acute].
Proof. vm_compute. repeat split. discriminate. Qed.

(** ** followUpdates *)

Section Since.
Variable E : Env.
Variable options : Options.t.

Import State.

Lemma keeps_ret {A} (a : A) : keeps_since (mret a : M E A).
Proof. now intros s r s' [= <- <-]. Qed.

Lemma keeps_throw {A} e : keeps_since (throw e : M E A).
Proof. now intros s r s' [= <- <-]. Qed.

Lemma keeps_bind {A B} (m : M E A) (f : A → M E B) :
  keeps_since m → (∀ a, keeps_since (f a)) → keeps_since (m ≫= f).
Proof.
  intros Hm Hf s r s' H.
  apply bind_inv in H as [(a & s1 & H1 & H2)|(e & H1 & _)].
  - apply Hm in H1. apply Hf in H2. congruence.
  - now apply Hm in H1.
Qed.

Lemma keeps_try_catch {A} (m : M E A) h :
  keeps_since m → (∀ e, keeps_since (h e)) → keeps_since (try_catch m h).
Proof.
  intros Hm Hh s r s' H. unfold try_catch in H.
  destruct (m s) as [[a|e] s1] eqn:H1.
  - inversion H; subst. now apply Hm in H1.
  - apply Hm in H1. apply Hh in H. congruence.
Qed.

Lemma keeps_foldM {A B} (f : B → A → M E B) l :
  (∀ b a, keeps_since (f b a)) → ∀ b, keeps_since (foldM f b l).
Proof.
  intros Hf. induction l as [|a l IH]; intros b; simpl.
  - apply keeps_ret.
  - apply keeps_bind; auto.
Qed.

Lemma keeps_lift_world {A} (f : World E → Result A * World E) :
  keeps_since (lift_world E f).
Proof.
  intros s r s'. unfold lift_world. destruct (f (world s)).
  now intros [= <- <-].
Qed.

Lemma keeps_lift_result {A} (r : Result A) : keeps_since (lift_result r : M E A).
Proof. now intros s r' s' [= <- <-]. Qed.

Lemma keeps_cache_get k : keeps_since (cache_get E k).
Proof.
  intros s r s'. unfold cache_get.
  destruct (LRUCache.get k (hashCaches s)). now intros [= <- <-].
Qed.

Lemma keeps_cache_set k v : keeps_since (cache_set E k v).
Proof. now intros s r s' [= <- <-]. Qed.

Lemma keeps_fetch r : keeps_since (_fetchJson E r).
Proof.
  intros s res s'. unfold _fetchJson.
  destruct (fetch E r (world s)). now intros [= <- <-].
Qed.
End Since.

Create HintDb since.
#[export] Hint Resolve keeps_ret keeps_throw keeps_lift_world keeps_lift_result
  keeps_cache_get keeps_cache_set keeps_fetch : since.

Ltac keeps_step :=
  match goal with
  | |- keeps_since (_ ≫= _) => apply keeps_bind; [|intros ?]
  | |- keeps_since (foldM _ _ _) => apply keeps_foldM; intros ? ?
  | |- keeps_since (try_catch _ _) => apply keeps_try_catch; [|intros ?]
  | |- keeps_since (if ?b then _ else _) => destruct b
  | |- keeps_since (match ?x with Some _ => _ | None => _ end) => destruct x
  | |- keeps_since (match ?x with DocEntry _ => _ | DocOther => _ end) =>
      destruct x
  | |- keeps_since (_fetchJson ?E ?r) => exact (keeps_fetch E r)
  | |- keeps_since _ => solve [auto with since]
  end.

Ltac keeps_auto := repeat keeps_step.

Section FollowUpdates.
Variable E : Env.
Variable options : Options.t.
Variable callback : Entry.t → option Seq → World E → Result unit * World E.

Import State.

Lemma keeps_getByMeta doc : keeps_since (getByMeta E options doc).
Proof.
  unfold getByMeta, _collectChunks. keeps_step; [|keeps_auto].
  keeps_step.
  - keeps_step. unfold collect_cached. keeps_auto.
  - keeps_step; [keeps_auto|]. keeps_step; [keeps_auto|].
    keeps_step; [|keeps_auto]. keeps_step. unfold collect_row. keeps_auto.
Qed.

Lemma keeps_decryptDocumentPath e :
  keeps_since (decryptDocumentPath E options e).
Proof. unfold decryptDocumentPath. keeps_auto. Qed.

(** One result never throws, and moves the cursor to its [seq]. *)
Lemma follow_change_run lineData s :
  ∃ s',
    follow_change E options callback tt lineData s = (Ok tt, s') ∧
    since s' = advance (since s) lineData.
Proof.
  unfold follow_change, try_catch, advance.
  match goal with |- context [(?m ≫= ?f) s] =>
    destruct ((m ≫= f) s) as [r s'] eqn:Hrun end.
  assert (Hs : since s' = match change_seq lineData with
                          | Some seq => Some seq
                          | None => since s
                          end).
  { apply bind_inv in Hrun as [(a & s1 & H1 & H2)|(e & H1 & _)].
    - assert (Hk : since s' = since s1).
      { revert H2. generalize s1 (r) s'.
        change (keeps_since
          (match change_doc lineData with
           | Some (DocEntry docEntry) =>
               decryptDocumentPath E options docEntry ≫= λ docDecrypted,
               getByMeta E options docDecrypted ≫= λ doc,
               try_catch (lift_world E (callback doc (change_seq lineData)))
                 (λ _, mret ())
           | Some DocOther => throw "TypeError"
           | None => mret ()
           end)).
        destruct (change_doc lineData) as [[docEntry|]|]; [|keeps_auto..].
        keeps_step; [apply keeps_decryptDocumentPath|].
        keeps_step; [apply keeps_getByMeta|]. keeps_auto. }
      rewrite Hk. destruct (change_seq lineData); now inversion H1.
    - destruct (change_seq lineData); now inversion H1. }
  destruct r as [[]|e].
  - exists s'. split; [reflexivity|assumption].
  - exists s'. split; [reflexivity|assumption].
Qed.

(** A page moves the cursor through the [seq]s of its results, in order. *)
Lemma follow_page_run results : ∀ s,
  ∃ s',
    foldM (follow_change E options callback) tt results s = (Ok tt, s') ∧
    since s' = fold_left advance results (since s).
Proof.
  induction results as [|lineData results IH]; intros s.
  - exists s. now split.
  - destruct (follow_change_run lineData s) as (s1 & H1 & Hs1).
    destruct (IH s1) as (s' & H' & Hs').
    exists s'. cbn [foldM fold_left]. rewrite (bind_ok _ _ _ _ _ H1).
    split; [assumption|]. now rewrite Hs', Hs1.
Qed.

Lemma follow_loop_run fuel : ∀ s,
  ∃ r s',
    follow_loop E options fuel callback s = (r, s') ∧
    since s' = fold_left advance (concat (pages_read E options callback fuel s)) (since s).
Proof.
  induction fuel as [|fuel IH]; intros s.
  - exists (Ok false), s. now split.
  - cbn [follow_loop pages_read].
    unfold mbind at 1, M_bind at 1, get_since at 1.
    unfold mbind at 1, M_bind at 1.
    destruct (_fetchJson E _ s) as [[ret|e] s1] eqn:Hfetch.
    + apply keeps_fetch in Hfetch as Hs1.
      destruct (results ret) as [rs|].
      * destruct (follow_page_run rs s1) as (s2 & Hpage & Hs2).
        unfold mbind, M_bind. rewrite Hpage. cbn [snd].
        destruct (0 <? default 0 (pending ret)).
        -- destruct (IH s2) as (r & s' & Hloop & Hs').
           exists r, s'. split; [assumption|].
           cbn [concat]. now rewrite fold_left_app, <- Hs1, <- Hs2.
        -- exists (Ok true), s2. split; [reflexivity|].
           cbn [concat]. now rewrite app_nil_r, <- Hs1.
      * exists (Throw "TypeError: results is not iterable"), s1.
        split; [reflexivity|assumption].
    + exists (Throw e), s1. split; [reflexivity|].
      now apply keeps_fetch in Hfetch.
Qed.

Lemma only_follow_change lineData :
  only paged_feed (follow_change E options callback tt lineData).
Proof.
  unfold follow_change. only_step; [|only_auto].
  only_step; [only_auto|].
  destruct (change_doc lineData) as [[docEntry|]|]; [|only_auto..].
  only_step; [apply only_decryptDocumentPath|].
  only_step; [now apply only_getByMeta|]. only_auto.
Qed.

Lemma only_follow_loop fuel :
  only paged_feed (follow_loop E options fuel callback).
Proof.
  induction fuel as [|fuel IH]; cbn [follow_loop]; [only_auto|].
  only_step; [only_auto|]. only_step; [only_auto|].
  only_step; [|only_auto]. only_step; [|now destruct (0 <? _); only_auto].
  only_step. destruct b. apply only_follow_change.
Qed.

Lemma followUpdates_unfold fuel s :
  followUpdates E options fuel callback s
  = match follow_loop E options fuel callback (started E s) with
    | (Ok finished, s') => (Ok (if finished then Some (since s') else None), s')
    | (Throw _, s') => (Ok (Some (since s')), s')
    end.
Proof.
  unfold followUpdates, started.
  unfold mbind at 1, M_bind at 1, try_catch.
  unfold mbind at 1, M_bind at 1, get_since at 1.
  destruct (since s) as [q|] eqn:Hs.
  - unfold mbind at 1, M_bind at 1, mret at 1, M_ret at 1.
    destruct (follow_loop E options fuel callback s) as [[finished|e] s'];
      reflexivity.
  - unfold mbind at 1, M_bind at 1, set_since at 1.
    destruct (follow_loop E options fuel callback _) as [[finished|e] s'];
      reflexivity.
Qed.

Lemma fold_advance results : ∀ cursor,
  fold_left advance results cursor
  = match omap change_seq results with
    | [] => cursor
    | q :: qs => Some (List.last qs q)
    end.
Proof.
  induction results as [|lineData results IH]; intros cursor; [reflexivity|].
  cbn [fold_left]. rewrite IH. unfold advance.
  change (omap change_seq (lineData :: results))
    with (match change_seq lineData with
          | Some q => q :: omap change_seq results
          | None => omap change_seq results
          end).
  destruct (change_seq lineData) as [q|].
  - destruct (omap change_seq results) as [|q' qs]; [reflexivity|].
    now rewrite <- (last_cons_default q' q).
  - reflexivity.
Qed.

Lemma last_maximum q qs :
  nondecreasing (q :: qs) = true → List.last qs q = maximum (q :: qs).
Proof.
  revert q. induction qs as [|q' qs IH]; intros q H.
  - cbn. lia.
  - cbn [nondecreasing] in H. apply andb_true_iff in H as [Hle H].
    apply N.leb_le in Hle. rewrite (last_cons_default q' q), (IH _ H).
    change (maximum (q :: q' :: qs)) with (N.max q (maximum (q' :: qs))).
    assert (q' ≤ maximum (q' :: qs))%N by (cbn; lia). lia.
Qed.

(** Once the loop has ended, more fuel changes nothing. *)
Lemma follow_loop_enough fuel : ∀ s r s',
  follow_loop E options fuel callback s = (r, s') → r ≠ Ok false →
  follow_loop E options (S fuel) callback s = (r, s').
Proof.
  induction fuel as [|fuel IH]; intros s r s' H Hr.
  - inversion H; subst. contradiction.
  - remember (S fuel) as n eqn:Hn. cbn [follow_loop]. subst n.
    cbn [follow_loop] in H.
    apply bind_inv in H as [(cursor & s0 & H0 & H)|(e & H0 & ->)];
      [|now rewrite (bind_throw _ _ _ _ _ H0)].
    rewrite (bind_ok _ _ _ _ _ H0).
    apply bind_inv in H as [(ret & s1 & H1 & H)|(e & H1 & ->)];
      [|now rewrite (bind_throw _ _ _ _ _ H1)].
    rewrite (bind_ok _ _ _ _ _ H1).
    destruct (results ret) as [rs|]; [|assumption].
    apply bind_inv in H as [(u & s2 & H2 & H)|(e & H2 & ->)];
      [|now rewrite (bind_throw _ _ _ _ _ H2)].
    rewrite (bind_ok _ _ _ _ _ H2).
    destruct (0 <? default 0 (pending ret)); [|assumption].
    now apply IH.
Qed.

Lemma follow_loop_out_of_fuel fuel : ∀ s s',
  follow_loop E options fuel callback s = (Ok false, s') →
  length (pages_read E options callback fuel s) = fuel.
Proof.
  induction fuel as [|fuel IH]; intros s s' H; [reflexivity|].
  cbn [follow_loop pages_read] in *.
  unfold mbind at 1, M_bind at 1, get_since at 1 in H.
  unfold mbind at 1, M_bind at 1 in H.
  destruct (_fetchJson E _ s) as [[ret|e] s1]; [|discriminate].
  destruct (results ret) as [rs|]; [|discriminate].
  destruct (follow_page_run rs s1) as (s2 & Hpage & _).
  unfold mbind, M_bind in H. rewrite Hpage in H. rewrite Hpage. cbn [snd].
  destruct (0 <? default 0 (pending ret)); [|discriminate].
  cbn [length]. f_equal. now apply (IH s2 s').
Qed.

(** C8.  [followUpdates] asks for the change feed with [feed=normal] and
    [limit=25] from the cursor, page after page as long as the answer
    reports [pending > 0]; it moves the cursor to the [seq] of each result
    in turn and returns it.  The cursor it returns is the [seq] of the last
    result read, which is the greatest when the feed delivers them in
    non-decreasing order.  It never throws; it fails to return only when
    every one of [fuel] pages reported more to come. *)
Theorem follow_updates_paging (fuel : nat) (s : State.t (World E)) :
  let pages := pages_read E options callback fuel (started E s) in
  only paged_feed (followUpdates E options fuel callback) ∧
  ∃ finished s',
    followUpdates E options fuel callback s
    = (Ok (if finished : bool then Some (since s') else None), s') ∧
    since s' = fold_left advance (concat pages) (since (started E s)) ∧
    (seqs pages ≠ [] → nondecreasing (seqs pages) = true →
     since s' = Some (maximum (seqs pages))) ∧
    (finished = false → length pages = fuel) ∧
    (finished = true →
     followUpdates E options (S fuel) callback s = (Ok (Some (since s')), s')).
Proof.
  intros pages. split.
  - unfold followUpdates. only_step; [|only_auto].
    only_step; [|only_auto]. only_step; [only_auto|].
    only_step; [now destruct a; only_auto|]. apply only_follow_loop.
  - destruct (follow_loop_run fuel (started E s)) as (r & s' & Hloop & Hs').
    assert (Hmax : seqs pages ≠ [] → nondecreasing (seqs pages) = true →
                   since s' = Some (maximum (seqs pages))).
    { intros Hne Hsorted. rewrite Hs', fold_advance. unfold seqs in *.
      fold pages.
      destruct (omap change_seq (concat pages)) as [|q qs]; [contradiction|].
      now rewrite last_maximum. }
    rewrite followUpdates_unfold, Hloop.
    destruct r as [[|]|e].
    + exists true, s'. repeat split; try assumption; try discriminate.
      intros _. rewrite followUpdates_unfold.
      now rewrite (follow_loop_enough _ _ _ _ Hloop).
    + exists false, s'. repeat split; try assumption; try discriminate.
      intros _. now apply (follow_loop_out_of_fuel _ _ s').
    + exists true, s'. repeat split; try assumption; try discriminate.
      intros _. rewrite followUpdates_unfold.
      now rewrite (follow_loop_enough _ _ _ _ Hloop).
Qed.
End FollowUpdates.

(** The feed of two changes is read in one page, and the cursor ends at
    the second. *)
Lemma follow_updates_paging_witness :
  (followUpdates Couch.env (Couch.options None None) 3 quiet two_files).1
  = Ok (Some (Some 2%N)).
Proof.
  destruct (proj2 (follow_updates_paging Couch.env (Couch.options None None)
                     quiet 3 two_files))
    as (finished & s' & Hrun & _ & Hmax & Hfuel & _).
  rewrite Hrun. cbn [fst].
  destruct finished.
  - rewrite Hmax.
    + vm_compute. reflexivity.
    + vm_compute. discriminate.
    + vm_compute. reflexivity.
  - specialize (Hfuel eq_refl). vm_compute in Hfuel. discriminate.
Defined.

(** ** The order of keys *)

Lemma compare_cons a s b t :
  String.compare (String a s) (String b t)
  = match Ascii.compare a b with
    | Eq => String.compare s t
    | c => c
    end.
Proof. reflexivity. Qed.

Lemma ascii_compare_refl a : Ascii.compare a a = Eq.
Proof. unfold Ascii.compare. apply N.compare_refl. Qed.

Lemma compare_refl s : String.compare s s = Eq.
Proof.
  induction s as [|a s IH]; [reflexivity|].
  now rewrite compare_cons, ascii_compare_refl.
Qed.

Lemma ascii_compare_lt_trans a b c :
  Ascii.compare a b = Lt → Ascii.compare b c = Lt → Ascii.compare a c = Lt.
Proof.
  unfold Ascii.compare. rewrite !N.compare_lt_iff. lia.
Qed.

Lemma slt_trans a : ∀ b c, slt a b → slt b c → slt a c.
Proof.
  unfold slt. induction a as [|x a IH]; intros [|y b] [|z c]; simpl;
    try discriminate; try reflexivity.
  destruct (Ascii.compare x y) eqn:Hxy; try discriminate.
  - apply Ascii.compare_eq_iff in Hxy as ->.
    destruct (Ascii.compare y z); try discriminate; [apply IH|reflexivity].
  - destruct (Ascii.compare y z) eqn:Hyz; try discriminate.
    + apply Ascii.compare_eq_iff in Hyz as <-. now rewrite Hxy.
    + now rewrite (ascii_compare_lt_trans _ _ _ Hxy Hyz).
Qed.

Lemma sle_cases a b : sle a b ↔ slt a b ∨ a = b.
Proof.
  unfold sle, slt. split.
  - destruct (String.compare a b) eqn:H; [|now left|contradiction].
    right. now apply String.compare_eq_iff.
  - intros [->| ->]; [discriminate|]. now rewrite compare_refl.
Qed.

Lemma slt_irrefl a : ¬ slt a a.
Proof. unfold slt. now rewrite compare_refl. Qed.

Lemma sle_lt_trans a b c : sle a b → slt b c → slt a c.
Proof. intros [H| ->]%sle_cases; [|trivial]. now apply slt_trans. Qed.

Lemma slt_le_trans a b c : slt a b → sle b c → slt a c.
Proof. intros H [H'| <-]%sle_cases; [|trivial]. now apply (slt_trans a b c). Qed.

Lemma sle_trans a b c : sle a b → sle b c → sle a c.
Proof.
  intros H [H'| <-]%sle_cases; [|trivial].
  apply sle_cases. left. now apply (sle_lt_trans a b c).
Qed.

Lemma slt_not_sle a b : slt a b → ¬ sle b a.
Proof.
  intros H H'. apply (slt_irrefl a). now apply (slt_le_trans a b a).
Qed.

Lemma leb_sle a b : String.leb a b = true ↔ sle a b.
Proof.
  unfold String.leb, sle. destruct (String.compare a b); split;
    (discriminate || reflexivity || (intros H; now contradiction H)).
Qed.

Lemma ltb_slt a b : String.ltb a b = true ↔ slt a b.
Proof.
  unfold String.ltb, slt. destruct (String.compare a b); split;
    (discriminate || reflexivity).
Qed.

Lemma compare_append p s t :
  String.compare (p +:+ s) (p +:+ t) = String.compare s t.
Proof.
  induction p as [|a p IH]; [reflexivity|].
  now rewrite !append_cons, compare_cons, ascii_compare_refl.
Qed.

(** A key is below every key that extends it. *)
Lemma slt_append p s : s ≠ "" → slt p (p +:+ s).
Proof.
  intros Hs. unfold slt. rewrite <- (append_empty_r p) at 1.
  rewrite compare_append. now destruct s.
Qed.

(** What lies between a key and its extension by [u] extends the key. *)
Lemma between_extension p u : ∀ k,
  slt p k → slt k (p +:+ u) → ∃ s, k = p +:+ s ∧ s ≠ "" ∧ slt s u.
Proof.
  unfold slt. induction p as [|a p IH]; intros k Hlo Hhi.
  - exists k. rewrite append_empty in *. split; [reflexivity|].
    split; [|assumption]. now destruct k.
  - destruct k as [|b k]; [discriminate|].
    rewrite append_cons in Hhi. rewrite compare_cons in Hlo, Hhi.
    rewrite Ascii.compare_antisym in Hhi.
    destruct (Ascii.compare a b) eqn:Hab; try discriminate.
    apply Ascii.compare_eq_iff in Hab as <-.
    destruct (IH k Hlo Hhi) as (s & -> & Hs & Hsu).
    exists s. now rewrite append_cons.
Qed.

(** ** The key ranges of the enumeration *)

Lemma sle_total a b : sle a b ∨ slt b a.
Proof.
  unfold sle, slt. rewrite (String.compare_antisym b a).
  destruct (String.compare a b); simpl; auto; left; discriminate.
Qed.

Lemma in_target_iff t k : in_target t k = true ↔ sle t.1 k ∧ sle k t.2.
Proof. unfold in_target. now rewrite andb_true_iff, !leb_sle. Qed.

Lemma sle_empty k : sle "" k.
Proof. unfold sle. now destruct k. Qed.

(** Two ranges, the first ending below the start of the second, share no
    key. *)
Lemma ranges_apart t1 t2 k :
  slt t1.2 t2.1 → in_target t1 k = true → in_target t2 k = false.
Proof.
  intros Hlt [_ H1]%in_target_iff.
  destruct (in_target t2 k) eqn:H2; [|reflexivity].
  apply in_target_iff in H2 as [H2 _].
  exfalso. apply (slt_irrefl k).
  apply (sle_lt_trans k t1.2 k); [assumption|].
  now apply (slt_le_trans t1.2 t2.1 k).
Qed.

Lemma targets_disjoint i j t1 t2 k :
  i ≠ j → targets !! i = Some t1 → targets !! j = Some t2 →
  in_target t1 k = true → in_target t2 k = false.
Proof.
  intros Hij Hi Hj H1.
  destruct (in_target t2 k) eqn:H2; [exfalso|reflexivity].
  assert (Hcases : slt t1.2 t2.1 ∨ slt t2.2 t1.1).
  { destruct i as [|[|[|[|[|i]]]]]; try discriminate;
    destruct j as [|[|[|[|[|j]]]]]; try discriminate; try contradiction;
    inversion Hi; inversion Hj; subst;
    ((left; reflexivity) || (right; reflexivity)). }
  destruct Hcases as [Hlt|Hlt].
  - rewrite (ranges_apart t1 t2 k Hlt H1) in H2. discriminate.
  - rewrite (ranges_apart t2 t1 k Hlt H2) in H1. discriminate.
Qed.

(** No range holds a key that extends a reserved prefix by a suffix below
    U+10FFFF. *)
Lemma targets_exclude p s t :
  p ∈ reserved → s ≠ "" → slt s u10ffff → t ∈ targets →
  in_target t (p +:+ s) = false.
Proof.
  intros Hp Hs Hsu Ht.
  destruct (in_target t (p +:+ s)) eqn:Hin; [exfalso|reflexivity].
  apply in_target_iff in Hin as [Hlo Hhi].
  assert (Hside : sle t.2 p ∨ sle (p +:+ u10ffff) t.1).
  { unfold reserved, targets in *.
    repeat (apply elem_of_cons in Hp as [->|Hp]);
      [..|now apply elem_of_nil in Hp];
      repeat (apply elem_of_cons in Ht as [->|Ht]);
      try (now apply elem_of_nil in Ht);
      ((left; apply leb_sle; reflexivity) || (right; apply leb_sle; reflexivity)). }
  destruct Hside as [H|H].
  - apply (slt_irrefl p). apply (slt_le_trans p (p +:+ s) p).
    + now apply slt_append.
    + now apply (sle_trans _ t.2).
  - apply (slt_irrefl (p +:+ s)).
    apply (slt_le_trans _ (p +:+ u10ffff)).
    + unfold slt. now rewrite compare_append.
    + now apply (sle_trans _ t.1).
Qed.

(** Every key up to U+10FFFF is in a range or extends a reserved
    prefix. *)
Lemma targets_cover k :
  sle k u10ffff →
  (∃ t, t ∈ targets ∧ in_target t k = true) ∨
  (∃ p s, p ∈ reserved ∧ k = p +:+ s ∧ s ≠ "" ∧ slt s u10ffff).
Proof.
  intros Hk.
  assert (Hstep : ∀ lo p (rest : k = k),
    sle lo k → (lo, p) ∈ targets → p ∈ reserved →
    (∃ t, t ∈ targets ∧ in_target t k = true) ∨
    (∃ p s, p ∈ reserved ∧ k = p +:+ s ∧ s ≠ "" ∧ slt s u10ffff) ∨
    sle (p +:+ u10ffff) k).
  { intros lo p _ Hlo Ht Hp.
    destruct (sle_total k p) as [Hle|Hgt].
    - left. exists (lo, p). split; [assumption|]. now apply in_target_iff.
    - destruct (sle_total (p +:+ u10ffff) k) as [Hle|Hlt];
        [now right; right|].
      right. left. destruct (between_extension p u10ffff k Hgt Hlt)
        as (s & -> & Hs & Hsu).
      exists p, s. now repeat split. }
  unfold targets in Hstep.
  destruct (Hstep "" "h:" eq_refl (sle_empty k)) as [H|[H|H1]];
    [repeat constructor|repeat constructor|auto|auto|].
  destruct (Hstep ("h:" +:+ u10ffff) "i:" eq_refl H1) as [H|[H|H2]];
    [repeat constructor|repeat constructor|auto|auto|].
  destruct (Hstep ("i:" +:+ u10ffff) "ix:" eq_refl H2) as [H|[H|H3]];
    [repeat constructor|repeat constructor|auto|auto|].
  destruct (Hstep ("ix:" +:+ u10ffff) "ps:" eq_refl H3) as [H|[H|H4]];
    [repeat constructor|repeat constructor|auto|auto|].
  left. exists ("ps:" +:+ u10ffff, u10ffff). split; [repeat constructor|].
  now apply in_target_iff.
Qed.

(** ** No entry is enumerated twice *)

Section World.
Variable E : Env.
Variable Inv : World E → Prop.

Import State.

Lemma world_ret {A} (a : A) : keeps_world Inv (mret a : M E A).
Proof. intros s r s' H [= <- <-]. exact H. Qed.

Lemma world_throw {A} e : keeps_world Inv (throw e : M E A).
Proof. intros s r s' H [= <- <-]. exact H. Qed.

Lemma world_bind {A B} (m : M E A) (f : A → M E B) :
  keeps_world Inv m → (∀ a, keeps_world Inv (f a)) →
  keeps_world Inv (m ≫= f).
Proof.
  intros Hm Hf s r s' HI H.
  apply bind_inv in H as [(a & s1 & H1 & H2)|(e & H1 & _)].
  - eapply Hf; [|exact H2]. eapply Hm; [exact HI|exact H1].
  - eapply Hm; [exact HI|exact H1].
Qed.

Lemma world_try_catch {A} (m : M E A) h :
  keeps_world Inv m → (∀ e, keeps_world Inv (h e)) →
  keeps_world Inv (try_catch m h).
Proof.
  intros Hm Hh s r s' HI H. unfold try_catch in H.
  destruct (m s) as [[a|e] s1] eqn:H1.
  - inversion H; subst. eapply Hm; [exact HI|exact H1].
  - eapply Hh; [|exact H]. eapply Hm; [exact HI|exact H1].
Qed.

Lemma world_foldM {A B} (f : B → A → M E B) l :
  (∀ b a, keeps_world Inv (f b a)) → ∀ b, keeps_world Inv (foldM f b l).
Proof.
  intros Hf. induction l as [|a l IH]; intros b; simpl.
  - apply world_ret.
  - apply world_bind; auto.
Qed.

Lemma world_lift_result {A} (r : Result A) :
  keeps_world Inv (lift_result r : M E A).
Proof. intros s r' s' H [= <- <-]. exact H. Qed.

Lemma world_cache_get k : keeps_world Inv (cache_get E k).
Proof.
  intros s r s' H. unfold cache_get.
  destruct (LRUCache.get k (hashCaches s)). now intros [= <- <-].
Qed.

Lemma world_cache_set k v : keeps_world Inv (cache_set E k v).
Proof. intros s r s' H [= <- <-]. exact H. Qed.

Lemma world_fetch r :
  (∀ w res w', Inv w → fetch E r w = (res, w') → Inv w') →
  keeps_world Inv (_fetchJson E r).
Proof.
  intros Hr s res s' H. unfold _fetchJson.
  destruct (fetch E r (world s)) as [res0 w'] eqn:Hf.
  intros [= <- <-]. cbn [world]. eapply Hr; [exact H|exact Hf].
Qed.
End World.

Create HintDb world.
#[export] Hint Resolve world_ret world_throw world_lift_result world_cache_get
  world_cache_set : world.

Ltac world_step :=
  match goal with
  | |- keeps_world _ (_ ≫= _) => apply world_bind; [|intros ?]
  | |- keeps_world _ (foldM _ _ _) => apply world_foldM; intros ? ?
  | |- keeps_world _ (try_catch _ _) => apply world_try_catch; [|intros ?]
  | |- keeps_world _ (if ?b then _ else _) => destruct b
  | |- keeps_world _ (match ?x with Some _ => _ | None => _ end) => destruct x
  | |- keeps_world _ _ => solve [auto with world]
  end.

Ltac world_auto := repeat world_step.

Section Enumeration.
Variable E : Env.
Variable options : Options.t.

(** The server holds the documents [db], in ascending key order, each
    metadata entry under its own id; as long as [Inv] holds of the world it
    answers a range query with a page of [db], and neither that nor a
    query for chunks ends [Inv]. *)
Variable db : list (string * RemoteDocument).
Variable Inv : World E → Prop.

Hypothesis db_sorted : StronglySorted slt (map fst db).
Hypothesis db_ids : ∀ k e, (k, DocEntry e) ∈ db → Entry._id e = k.
Hypothesis range_answer : ∀ w startkey endkey,
  Inv w →
  ∃ w',
    fetch E (GetAllDocs startkey endkey 100) w
    = (Ok {| range_rows := Some (page db startkey endkey) |}, w') ∧ Inv w'.
Hypothesis chunks_keep : ∀ include_docs keys w res w',
  Inv w → fetch E (PostAllDocs include_docs keys) w = (res, w') → Inv w'.

Import State.

Lemma world_getByMeta doc : keeps_world Inv (getByMeta E options doc).
Proof.
  unfold getByMeta, _collectChunks. world_step; [|world_auto].
  world_step.
  - world_step. unfold collect_cached. world_auto.
  - world_step; [world_auto|].
    world_step;
      [match goal with |- keeps_world _ (_fetchJson _ ?r) =>
         exact (world_fetch E Inv r (chunks_keep _ _)) end|].
    world_step; [|world_auto]. world_step. unfold collect_row. world_auto.
Qed.

Lemma getByMeta_ok doc s r s' :
  getByMeta E options doc s = (Ok r, s') → Entry._id r = Entry._id doc.
Proof.
  unfold getByMeta. intros H.
  apply bind_inv in H as [(chunks & s1 & _ & H)|(e & _ & He)]; [|discriminate].
  destruct (existsb _ _); [discriminate|]. now inversion H.
Qed.

Lemma decryptDocumentPath_ok e s r s' :
  decryptDocumentPath E options e s = (Ok r, s') →
  Entry._id r = Entry._id e ∧ world s' = world s.
Proof.
  unfold decryptDocumentPath. intros H.
  apply bind_inv in H as [(p & s1 & Hp & H)|(m & _ & Hm)]; [|discriminate].
  inversion H; subst.
  destruct (truthy (passphrase options)).
  - unfold lift_result in Hp. now inversion Hp.
  - now inversion Hp.
Qed.

Lemma world_decryptDocumentPath e :
  keeps_world Inv (decryptDocumentPath E options e).
Proof. unfold decryptDocumentPath. world_auto. Qed.

Lemma enumerate_task_ok metaOnly e s r s' :
  enumerate_task E options metaOnly e s = (Ok r, s') →
  Entry._id r = Entry._id e.
Proof.
  unfold enumerate_task, try_catch.
  match goal with |- context [(?m ≫= ?f) s] =>
    destruct ((m ≫= f) s) as [[w|msg] s1] eqn:Hrun end; [|discriminate].
  intros [= <- <-].
  apply bind_inv in Hrun as [(w1 & s2 & H1 & H2)|(m & _ & Hm)];
    [|discriminate].
  apply decryptDocumentPath_ok in H1 as [<- _].
  destruct metaOnly.
  - now inversion H2.
  - now apply getByMeta_ok in H2.
Qed.

Lemma world_enumerate_task metaOnly e :
  keeps_world Inv (enumerate_task E options metaOnly e).
Proof.
  unfold enumerate_task. world_step; [|world_auto].
  world_step; [apply world_decryptDocumentPath|].
  destruct metaOnly; [world_auto|apply world_getByMeta].
Qed.

(** The outcomes of the tasks of a page: the entries of the page that did
    not fail, in their order. *)
Lemma process_page metaOnly entries : ∀ s,
  Inv (world s) →
  ∃ newDocs s',
    processAllTasksWithConcurrencyLimit E 5
      (map (enumerate_task E options metaOnly) entries) s
    = (Ok newDocs, s') ∧
    Inv (world s') ∧
    ids_of (oks newDocs) `sublist_of` ids_of entries.
Proof.
  unfold processAllTasksWithConcurrencyLimit.
  induction entries as [|e entries IH]; intros s HI.
  - exists [], s. repeat split; [assumption|constructor].
  - cbn [map mapM]. unfold mbind at 1, M_bind at 1.
    destruct (enumerate_task E options metaOnly e s) as [r s1] eqn:Htask.
    assert (HI1 : Inv (world s1))
      by (eapply world_enumerate_task; [exact HI|exact Htask]).
    destruct (IH s1 HI1) as (newDocs & s' & Hrun & HI' & Hsub).
    unfold mbind, M_bind. rewrite Hrun. unfold mret, M_ret.
    exists (r :: newDocs), s'. repeat split; [assumption|].
    destruct r as [w|msg]; cbn.
    + rewrite (enumerate_task_ok _ _ _ _ _ Htask).
      now apply sublist_skip.
    + now apply sublist_cons.
Qed.

Lemma filter_sublist {A} (f : A → bool) l : List.filter f l `sublist_of` l.
Proof.
  induction l as [|x l IH]; simpl; [constructor|].
  destruct (f x); [now apply sublist_skip|now apply sublist_cons].
Qed.

Lemma map_sublist {A B} (f : A → B) l1 l2 :
  l1 `sublist_of` l2 → map f l1 `sublist_of` map f l2.
Proof.
  induction 1; simpl; [constructor|now apply sublist_skip|now apply sublist_cons].
Qed.

Lemma Forall_sublist {A} (P : A → Prop) l1 l2 :
  l1 `sublist_of` l2 → Forall P l2 → Forall P l1.
Proof.
  intros Hsub%sublist_subseteq H. rewrite Forall_forall in *. auto.
Qed.

Lemma sorted_sublist l1 l2 :
  l1 `sublist_of` l2 → StronglySorted slt l2 → StronglySorted slt l1.
Proof.
  induction 1 as [|x l1 l2 Hsub IH|x l1 l2 Hsub IH]; intros H.
  - constructor.
  - apply StronglySorted_cons in H as [Hall Hs]. constructor; [auto|].
    now apply (Forall_sublist _ l1 l2).
  - apply StronglySorted_cons in H as [_ Hs]. auto.
Qed.

Lemma sorted_last_max l : ∀ x0 x,
  StronglySorted slt (x0 :: l) → x ∈ x0 :: l → sle x (List.last l x0).
Proof.
  induction l as [|y l IH]; intros x0 x Hs Hx.
  - apply list_elem_of_singleton in Hx as ->. apply sle_cases. now right.
  - apply StronglySorted_cons in Hs as [Hall Hs].
    change (List.last (y :: l) x0) with (List.last (x0 :: y :: l) x0).
    rewrite (last_cons_default x0 x0), (last_cons_default y x0).
    apply elem_of_cons in Hx as [->|Hx]; [|now apply IH].
    apply sle_cases. left.
    apply (slt_le_trans x0 y); [now inversion Hall|].
    apply IH; [assumption|now left].
Qed.

Lemma sorted_NoDup l : StronglySorted slt l → NoDup l.
Proof.
  induction 1 as [|x l Hs IH Hall]; constructor; [|assumption].
  intros Hin. rewrite Forall_forall in Hall.
  now apply (slt_irrefl x), Hall.
Qed.

Lemma page_selected startkey endkey :
  page db startkey endkey = map row_of_doc (selected db startkey endkey).
Proof. unfold page, selected. now rewrite firstn_map. Qed.

Lemma selected_sublist startkey endkey :
  selected db startkey endkey `sublist_of` db.
Proof.
  unfold selected. etransitivity; [apply sublist_take|apply filter_sublist].
Qed.

Lemma page_keys_ascending startkey endkey :
  ascending startkey endkey (map range_key (page db startkey endkey)).
Proof.
  rewrite page_selected, map_map. cbn [row_of_doc range_key]. split.
  - eapply sorted_sublist; [|exact db_sorted].
    apply map_sublist, selected_sublist.
  - unfold selected. apply (Forall_sublist _ _ _ (map_sublist _ _ _ (sublist_take _ _))).
    apply Forall_forall. intros k Hk.
    apply list_elem_of_In, in_map_iff in Hk as ((k' & d) & <- & Hin).
    apply filter_In in Hin as [_ Hin]. now apply in_target_iff in Hin.
Qed.

Lemma page_entries startkey endkey :
  ids_of (omap entry_of_row (page db startkey endkey))
  `sublist_of` map range_key (page db startkey endkey).
Proof.
  rewrite page_selected.
  pose proof (sublist_subseteq _ _ (selected_sublist startkey endkey)) as Hsub.
  induction (selected db startkey endkey) as [|[k d] sel IH]; [constructor|].
  cbn [map]. unfold ids_of.
  change (omap entry_of_row (row_of_doc (k, d) :: map row_of_doc sel))
    with (match entry_of_row (row_of_doc (k, d)) with
          | Some e => e :: omap entry_of_row (map row_of_doc sel)
          | None => omap entry_of_row (map row_of_doc sel)
          end).
  assert (Hsel : sel ⊆ db) by (intros x Hx; apply Hsub; now right).
  unfold entry_of_row at 1. cbn [row_of_doc range_doc range_key fst snd].
  destruct d as [e|].
  - cbn [map]. rewrite (db_ids k e) by (apply Hsub; now left).
    apply sublist_skip. now apply IH.
  - apply sublist_cons. now apply IH.
Qed.

Lemma last_map {A B} (f : A → B) l d :
  List.last (map f l) (f d) = f (List.last l d).
Proof.
  revert d. induction l as [|x l IH]; intros d; [reflexivity|].
  cbn [map]. now rewrite !last_cons_default.
Qed.

Lemma last_elem {A} (x : A) l : List.last l x ∈ x :: l.
Proof.
  revert x. induction l as [|y l IH]; intros x; [now left|].
  rewrite (last_cons_default y x). right. apply IH.
Qed.

Lemma ids_of_app ys zs : ids_of (ys ++ zs) = ids_of ys ++ ids_of zs.
Proof. apply map_app. Qed.

Lemma ascending_app lo mid hi l1 l2 bound :
  ascending lo hi l1 → Forall (λ k, sle k bound) l1 →
  slt bound mid → sle lo mid →
  ascending mid hi l2 → ascending lo hi (l1 ++ l2).
Proof.
  intros [Hs1 Hb1] Hbound Hlt Hle [Hs2 Hb2]. split.
  - apply StronglySorted_app_2; [|assumption..].
    intros x y Hx Hy. rewrite Forall_forall in Hbound, Hb2.
    apply (sle_lt_trans x bound y); [auto|].
    apply (slt_le_trans bound mid y); [assumption|]. now apply Hb2.
  - apply Forall_app. split; [assumption|].
    eapply Forall_impl; [exact Hb2|]. intros k [H1 H2]. split; [|assumption].
    now apply (sle_trans lo mid k).
Qed.

(** The loop of [_enumerate], from the answer to the query that starts at
    [key]: the ids it yields ascend from [key] to [endKey]. *)
Lemma enumerate_loop_ascending fuel endKey metaOnly : ∀ key s,
  Inv (world s) →
  Inv (world (_enumerate_loop E options fuel endKey metaOnly
                (Ok {| range_rows := Some (page db key endKey) |}) s).2) ∧
  ascending key endKey
    (ids_of (_enumerate_loop E options fuel endKey metaOnly
               (Ok {| range_rows := Some (page db key endKey) |}) s).1.1).
Proof.
  induction fuel as [|fuel IH]; intros key s HI.
  - split; [assumption|]. split; constructor.
  - cbn [_enumerate_loop range_rows].
    pose proof (page_keys_ascending key endKey) as Hkeys.
    pose proof (page_entries key endKey) as Hentries.
    destruct (page db key endKey) as [|r0 rs0] eqn:Hpage.
    { split; [assumption|]. split; constructor. }
    set (key' := range_key (List.last rs0 r0) +:+ u10ffff).
    unfold req, _fetchJson.
    destruct (range_answer (world s) key' endKey HI) as (w' & Hfetch & HI').
    rewrite Hfetch.
    match goal with |- context [processAllTasksWithConcurrencyLimit E 5 ?ts ?st] =>
      destruct (process_page metaOnly (omap entry_of_row (r0 :: rs0)) st HI')
        as (newDocs & s2 & Hrun & HI2 & Hsub) end.
    rewrite Hrun.
    destruct (IH key' s2 HI2) as [HI3 Hrest].
    destruct (_enumerate_loop E options fuel endKey metaOnly _ s2)
      as [[ys c] s3].
    cbn [fst snd] in *. split; [assumption|].
    rewrite ids_of_app.
    assert (Hpage_ids :
      ids_of (oks newDocs) `sublist_of` map range_key (r0 :: rs0))
      by (etransitivity; eassumption).
    destruct Hkeys as [Hsorted Hbounds].
    assert (Hlast : ∀ k, k ∈ map range_key (r0 :: rs0) →
                         sle k (range_key (List.last rs0 r0))).
    { intros k Hk. rewrite <- (last_map range_key).
      now apply sorted_last_max. }
    assert (Hmem : range_key (List.last rs0 r0) ∈ map range_key (r0 :: rs0)).
    { rewrite <- (last_map range_key). apply last_elem. }
    apply (ascending_app key key' endKey _ _ (range_key (List.last rs0 r0))).
    + split; [now apply (sorted_sublist _ _ Hpage_ids)|].
      now apply (Forall_sublist _ _ _ Hpage_ids).
    + apply (Forall_sublist _ _ _ Hpage_ids). now apply Forall_forall.
    + apply slt_append. discriminate.
    + apply (sle_trans key (range_key (List.last rs0 r0))).
      * rewrite Forall_forall in Hbounds. now apply Hbounds.
      * apply sle_cases. left. apply slt_append. discriminate.
    + assumption.
Qed.

Lemma enumerate_ascending fuel startKey endKey metaOnly s :
  Inv (world s) →
  Inv (world (_enumerate E options fuel startKey endKey metaOnly s).2) ∧
  ascending startKey endKey
    (ids_of (_enumerate E options fuel startKey endKey metaOnly s).1.1).
Proof.
  intros HI. unfold _enumerate, req, _fetchJson.
  destruct (range_answer (world s) startKey endKey HI) as (w' & Hfetch & HI').
  rewrite Hfetch. now apply enumerate_loop_ascending.
Qed.

Lemma enumerate_targets_sorted fuel metaOnly ts : ∀ s,
  in_sequence ts → Inv (world s) →
  Inv (world (enumerate_targets E options fuel metaOnly ts s).2) ∧
  StronglySorted slt
    (ids_of (enumerate_targets E options fuel metaOnly ts s).1.1) ∧
  Forall (λ k, ∃ t, t ∈ ts ∧ in_target t k = true)
    (ids_of (enumerate_targets E options fuel metaOnly ts s).1.1).
Proof.
  induction ts as [|[startKey endKey] ts IH]; intros s Hseq HI.
  - repeat split; [assumption|constructor|constructor].
  - apply StronglySorted_cons in Hseq as [Hlater Hseq].
    cbn [enumerate_targets].
    destruct (enumerate_ascending fuel startKey endKey metaOnly s HI)
      as [HI1 [Hs1 Hb1]].
    destruct (_enumerate E options fuel startKey endKey metaOnly s)
      as [[ys c] s1].
    cbn [fst snd] in *.
    assert (Hin1 : Forall (λ k, ∃ t, t ∈ (startKey, endKey) :: ts
                                     ∧ in_target t k = true) (ids_of ys)).
    { eapply Forall_impl; [exact Hb1|]. intros k Hk.
      exists (startKey, endKey). split; [now left|]. now apply in_target_iff. }
    destruct c; try (now repeat split).
    destruct (IH s1 Hseq HI1) as (HI2 & Hs2 & Hb2).
    destruct (enumerate_targets E options fuel metaOnly ts s1)
      as [[zs c] s2].
    cbn [fst snd] in *. split; [assumption|]. rewrite ids_of_app. split.
    + apply StronglySorted_app_2; [|assumption..].
      intros x y Hx Hy. rewrite Forall_forall in Hb1. rewrite Forall_forall in Hb2.
      rewrite Forall_forall in Hlater.
      destruct (Hb1 x Hx) as [_ Hxe].
      destruct (Hb2 y Hy) as (t & Ht & [Hty _]%in_target_iff).
      apply (sle_lt_trans x endKey y); [assumption|].
      apply (slt_le_trans endKey t.1 y); [|assumption].
      now apply (Hlater t).
    + apply Forall_app. split; [assumption|].
      eapply Forall_impl; [exact Hb2|]. intros k (t & Ht & Hk).
      exists t. split; [now right|assumption].
Qed.

Lemma targets_in_sequence : in_sequence targets.
Proof.
  unfold in_sequence, targets.
  repeat (constructor; [|repeat constructor; reflexivity]).
  constructor.
Qed.

Lemma digit36_below d : (d < 36)%N → (N_of_ascii (digit36 d) < 123)%N.
Proof.
  intros Hd. unfold digit36. destruct (N.ltb_spec d 10).
  - rewrite N_ascii_embedding by lia. lia.
  - rewrite N_ascii_embedding by lia. lia.
Qed.

(** The ids that [put] derives are not enumerated. *)
Lemma leafId_excluded piece t :
  t ∈ targets → in_target t (leafId E options piece) = false.
Proof.
  intros Ht. unfold leafId. apply targets_exclude; [now left| | |assumption].
  - unfold hashedPiece. destruct (truthy (passphrase options)); [discriminate|].
    destruct (toString36_head (xxhash64 E
      (piece +:+ "-" +:+ toString10 (js_length piece)))) as (d & rest & _ & ->).
    discriminate.
  - unfold hashedPiece, slt. destruct (truthy (passphrase options)).
    + reflexivity.
    + destruct (toString36_head (xxhash64 E
        (piece +:+ "-" +:+ toString10 (js_length piece)))) as (d & rest & Hd & ->).
      unfold u10ffff. rewrite compare_cons. unfold Ascii.compare.
      apply digit36_below in Hd.
      destruct (N.compare_spec (N_of_ascii (digit36 d)) (N_of_ascii "244"));
        [..|reflexivity|]; simpl in *; lia.
Qed.

(** C7, amended.  The five key ranges are pairwise disjoint.  They hold no
    id that extends one of the prefixes [h:], [i:], [ix:], [ps:] by a
    non-empty suffix below U+10FFFF, so none of the leaf ids that [put]
    derives; they hold every other id up to U+10FFFF.  Against a server
    whose documents stay the same while it is enumerated, and which
    answers a range query with its documents in key order, no id is
    yielded twice. *)
Theorem enumeration_ranges :
  (∀ i j t1 t2 k,
     i ≠ j → targets !! i = Some t1 → targets !! j = Some t2 →
     in_target t1 k = true → in_target t2 k = false) ∧
  (∀ p s t,
     p ∈ reserved → s ≠ "" → slt s u10ffff → t ∈ targets →
     in_target t (p +:+ s) = false) ∧
  (∀ piece t, t ∈ targets → in_target t (leafId E options piece) = false) ∧
  (∀ k,
     sle k u10ffff →
     (∃ t, t ∈ targets ∧ in_target t k = true) ∨
     (∃ p s, p ∈ reserved ∧ k = p +:+ s ∧ s ≠ "" ∧ slt s u10ffff)) ∧
  (∀ fuel metaOnly s,
     Inv (world s) →
     NoDup (ids_of (enumerateAllNormalDocs E options fuel metaOnly s).1.1)).
Proof.
  split; [apply targets_disjoint|].
  split; [apply targets_exclude|].
  split; [apply leafId_excluded|].
  split; [apply targets_cover|].
  intros fuel metaOnly s HI. apply sorted_NoDup.
  now apply enumerate_targets_sorted; [apply targets_in_sequence|].
Qed.
End Enumeration.

Lemma couch_range startkey endkey w :
  Couch.range startkey endkey 100 w = page (documents w) startkey endkey.
Proof.
  unfold Couch.range, page, documents.
  change (Z.to_nat 100) with 100%nat. f_equal.
  induction (Couch.docs w) as [|[k d] l IH]; [reflexivity|].
  simpl. unfold Couch.between, in_target in *. simpl.
  destruct (String.leb startkey k && String.leb k endkey); simpl;
    now rewrite IH.
Qed.

Lemma couch_range_answer w0 : ∀ w startkey endkey,
  same_documents w0 w →
  ∃ w',
    fetch Couch.env (GetAllDocs startkey endkey 100) w
    = (Ok {| range_rows := Some (page (documents w0) startkey endkey) |}, w')
    ∧ same_documents w0 w'.
Proof.
  intros w startkey endkey Hw. exists w. split; [|assumption].
  cbn [fetch Couch.env Couch.serve]. rewrite couch_range.
  unfold documents. now rewrite Hw.
Qed.

Lemma couch_chunks_keep w0 : ∀ include_docs keys w res w',
  same_documents w0 w →
  fetch Couch.env (PostAllDocs include_docs keys) w = (res, w') →
  same_documents w0 w'.
Proof. intros include_docs keys w res w' Hw [= _ <-]. assumption. Qed.

(** C7, as stated, fails on two counts: the internal file id [i:a] is not
    a chunk id and is in none of the ranges, and the id [h:], which has
    the prefix [h:], is in the first. *)
Lemma enumeration_ranges_counterexample :
  (startsWith "i:a" "h:" = false ∧
   forallb (λ t, negb (in_target t "i:a")) targets = true) ∧
  (startsWith "h:" "h:" = true ∧ in_target ("", "h:") "h:" = true).
Proof. vm_compute. repeat split. Qed.

(** The server after two writes: its four documents are enumerated once
    each. *)
Lemma enumeration_ranges_witness :
  NoDup (ids_of (enumerateAllNormalDocs Couch.env (Couch.options None None)
                   5 false two_files).1.1).
Proof.
  assert (Hsorted : StronglySorted slt
                      (map fst (documents (State.world two_files)))).
  { vm_compute. repeat (constructor; [|repeat constructor; reflexivity]).
    constructor. }
  assert (Hids : ∀ k e,
    (k, DocEntry e) ∈ documents (State.world two_files) → Entry._id e = k).
  { intros k e H. vm_compute in H.
    repeat (apply elem_of_cons in H as [H|H]; [now inversion H|]).
    now apply elem_of_nil in H. }
  apply (proj2 (proj2 (proj2 (proj2
    (enumeration_ranges Couch.env (Couch.options None None)
       (documents (State.world two_files))
       (same_documents (State.world two_files))
       Hsorted Hids
       (couch_range_answer (State.world two_files))
       (couch_chunks_keep (State.world two_files))))))).
  reflexivity.
Defined.

(** ** Scenarios *)

(** The chunk size is computed on floats: 102400 without
    [customChunkSize]; at [customChunkSize = 13], where [13 * 0.1 + 1]
    rounds below [2.3], it is 235519 and not 235520. *)
Example maxChunkSize_rounds :
  maxChunkSize (Couch.options None None) = Number.of_Z 102400 ∧
  maxChunkSize
    (Options.mk "http://localhost:5984" "user" "password" None "vault" None
       None (Some 13) None None)
  = Number.of_Z 235519 ∧
  Number.of_Z 235519 ≠ Number.of_Z 235520.
Proof. vm_compute. repeat split. discriminate. Qed.

(** After a write and a [delete], the metadata reads [deleted], of size 0
    and without children; a second [delete] answers [true] and only reads. *)
Example tombstone_scenario :
  let options := Couch.options None None in
  ∃ e,
    (get Couch.env options "t.md" true (Couch.fresh (State.world deleted_once))).1
    = Ok (Some e) ∧
    Entry.deleted e = Some true ∧ Entry.size e = 0 ∧ Entry.children e = [] ∧
    Entry.ctime e = 1 ∧ Entry.mtime e = 1000 ∧ Entry._rev e = Some "2-r" ∧
    (delete Couch.env options "t.md" (Couch.fresh (State.world deleted_once))).1
    = Ok true ∧
    State.requests
      (delete Couch.env options "t.md" (Couch.fresh (State.world deleted_once))).2
    = [GetDoc "t.md"].
Proof. eexists. vm_compute. repeat split. Qed.

(** The enumeration reads one page of 100 rows, asks for the next page from
    the last key of that page followed by U+10FFFF, and ends: [d199z], which
    extends that key, is not yielded. *)
Example page_boundary :
  let r := enumerateAllNormalDocs Couch.env (Couch.options None None) 5 true
             (Couch.fresh crowded) in
  r.1.2 = Done ∧
  ids_of r.1.1 = hundred ∧
  Couch.lookup "d199z" (Couch.docs crowded) = Some (file "d199z").
Proof. vm_compute. repeat split. Qed.

(** * Further properties *)

(** ** The request that [_fetch] builds *)

Lemma below_forallb (f : N → bool) (n : nat) :
  forallb f (map N.of_nat (seq 0 n)) = true →
  ∀ x, (x < N.of_nat n)%N → f x = true.
Proof.
  intros H x Hx. rewrite forallb_forall in H. apply H.
  apply in_map_iff. exists (N.to_nat x). split; [lia|].
  apply in_seq. lia.
Qed.

Lemma byte_below c : (N_of_ascii c < 256)%N.
Proof. apply N_ascii_bounded. Qed.

Lemma base64_value_digit x :
  (x < 64)%N →
  base64_value (base64_digit x) = Some x ∧
  Ascii.eqb (base64_digit x) pad = false.
Proof.
  intros Hx.
  apply (below_forallb
    (λ x, bool_decide (base64_value (base64_digit x) = Some x)
          && negb (Ascii.eqb (base64_digit x) pad)) 64) in Hx;
    [|vm_compute; reflexivity].
  apply andb_true_iff in Hx as [H1 H2].
  apply bool_decide_eq_true in H1. apply negb_true_iff in H2. now split.
Qed.

Ltac euclid := intros; zify; Z.to_euclidean_division_equations; lia.

Lemma ascii_of_N_of n a : n = N_of_ascii a → ascii_of_N n = a.
Proof. intros ->. apply ascii_N_embedding. Qed.

(** The four digits of three bytes, and the bytes back. *)
Lemma sextets a b c :
  (a < 256 → b < 256 → c < 256 →
   a / 4 < 64 ∧ a mod 4 * 16 < 64 ∧ a mod 4 * 16 + b / 16 < 64 ∧
   b mod 16 * 4 < 64 ∧ b mod 16 * 4 + c / 64 < 64 ∧ c mod 64 < 64 ∧
   a / 4 * 4 + a mod 4 * 16 / 16 = a ∧
   a / 4 * 4 + (a mod 4 * 16 + b / 16) / 16 = a ∧
   (a mod 4 * 16 + b / 16) mod 16 * 16 + b mod 16 * 4 / 4 = b ∧
   (a mod 4 * 16 + b / 16) mod 16 * 16 + (b mod 16 * 4 + c / 64) / 4 = b ∧
   (b mod 16 * 4 + c / 64) mod 4 * 64 + c mod 64 = c)%N.
Proof. intros. repeat split; euclid. Qed.

Lemma unbase64_base64_bounded n : ∀ bytes,
  (String.length bytes ≤ n)%nat → unbase64 (base64 bytes) = Some bytes.
Proof.
  induction n as [|n IH]; intros bytes Hlen.
  - destruct bytes; [reflexivity|simpl in Hlen; lia].
  - destruct bytes as [|a [|b [|c rest]]]; [reflexivity|..].
    + destruct (sextets (N_of_ascii a) 0 0 (byte_below a))
        as (H1 & H2 & _ & _ & _ & _ & H3 & _); [lia..|].
      cbn [base64 unbase64].
      destruct (base64_value_digit _ H1) as [-> _].
      destruct (base64_value_digit _ H2) as [-> _].
      cbn. now rewrite (ascii_of_N_of _ a) by exact H3.
    + destruct (sextets (N_of_ascii a) (N_of_ascii b) 0
                  (byte_below a) (byte_below b))
        as (H1 & _ & H2 & H3 & _ & _ & _ & H4 & H5 & _); [lia|].
      cbn [base64 unbase64].
      destruct (base64_value_digit _ H1) as [-> _].
      destruct (base64_value_digit _ H2) as [-> _].
      destruct (base64_value_digit _ H3) as [-> ->].
      cbn. rewrite (ascii_of_N_of _ a) by exact H4.
      now rewrite (ascii_of_N_of _ b) by exact H5.
    + destruct (sextets (N_of_ascii a) (N_of_ascii b) (N_of_ascii c)
                  (byte_below a) (byte_below b) (byte_below c))
        as (H1 & _ & H2 & _ & H3 & H4 & _ & H5 & _ & H6 & H7).
      cbn [base64 unbase64].
      destruct (base64_value_digit _ H1) as [-> _].
      destruct (base64_value_digit _ H2) as [-> _].
      destruct (base64_value_digit _ H3) as [-> ->].
      destruct (base64_value_digit _ H4) as [-> ->].
      rewrite IH by (simpl in Hlen; lia). cbn.
      rewrite (ascii_of_N_of _ a) by exact H5.
      rewrite (ascii_of_N_of _ b) by exact H6.
      now rewrite (ascii_of_N_of _ c) by exact H7.
Qed.

Lemma unbase64_base64 bytes : unbase64 (base64 bytes) = Some bytes.
Proof. now apply (unbase64_base64_bounded (String.length bytes)). Qed.

Lemma latin1_ascii s : ascii_only s → latin1 s = Some s.
Proof.
  unfold ascii_only. induction s as [|c s IH]; [reflexivity|].
  cbn [list_ascii_of_string latin1]. intros H.
  inversion H as [|? ? Hc Hs]; subst.
  rewrite Hc, IH by assumption. reflexivity.
Qed.

(** In the browser and elsewhere, a character from U+0080 to U+00FF is
    not encoded alike. *)
Example base64encode_latin1 :
  base64encode true (String "195" (String "169" "")) = Ok "6Q==" ∧
  base64encode false (String "195" (String "169" "")) = Ok "w6k=" ∧
  base64encode true (String "226" (String "130" (String "172" "")))
  = Throw "InvalidCharacterError".
Proof. repeat split. Qed.

Lemma hex_value_digit x :
  (x < 16)%N →
  hex_value (hex_digit x) = Some x ∧ unreserved (hex_digit x) = true.
Proof.
  intros Hx.
  apply (below_forallb
    (λ x, bool_decide (hex_value (hex_digit x) = Some x)
          && unreserved (hex_digit x)) 16) in Hx;
    [|vm_compute; reflexivity].
  apply andb_true_iff in Hx as [H1 H2].
  apply bool_decide_eq_true in H1. now split.
Qed.

(** A character that stays is none of the delimiters of a URI. *)
Lemma segment_char_delimiter c :
  segment_char c = true →
  Ascii.eqb c "/" = false ∧ Ascii.eqb c "?" = false ∧
  Ascii.eqb c "&" = false ∧ Ascii.eqb c "=" = false ∧
  Ascii.eqb c "#" = false.
Proof.
  destruct c as [[] [] [] [] [] [] [] []]; vm_compute;
    intros H; repeat split; try reflexivity; discriminate.
Qed.

Lemma unreserved_not_percent c :
  unreserved c = true → Ascii.eqb c "%" = false.
Proof.
  destruct c as [[] [] [] [] [] [] [] []]; vm_compute;
    intros H; try reflexivity; discriminate.
Qed.


Lemma chars_app P a b : chars P a → chars P b → chars P (a +:+ b).
Proof.
  unfold chars. induction a as [|c a IH]; [intros _ H; exact H|].
  rewrite append_cons. cbn [list_ascii_of_string]. intros Ha Hb.
  inversion Ha; subst. constructor; [assumption|]. now apply IH.
Qed.

Lemma chars_impl (P Q : ascii → bool) s :
  (∀ c, P c = true → Q c = true) → chars P s → chars Q s.
Proof. intros H Hs. eapply Forall_impl; [exact Hs|exact H]. Qed.

Lemma encodeURIComponent_chars s : chars segment_char (encodeURIComponent s).
Proof.
  unfold chars, segment_char. induction s as [|c s IH]; [constructor|].
  cbn [encodeURIComponent].
  destruct (unreserved c) eqn:Hc; cbn [list_ascii_of_string].
  - constructor; [now rewrite Hc|assumption].
  - pose proof (byte_below c).
    destruct (hex_value_digit (N_of_ascii c / 16)) as [_ H1];
      [apply N.Div0.div_lt_upper_bound; lia|].
    destruct (hex_value_digit (N_of_ascii c mod 16)) as [_ H2];
      [apply N.mod_upper_bound; lia|].
    repeat constructor; [now rewrite H1|now rewrite H2|assumption].
Qed.

Lemma unescape_encodeURIComponent s :
  unescape (encodeURIComponent s) = Some s.
Proof.
  induction s as [|c s IH]; [reflexivity|].
  cbn [encodeURIComponent].
  destruct (unreserved c) eqn:Hc.
  - cbn [unescape]. rewrite (unreserved_not_percent c Hc), IH. reflexivity.
  - pose proof (byte_below c).
    destruct (hex_value_digit (N_of_ascii c / 16)) as [H1 _];
      [apply N.Div0.div_lt_upper_bound; lia|].
    destruct (hex_value_digit (N_of_ascii c mod 16)) as [H2 _];
      [apply N.mod_upper_bound; lia|].
    cbn [unescape]. rewrite Ascii.eqb_refl, H1, H2, IH. cbn.
    rewrite (ascii_of_N_of _ c); [reflexivity|].
    rewrite (N.div_mod (N_of_ascii c) 16) at 3 by lia. lia.
Qed.


Lemma split_at_none sep s : chars (other_than sep) s → split_at sep s = [s].
Proof.
  unfold chars, other_than. induction s as [|c s IH]; [reflexivity|].
  cbn [list_ascii_of_string split_at]. intros H. inversion H as [|? ? Hc Hs]; subst.
  apply negb_true_iff in Hc. rewrite Hc, IH by assumption. reflexivity.
Qed.

Lemma split_at_app sep a b :
  chars (other_than sep) a →
  split_at sep (a +:+ String sep b) = a :: split_at sep b.
Proof.
  unfold chars, other_than. induction a as [|c a IH].
  - intros _. rewrite append_empty. cbn [split_at].
    now rewrite Ascii.eqb_refl.
  - rewrite append_cons. cbn [list_ascii_of_string split_at]. intros H.
    inversion H as [|? ? Hc Hs]; subst.
    apply negb_true_iff in Hc. rewrite Hc, IH by assumption. reflexivity.
Qed.

Lemma cut_at_none sep s : chars (other_than sep) s → cut_at sep s = None.
Proof.
  unfold chars, other_than. induction s as [|c s IH]; [reflexivity|].
  cbn [list_ascii_of_string cut_at]. intros H. inversion H as [|? ? Hc Hs]; subst.
  apply negb_true_iff in Hc. rewrite Hc, IH by assumption. reflexivity.
Qed.

Lemma cut_at_app sep a b :
  chars (other_than sep) a → cut_at sep (a +:+ String sep b) = Some (a, b).
Proof.
  unfold chars, other_than. induction a as [|c a IH].
  - intros _. rewrite append_empty. cbn [cut_at].
    now rewrite Ascii.eqb_refl.
  - rewrite append_cons. cbn [list_ascii_of_string cut_at]. intros H.
    inversion H as [|? ? Hc Hs]; subst.
    apply negb_true_iff in Hc. rewrite Hc, IH by assumption. reflexivity.
Qed.

Lemma concat_cons sep x y l :
  String.concat sep (x :: y :: l) = x +:+ sep +:+ String.concat sep (y :: l).
Proof. reflexivity. Qed.

Lemma split_at_concat sep l :
  l ≠ [] → Forall (chars (other_than sep)) l →
  split_at sep (String.concat (String sep "") l) = l.
Proof.
  induction l as [|x [|y l] IH]; [contradiction|..]; intros _ H.
  - inversion H; subst. now apply split_at_none.
  - inversion H as [|? ? Hx Hrest]; subst. rewrite concat_cons.
    rewrite append_cons, append_empty.
    rewrite split_at_app by assumption. f_equal. now apply IH.
Qed.

Lemma chars_concat P sep l :
  chars P sep → Forall (chars P) l → chars P (String.concat sep l).
Proof.
  intros Hsep. induction l as [|x [|y l] IH]; intros H.
  - constructor.
  - now inversion H.
  - inversion H; subst. rewrite concat_cons.
    apply chars_app; [assumption|]. apply chars_app; [assumption|].
    now apply IH.
Qed.

Lemma encoded_other_than sep s :
  segment_char sep = false → chars (other_than sep) (encodeURIComponent s).
Proof.
  intros Hsep. eapply chars_impl; [|apply encodeURIComponent_chars].
  intros c Hc. unfold other_than. apply negb_true_iff.
  destruct (Ascii.eqb_spec c sep) as [->|]; [congruence|reflexivity].
Qed.

Lemma all_some_map {A B} (f : A → option B) (g : A → B) l :
  (∀ a, f a = Some (g a)) → all_some (map f l) = Some (map g l).
Proof.
  intros H. induction l as [|a l IH]; [reflexivity|].
  cbn [map all_some]. now rewrite H, IH.
Qed.

Lemma all_some_unescape path :
  all_some (map unescape (map encodeURIComponent path)) = Some path.
Proof.
  rewrite map_map.
  rewrite (all_some_map _ id) by (intros; apply unescape_encodeURIComponent).
  now rewrite map_id.
Qed.

Lemma chop_app p s : chop p (p +:+ s) = Some s.
Proof.
  induction p as [|c p IH]; [reflexivity|].
  rewrite append_cons. cbn [chop]. now rewrite Ascii.eqb_refl.
Qed.

Lemma append_one c r : String c "" +:+ r = String c r.
Proof. now rewrite append_cons, append_empty. Qed.


Lemma parse_parameter_ok e :
  parse_parameter (parameter e) = Some (e.1, ToString e.2).
Proof.
  unfold parse_parameter, parameter. rewrite append_one.
  rewrite cut_at_app by (now apply encoded_other_than).
  now rewrite !unescape_encodeURIComponent.
Qed.

Lemma parameter_chars sep e :
  segment_char sep = false → Ascii.eqb "=" sep = false →
  chars (other_than sep) (parameter e).
Proof.
  intros Hsep Heq. unfold parameter.
  apply chars_app; [now apply encoded_other_than|].
  apply chars_app; [|now apply encoded_other_than].
  repeat constructor. unfold other_than. now rewrite Heq.
Qed.

Lemma parse_query_of querySrc :
  querySrc ≠ [] →
  parse_query (query_of querySrc)
  = Some (map (λ e, (e.1, ToString e.2)) querySrc).
Proof.
  intros Hne. unfold parse_query, query_of, Obj.entries.
  change (λ e : string * JsonValue,
            encodeURIComponent e.1 +:+ "=" +:+ encodeURIComponent (ToString e.2))
    with parameter.
  rewrite split_at_concat.
  - rewrite map_map. apply all_some_map. apply parse_parameter_ok.
  - now destruct querySrc.
  - apply Forall_forall. intros x Hx.
    apply list_elem_of_In, in_map_iff in Hx as (e & <- & _).
    now apply parameter_chars.
Qed.

Lemma query_of_nonempty querySrc :
  querySrc ≠ [] → String.eqb (query_of querySrc) "" = false.
Proof.
  destruct querySrc as [|e l]; [contradiction|]. intros _.
  unfold query_of, Obj.entries.
  assert (H : ∀ x r, String.eqb (x +:+ "=" +:+ r) "" = false).
  { intros x r. destruct x; reflexivity. }
  destruct l as [|e' l]; cbn [map].
  - apply H.
  - rewrite concat_cons. rewrite !append_assoc. apply H.
Qed.

(** X1.  The [authorization] header of every request is [Basic] and the
    base64 of [username:password]: outside a browser for any credentials,
    in a browser for credentials of ASCII characters.  In a browser,
    credentials with a character above U+00FF make [_fetch] throw before
    any request is sent. *)
Theorem authorization_carries_credentials {B} (options : Options.t)
    (window_btoa : bool) (path : list string) (querySrc : Obj.t JsonValue)
    (method : Method) (body : option B) :
  let credentials :=
    Options.username options +:+ ":" +:+ Options.password options in
  (window_btoa = false ∨ ascii_only credentials →
   ∃ req token,
     _fetch options window_btoa path querySrc method body = Ok req ∧
     authorization (headers req) = "Basic " +:+ token ∧
     unbase64 token = Some credentials ∧
     content_type (headers req) = "application/json") ∧
  (window_btoa = true → latin1 credentials = None →
   _fetch options window_btoa path querySrc method body
   = Throw "InvalidCharacterError").
Proof.
  intros credentials. split.
  - intros H. unfold _fetch, base64encode. fold credentials.
    assert (Henc :
      (if window_btoa
       then match latin1 credentials with
            | Some bytes => Ok (base64 bytes)
            | None => Throw "InvalidCharacterError"
            end
       else Ok (base64 credentials)) = Ok (base64 credentials)).
    { destruct window_btoa; [|reflexivity].
      destruct H as [H|H]; [discriminate|].
      now rewrite latin1_ascii. }
    rewrite Henc. eexists _, (base64 credentials).
    split; [reflexivity|]. cbn [headers authorization content_type].
    split; [reflexivity|]. split; [apply unbase64_base64|reflexivity].
  - intros -> Hnone. unfold _fetch, base64encode. fold credentials.
    now rewrite Hnone.
Qed.

Lemma authorization_carries_credentials_witness :
  ∃ req token,
    _fetch (Couch.options None None) true ["a.md"] [] GET (@None unit) = Ok req ∧
    authorization (headers req) = "Basic " +:+ token ∧
    unbase64 token = Some "user:password" ∧
    content_type (headers req) = "application/json".
Proof.
  apply (proj1 (authorization_carries_credentials (Couch.options None None)
                  true ["a.md"] [] GET (@None unit))).
  right. repeat constructor.
Defined.

(** X2.  The request URI reads back: after the address of the database
    come the segments of the path, percent-encoded and joined by [/],
    then, when there are parameters, [?] and the parameters as
    [name=value] joined by [&].  No segment, name or value is split or
    merged, whatever characters it holds. *)
Theorem request_uri_reads_back (options : Options.t) (path : list string)
    (querySrc : Obj.t JsonValue) :
  path ≠ [] →
  parse_uri options (uri_of options path querySrc)
  = Some (path, map (λ e, (e.1, ToString e.2)) querySrc).
Proof.
  intros Hpath. unfold parse_uri, uri_of.
  set (base := Options.url options +:+ "/" +:+ Options.database options +:+ "/").
  set (p := String.concat "/" (map encodeURIComponent path)).
  replace (Options.url options +:+ "/" +:+ Options.database options +:+ "/"
           +:+ p +:+ (if negb (String.eqb (query_of querySrc) "")
                      then "?" +:+ query_of querySrc else ""))
    with (base +:+ p +:+ (if negb (String.eqb (query_of querySrc) "")
                          then "?" +:+ query_of querySrc else ""))
    by (unfold base; now rewrite !append_assoc).
  rewrite chop_app.
  assert (Hp : chars (other_than "?") p).
  { apply chars_concat; [repeat constructor|].
    apply Forall_forall. intros x Hx.
    apply list_elem_of_In, in_map_iff in Hx as (e & <- & _).
    now apply encoded_other_than. }
  assert (Hsplit : split_at "/" p = map encodeURIComponent path).
  { apply split_at_concat; [now destruct path|].
    apply Forall_forall. intros x Hx.
    apply list_elem_of_In, in_map_iff in Hx as (e & <- & _).
    now apply encoded_other_than. }
  destruct querySrc as [|e l].
  - cbn. rewrite append_empty_r.
    rewrite cut_at_none, Hsplit, all_some_unescape by assumption.
    reflexivity.
  - rewrite query_of_nonempty by discriminate. cbn [negb].
    rewrite append_one, cut_at_app, Hsplit, all_some_unescape by assumption.
    now rewrite parse_query_of by discriminate.
Qed.

Lemma request_uri_reads_back_witness :
  parse_uri (Couch.options None None)
    (uri_of (Couch.options None None) ["a/b?c.md"]
       [("startkey", JStr "x&y=z"); ("limit", JNum 100)])
  = Some (["a/b?c.md"], [("startkey", "x&y=z"); ("limit", "100")]).
Proof.
  apply (request_uri_reads_back (Couch.options None None) ["a/b?c.md"]
           [("startkey", JStr "x&y=z"); ("limit", JNum 100)]).
  discriminate.
Defined.

(** The URI of a document with an id that holds delimiters. *)
Example uri_of_document :
  uri_of (Couch.options None None) ["h:+a/b?c"] []
  = "http://localhost:5984/vault/h%3A%2Ba%2Fb%3Fc".
Proof. reflexivity. Qed.

(** X3.  [enumerate] sends none of its conditions and not the key it
    pages with: they are passed as the body of a [GET], which [_fetch]
    drops.  Every request of its loop is the plain [GET] of [_all_docs],
    the request that [getById] makes for the id [_all_docs]. *)
Theorem enumerate_sends_no_condition (options : Options.t)
    (window_btoa : bool) (cond : EnumerateConditions) (key : option string) :
  enumerate_request options window_btoa cond key
  = getById_request options window_btoa "_all_docs" ∧
  match enumerate_request options window_btoa cond key with
  | Ok req =>
      requestURI req
      = Options.url options +:+ "/" +:+ Options.database options
        +:+ "/_all_docs"
      ∧ method req = GET ∧ body req = None
  | Throw _ => window_btoa = true
  end.
Proof.
  split; [reflexivity|].
  unfold enumerate_request, _fetch, base64encode.
  destruct window_btoa.
  - destruct (latin1 _); [|reflexivity].
    cbn [requestURI method body]. repeat split.
  - cbn [requestURI method body]. repeat split.
Qed.

(** ** [unique] *)

Lemma unique_elem l x : x ∈ unique l ↔ x ∈ l.
Proof.
  induction l as [|y l IH]; [reflexivity|].
  cbn [unique]. rewrite !elem_of_cons, <- IH.
  rewrite !list_elem_of_In, filter_In, <- !list_elem_of_In.
  destruct (String.eqb_spec y x) as [->|Hne]; [tauto|].
  cbn [negb]. split; [tauto|]. intros [->|H]; [now left|right; tauto].
Qed.

Lemma unique_NoDup l : NoDup (unique l).
Proof.
  induction l as [|y l IH]; [constructor|].
  cbn [unique]. constructor.
  - rewrite list_elem_of_In, filter_In. intros [_ H].
    now rewrite String.eqb_refl in H.
  - now apply NoDup_ListNoDup, List.NoDup_filter, NoDup_ListNoDup.
Qed.

Lemma filter_all {A} (f : A → bool) l :
  Forall (λ x, f x = true) l → List.filter f l = l.
Proof.
  induction 1 as [|x l Hx _ IH]; [reflexivity|].
  cbn [List.filter]. now rewrite Hx, IH.
Qed.

Lemma unique_of_NoDup l : NoDup l → unique l = l.
Proof.
  induction 1 as [|y l Hy _ IH]; [reflexivity|].
  cbn [unique]. rewrite IH. f_equal. apply filter_all.
  apply Forall_forall. intros x Hx. apply negb_true_iff.
  destruct (String.eqb_spec y x) as [->|]; [contradiction|reflexivity].
Qed.

Lemma unique_sublist l : unique l `sublist_of` l.
Proof.
  induction l as [|y l IH]; [constructor|].
  cbn [unique]. apply sublist_skip.
  etransitivity; [apply filter_sublist|exact IH].
Qed.

Lemma unique_nil l : unique l = [] ↔ l = [].
Proof. destruct l; [tauto|]. split; discriminate. Qed.

Lemma filter_twice {A} (f g : A → bool) l :
  List.filter f (List.filter g l) = List.filter (λ x, g x && f x) l.
Proof.
  induction l as [|x l IH]; [reflexivity|]. cbn [List.filter].
  destruct (g x); cbn [List.filter andb]; [|exact IH].
  destruct (f x); now rewrite IH.
Qed.

(** The result for a list that goes on is the result for the list, and
    then what is new in the rest. *)
Lemma unique_app l l' :
  unique (l ++ l')
  = unique l ++ List.filter (λ y, negb (bool_decide (y ∈ l))) (unique l').
Proof.
  induction l as [|x l IH]; cbn [app unique].
  - symmetry. apply filter_all. apply Forall_forall. intros y _.
    rewrite bool_decide_false; [reflexivity|apply not_elem_of_nil].
  - rewrite IH, List.filter_app, filter_twice. do 2 f_equal.
    apply List.filter_ext. intros y.
    destruct (String.eqb_spec x y) as [->|Hne].
    + rewrite (bool_decide_true (y ∈ y :: l)) by now left.
      now rewrite andb_false_r.
    + rewrite andb_true_r. f_equal. apply bool_decide_ext.
      rewrite elem_of_cons. split; [tauto|]. intros [->|H]; [contradiction|].
      exact H.
Qed.

(** X4.  [unique] keeps one occurrence of every element, the first, in
    the order of the list.  Its result has no repetition, holds the
    elements of the list and no other, is a sublist of the list, which
    it leaves as it is when nothing repeats (so applying it again
    changes nothing).  And it is the first occurrence that stays: when a
    list goes on, the result for the list stays as it is, and of the
    rest only what the list did not hold is added, so that an element
    that comes again later keeps the place of its first occurrence. *)
Theorem unique_first_occurrences (l l' : list string) (x : string) :
  NoDup (unique l) ∧
  (∀ x, x ∈ unique l ↔ x ∈ l) ∧
  unique l `sublist_of` l ∧
  unique (unique l) = unique l ∧
  (unique l = [] ↔ l = []) ∧
  unique (l ++ l')
  = unique l ++ List.filter (λ y, negb (bool_decide (y ∈ l))) (unique l') ∧
  unique (l ++ x :: l')
  = if bool_decide (x ∈ l) then unique (l ++ l')
    else unique l ++ x
           :: List.filter (λ y, negb (bool_decide (y ∈ l ++ [x]))) (unique l').
Proof.
  split; [apply unique_NoDup|]. split; [apply unique_elem|].
  split; [apply unique_sublist|].
  split; [apply unique_of_NoDup, unique_NoDup|].
  split; [apply unique_nil|]. split; [apply unique_app|].
  rewrite !unique_app. cbn [unique List.filter].
  destruct (decide (x ∈ l)) as [Hin|Hout].
  - rewrite !bool_decide_true by assumption. cbn [negb]. f_equal.
    rewrite filter_twice. apply List.filter_ext. intros y.
    destruct (String.eqb_spec x y) as [<-|]; [|reflexivity].
    now rewrite bool_decide_true.
  - rewrite !bool_decide_false by assumption. cbn [negb]. do 2 f_equal.
    rewrite filter_twice. apply List.filter_ext. intros y.
    destruct (String.eqb_spec x y) as [<-|Hne]; cbn [negb andb].
    + rewrite (bool_decide_true (x ∈ l ++ [x]));
        [reflexivity|apply elem_of_app; right; now left].
    + f_equal. apply bool_decide_ext. rewrite elem_of_app.
      rewrite list_elem_of_singleton. split; [tauto|].
      intros [H| ->]; [exact H|contradiction].
Qed.

(** The later [a] makes no difference, and [b] stays behind the first. *)
Example unique_keeps_the_first :
  unique ["a"; "b"; "a"] = ["a"; "b"].
Proof. reflexivity. Qed.

(** ** What a leaf id stands for *)

Lemma chars_app_inv P a b : chars P (a +:+ b) → chars P a ∧ chars P b.
Proof.
  unfold chars. induction a as [|c a IH].
  - rewrite append_empty. intros H. split; [constructor|assumption].
  - rewrite append_cons. cbn [list_ascii_of_string]. intros H.
    inversion H as [|? ? Hc Hrest]; subst.
    destruct (IH Hrest). split; [now constructor|assumption].
Qed.

(** A text ends in one way with a character and a text without it. *)
Lemma last_occurrence sep a : ∀ b d1 d2,
  chars (other_than sep) d1 → chars (other_than sep) d2 →
  a +:+ String sep d1 = b +:+ String sep d2 → a = b ∧ d1 = d2.
Proof.
  assert (Habsurd : ∀ b d1 d2,
    chars (other_than sep) d1 → d1 = b +:+ String sep d2 → False).
  { intros b d1 d2 H ->. apply chars_app_inv in H as [_ H].
    inversion H as [|? ? Hc _]; subst. unfold other_than in Hc.
    now rewrite Ascii.eqb_refl in Hc. }
  induction a as [|c a IH]; intros [|c' b] d1 d2 H1 H2;
    rewrite ?append_empty, ?append_cons.
  - now intros [= ->].
  - intros [= <- Hd]. now destruct (Habsurd _ _ _ H1 Hd).
  - intros [= -> Hd]. symmetry in Hd. now destruct (Habsurd _ _ _ H2 Hd).
  - intros [= -> Hrest]. now destruct (IH _ _ _ H1 H2 Hrest) as [-> ->].
Qed.

Lemma render_chars P base digit fuel : ∀ n acc,
  (0 < base)%N → (∀ d, (d < base)%N → P (digit d) = true) →
  chars P acc → chars P (render base digit fuel n acc).
Proof.
  induction fuel as [|fuel IH]; intros n acc Hbase Hdigit Hacc; [assumption|].
  cbn [render].
  assert (Hacc' : chars P (String (digit (n mod base)%N) acc)).
  { constructor; [|assumption]. apply Hdigit. apply N.mod_upper_bound. lia. }
  destruct (n / base =? 0)%N; [assumption|]. now apply IH.
Qed.

Lemma toString10_digits n : chars (other_than "-") (toString10 n).
Proof.
  apply render_chars; [lia| |constructor].
  intros d Hd.
  apply (below_forallb (λ d, other_than "-" (digit10 d)) 10);
    [vm_compute; reflexivity|assumption].
Qed.

Lemma append_inv_head a : ∀ b c, a +:+ b = a +:+ c → b = c.
Proof.
  induction a as [|x a IH]; intros b c; rewrite ?append_empty, ?append_cons.
  - tauto.
  - intros [= H]. now apply IH.
Qed.

Lemma append_inv_tail a b c : a +:+ c = b +:+ c → a = b.
Proof.
  revert b. induction a as [|x a IH]; intros [|y b];
    rewrite ?append_empty, ?append_cons.
  - reflexivity.
  - intros H. apply (f_equal String.length) in H.
    rewrite <- append_cons, length_append in H. simpl in H. lia.
  - intros H. apply (f_equal String.length) in H.
    rewrite <- append_cons, length_append in H. simpl in H. lia.
  - intros [= -> H]. f_equal. now apply IH.
Qed.

Lemma regroup x y z :
  x +:+ "-" +:+ y +:+ "-" +:+ z = (x +:+ "-" +:+ y) +:+ String "-" z.
Proof. rewrite !append_assoc. now rewrite (append_one "-" z). Qed.

Lemma hash_input_inj options p q :
  hash_input options p = hash_input options q → p = q.
Proof.
  unfold hash_input. destruct (truthy (passphrase options)).
  - rewrite (regroup p), (regroup q). intros H.
    apply last_occurrence in H as [H _]; [|apply toString10_digits..].
    now apply append_inv_tail in H.
  - rewrite !append_one. intros H.
    now apply last_occurrence in H as [H _]; [|apply toString10_digits..].
Qed.

Lemma toString36_inj a b : toString36 a = toString36 b → a = b.
Proof.
  intros H. rewrite <- (toString36_value a), <- (toString36_value b).
  now rewrite H.
Qed.

Lemma leafId_hash_input E options piece :
  leafId E options piece
  = "h:" +:+ (if truthy (passphrase options) then "+" else "")
    +:+ toString36 (xxhash64 E (hash_input options piece)).
Proof.
  unfold leafId, hashedPiece, hash_input.
  destruct (truthy (passphrase options)); [reflexivity|].
  now rewrite append_empty.
Qed.

(** X5.  The leaf id of a piece is the base-36 text of the hash of one
    text, which holds the piece, the passphrase when there is one, and
    the length of the piece.  Two pieces get the same id exactly when
    these texts have the same hash, and the texts of two different
    pieces differ: ids collide only where the hash does. *)
Theorem leaf_id_collides_with_hash (E : Env) (options : Options.t)
    (p q : string) :
  (leafId E options p = leafId E options q ↔
   xxhash64 E (hash_input options p) = xxhash64 E (hash_input options q)) ∧
  (hash_input options p = hash_input options q ↔ p = q).
Proof.
  split.
  - rewrite !leafId_hash_input. split.
    + intros H. apply append_inv_head in H. apply append_inv_head in H.
      now apply toString36_inj.
    + now intros ->.
  - split; [apply hash_input_inj|now intros ->].
Qed.

(** ** The requests of [_collectChunks] and of [get] *)

Section Reads.
Variable E : Env.
Variable options : Options.t.

Import State.

Lemma silent_requests {A} (m : M E A) s :
  silent m → requests (m s).2 = requests s.
Proof.
  intros H. destruct (m s) as [r s'] eqn:Hm.
  destruct (H s r s' Hm) as (new & Hreq & Hnew). cbn [snd]. rewrite Hreq.
  destruct new; [apply app_nil_r|discriminate].
Qed.

Lemma bind_silent {A B} (m : M E A) (f : A → M E B) s :
  (∀ a, silent (f a)) → requests ((m ≫= f) s).2 = requests (m s).2.
Proof.
  intros H. unfold mbind, M_bind.
  destruct (m s) as [[a|e] s1]; [|reflexivity].
  now apply silent_requests.
Qed.

Lemma silent_collect_rows b ret rs :
  silent (foldM (collect_row E options b) ret rs).
Proof. unfold silent. only_step. unfold collect_row. only_auto. Qed.

Lemma silent_decryptDocumentPath e : silent (decryptDocumentPath E options e).
Proof. apply only_decryptDocumentPath. Qed.

Lemma uncached_elem c ids k :
  k ∈ uncached c ids ↔ k ∈ ids ∧ is_cached c k = false.
Proof.
  unfold uncached. rewrite !list_elem_of_In, filter_In.
  now rewrite negb_true_iff.
Qed.

Lemma collectChunks_requests ids b s :
  requests (_collectChunks E options ids b s).2
  = requests s ++ chunk_request (negb b) (missing (hashCaches s) ids).
Proof.
  unfold _collectChunks, missing.
  destruct (collect_cached_fold E ids ([], []) s) as (ret & c' & Hrun & _).
  cbn [fst snd app] in Hrun.
  unfold mbind at 1, M_bind at 1. rewrite Hrun. cbn [fst snd].
  destruct (uncached (hashCaches s) ids) as [|k ks] eqn:Hun.
  - cbn. now rewrite app_nil_r.
  - cbn [length Nat.eqb].
    assert (Hne : unique (k :: ks) ≠ []) by (cbn [unique]; discriminate).
    destruct (unique (k :: ks)) as [|k' ks'] eqn:Hu; [contradiction|].
    rewrite bind_silent.
    + unfold _fetchJson. cbn [world requests].
      now destruct (fetch E _ _).
    + intros a. destruct (rows a); [apply silent_collect_rows|].
      unfold silent. only_auto.
Qed.

(** X6.  [_collectChunks] sends at most one request: none when the cache
    holds a text for every id, and else one [POST _all_docs], with
    [include_docs] unless only existence is asked, whose keys are the ids
    that the cache lacks, each once. *)
Theorem collectChunks_asks_once (ids : list string) (b : bool)
    (s : State.t (World E)) :
  requests (_collectChunks E options ids b s).2
  = requests s ++ chunk_request (negb b) (missing (hashCaches s) ids) ∧
  NoDup (missing (hashCaches s) ids) ∧
  (∀ k, k ∈ missing (hashCaches s) ids ↔
        k ∈ ids ∧ is_cached (hashCaches s) k = false).
Proof.
  split; [apply collectChunks_requests|].
  split; [apply unique_NoDup|].
  intros k. unfold missing. now rewrite unique_elem, uncached_elem.
Qed.

Lemma getByMeta_requests doc s :
  requests (getByMeta E options doc s).2
  = requests s
    ++ chunk_request true (missing (hashCaches s) (Entry.children doc)).
Proof.
  unfold getByMeta. rewrite bind_silent.
  - apply (collectChunks_requests _ false).
  - intros a. unfold silent. only_auto.
Qed.

Lemma getById_requests id metaOnly s :
  ∃ keys,
    requests (getById E options id metaOnly s).2
    = requests s ++ GetDoc id :: chunk_request true keys ∧
    NoDup keys ∧ (if metaOnly then keys = [] else True).
Proof.
  unfold getById, mbind, M_bind, _fetchJson.
  destruct (fetch E (GetDoc id) (world s)) as [[[e|]|msg] w1].
  - destruct (decryptDocumentPath E options e _) as [[doc|msg] s1] eqn:Hdec.
    + pose proof (silent_requests (decryptDocumentPath E options e)
                    (mk w1 (hashCaches s) (since s) (requests s ++ [GetDoc id]))
                    (silent_decryptDocumentPath e)) as Hreq.
      rewrite Hdec in Hreq. cbn [snd requests] in Hreq.
      destruct metaOnly.
      * exists []. unfold mret, M_ret. cbn [snd chunk_request].
        rewrite Hreq. repeat split. constructor.
      * exists (missing (hashCaches s1) (Entry.children doc)).
        pose proof (getByMeta_requests doc s1) as Hmeta.
        destruct (getByMeta E options doc s1) as [[ready|msg] s2];
          unfold mret, M_ret; cbn [snd] in *;
          rewrite Hmeta, Hreq, <- app_assoc;
          (repeat split; apply unique_NoDup).
    + pose proof (silent_requests (decryptDocumentPath E options e)
                    (mk w1 (hashCaches s) (since s) (requests s ++ [GetDoc id]))
                    (silent_decryptDocumentPath e)) as Hreq.
      rewrite Hdec in Hreq. cbn [snd requests] in Hreq.
      exists []. cbn [snd chunk_request]. rewrite Hreq.
      repeat split; [constructor|now destruct metaOnly].
  - exists []. unfold mret, M_ret. cbn.
    repeat split; [constructor|now destruct metaOnly].
  - exists []. cbn. repeat split; [constructor|now destruct metaOnly].
Qed.

(** X7.  [get] reads and never writes: it sends the [GET] of the id of
    the path and then at most one request, the [POST _all_docs] for the
    chunks that the cache lacks, with each key once.  With [metaOnly] it
    sends the [GET] alone. *)
Theorem get_reads_at_most_twice (path : string) (metaOnly : bool)
    (s : State.t (World E)) :
  ∃ keys,
    requests (get E options path metaOnly s).2
    = requests s
      ++ GetDoc (path2id_base E path (obfuscatePassphrase options))
         :: chunk_request true keys ∧
    NoDup keys ∧ (if metaOnly then keys = [] else True).
Proof.
  unfold get, path2id.
  unfold mbind at 1, M_bind at 1, mret at 1, M_ret at 1.
  apply getById_requests.
Qed.
End Reads.

(** ** Assembling an entry *)

Lemma foldM_invariant {E A B} (I : B → Prop) (f : B → A → M E B) l :
  (∀ b a s b' s', I b → f b a s = (Ok b', s') → I b') →
  ∀ b s b' s', I b → foldM f b l s = (Ok b', s') → I b'.
Proof.
  intros Hf. induction l as [|a l IH]; intros b s b' s' Hb; cbn [foldM].
  - now intros [= <- <-].
  - intros H. apply bind_inv in H as [(b1 & s1 & H1 & H2)|(e & _ & He)];
      [|discriminate].
    eapply IH; [|exact H2]. eapply Hf; eassumption.
Qed.

Section Assemble.
Variable E : Env.
Variable options : Options.t.

Import State.

Lemma obj_get_set_inv {V} (k c : string) (v x : V) (o : Obj.t V) :
  Obj.get c (Obj.set k v o) = Some x →
  (c = k ∧ k ≠ "__proto__" ∧ x = v) ∨ Obj.get c o = Some x.
Proof.
  destruct (String.eqb_spec k "__proto__") as [->|Hk]; [now right|].
  rewrite obj_get_set by assumption.
  destruct (String.eqb_spec c k) as [->|]; [|now right].
  intros [= <-]. now left.
Qed.

Lemma collect_cached_sources ids : ∀ acc s ret reqIds s',
  foldM (collect_cached E) acc ids s = (Ok (ret, reqIds), s') →
  of_cache (hashCaches s) acc.1 → of_cache (hashCaches s) ret.
Proof.
  induction ids as [|id ids IH]; intros acc s ret reqIds s'; cbn [foldM].
  - unfold mret, M_ret. now intros [= -> _].
  - intros H Hacc.
    apply bind_inv in H as [(acc1 & s1 & H1 & H2)|(e & _ & He)];
      [|discriminate].
    unfold collect_cached, mbind, M_bind, cache_get in H1.
    destruct (get_peek (Some id) (hashCaches s)) as [Hv Hc].
    destruct (LRUCache.get (Some id) (hashCaches s)) as [v c1].
    cbn [fst snd] in Hv, Hc.
    assert (Hcached : ∀ k, cached (hashCaches s1) k = cached (hashCaches s) k).
    { intros k. unfold cached.
      destruct v as [[str|]|]; unfold mret, M_ret in H1;
        injection H1 as <- <-; cbn [hashCaches]; now rewrite Hc. }
    assert (Hacc1 : of_cache (hashCaches s) acc1.1).
    { destruct v as [[str|]|]; unfold mret, M_ret in H1;
        injection H1 as <- _; cbn [fst]; [|assumption..].
      intros k x Hk. apply obj_get_set_inv in Hk as [(-> & Hid & ->)|Hk];
        [|now apply Hacc].
      exists str. repeat split; [assumption|].
      unfold cached. now rewrite <- Hv. }
    intros k x Hk.
    destruct (IH _ _ _ _ _ H2) with (k := k) (x := x) as (t & -> & Hp & Ht);
      [|assumption|].
    + intros k' x' Hk'. destruct (Hacc1 k' x' Hk') as (t & -> & Hp & Ht).
      exists t. now rewrite Hcached.
    + exists t. now rewrite <- Hcached.
Qed.

(** The second loop adds [false] and the texts of the rows. *)
Lemma collect_row_sources ret v s ret' s' :
  collect_row E options false ret v s = (Ok ret', s') →
  ∀ k x, Obj.get k ret' = Some x →
    Obj.get k ret = Some x ∨ x = IsBool false ∨
    ∃ t, row_key v = k ∧ k ≠ "__proto__" ∧ row_text E options v = Some t ∧
         x = IsStr t.
Proof.
  unfold collect_row, row_text.
  destruct (row_error v).
  - unfold mret, M_ret. intros [= <- <-] k x Hk.
    apply obj_get_set_inv in Hk as [(-> & _ & ->)|Hk]; auto.
  - cbn [negb]. destruct (row_doc v) as [doc|]; [|discriminate].
    destruct (bool_decide (doc_type doc = Some "leaf")); [|discriminate].
    cbn [negb]. destruct (doc_data doc) as [dataSrc|]; [|discriminate].
    unfold mbind, M_bind.
    destruct (truthy (passphrase options)).
    + unfold lift_result.
      destruct (decrypt E dataSrc _ _) as [data|e]; [|discriminate].
      unfold cache_set, mret, M_ret. intros [= <- <-] k x Hk.
      apply obj_get_set_inv in Hk as [(-> & Hp & ->)|Hk]; [|now left].
      right. right. now exists data.
    + unfold cache_set, mret, M_ret. intros [= <- <-] k x Hk.
      apply obj_get_set_inv in Hk as [(-> & Hp & ->)|Hk]; [|now left].
      right. right. now exists dataSrc.
Qed.

Lemma collect_rows_sources rs : ∀ ret s ret' s',
  foldM (collect_row E options false) ret rs s = (Ok ret', s') →
  ∀ k x, Obj.get k ret' = Some x →
    Obj.get k ret = Some x ∨ x = IsBool false ∨
    ∃ v t, v ∈ rs ∧ row_key v = k ∧ k ≠ "__proto__" ∧
           row_text E options v = Some t ∧ x = IsStr t.
Proof.
  induction rs as [|v rs IH]; intros ret s ret' s'; cbn [foldM].
  - unfold mret, M_ret. intros [= <- _] k x Hk. now left.
  - intros H k x Hk.
    apply bind_inv in H as [(ret1 & s1 & H1 & H2)|(e & _ & He)];
      [|discriminate].
    destruct (IH _ _ _ _ H2 k x Hk) as [Hk1|[->|(v' & t & Hv' & Hrest)]].
    + destruct (collect_row_sources _ _ _ _ _ H1 k x Hk1)
        as [Hk0|[->|(t & Hrest)]]; [now left|now right; left|].
      right. right. exists v, t. split; [now left|exact Hrest].
    + now right; left.
    + right. right. exists v', t. split; [now right|exact Hrest].
Qed.

(** The record that [getByMeta] reads: a key that it owns is bound to
    [false] or to a text of that key. *)
Lemma collectChunks_sources doc s chunks s' :
  _collectChunks E options (Entry.children doc) false s = (Ok chunks, s') →
  ∀ k x, Obj.get k chunks = Some x →
    x = IsBool false ∨
    ∃ t, x = IsStr t ∧ k ≠ "__proto__" ∧ text_from E options doc s k t.
Proof.
  unfold _collectChunks. intros H.
  destruct (collect_cached_fold E (Entry.children doc) ([], []) s)
    as (ret0 & c' & Hrun & _).
  assert (Hret0 : of_cache (hashCaches s) ret0).
  { eapply collect_cached_sources; [exact Hrun|]. intros k x. discriminate. }
  unfold mbind at 1, M_bind at 1 in H. rewrite Hrun in H.
  cbn [fst snd app] in H.
  destruct (length (uncached (hashCaches s) (Entry.children doc)) =? 0)%nat.
  - unfold mret, M_ret in H. injection H as <- _. intros k x Hk.
    destruct (Hret0 k x Hk) as (t & -> & Hp & Ht).
    right. exists t. repeat split; [assumption|now left].
  - unfold mbind, M_bind, _fetchJson in H. cbn [world negb] in H.
    destruct (fetch E _ (world s)) as [[apiRet|e] w'] eqn:Hfetch;
      [|discriminate].
    destruct apiRet as [[rs|]]; cbn [rows] in H; [|discriminate].
    intros k x Hk.
    destruct (collect_rows_sources _ _ _ _ _ H k x Hk)
      as [Hk0|[->|(v & t & Hv & Hkey & Hp & Htext & ->)]]; [|now left|].
    + destruct (Hret0 k x Hk0) as (t & -> & Hp & Ht).
      right. exists t. repeat split; [assumption|now left].
    + right. exists t. repeat split; [assumption|].
      right. now exists rs, w', v.
Qed.

(** X8.  An entry that [getByMeta] returns is the metadata it was given,
    with [data] one item for each of its [children], in their order, and
    never a [false] or a [true] among them.  The item of a child is a
    text of that child, one that the cache held for it or that a row of
    the answer carried under its key; for a child that names a member of
    [Object.prototype] and has no text in the record, as is always so of
    [__proto__], the item is that member. *)
Theorem loaded_entry_is_whole (doc : Entry.t) (s : State.t (World E)) :
  match getByMeta E options doc s with
  | (Ok ready, _) =>
      ∃ items,
        ready = Entry.with_data items doc ∧
        Forall2 (item_of E options doc s) (Entry.children doc) items
  | (Throw _, _) => True
  end.
Proof.
  destruct (getByMeta E options doc s) as [[ready|msg] s'] eqn:Hrun;
    [|exact I].
  unfold getByMeta in Hrun.
  apply bind_inv in Hrun as [(chunks & s1 & Hchunks & H)|(e & _ & He)];
    [|discriminate].
  pose proof (collectChunks_sources _ _ _ _ Hchunks) as Hsrc.
  destruct (existsb _ _) eqn:Hex; [discriminate|].
  injection H as <- <-. eexists. split; [reflexivity|].
  clear Hchunks. induction (Entry.children doc) as [|c cs IH];
    [constructor|].
  cbn [map existsb] in *. apply orb_false_iff in Hex as [Hc Hcs].
  constructor; [|now apply IH].
  apply bool_decide_eq_false in Hc.
  unfold chunk_or_false, read_sb in *.
  destruct (Obj.get c chunks) as [x|] eqn:Hget.
  - destruct (Hsrc c x Hget) as [->|(t & -> & Hp & Ht)]; [contradiction|].
    left. now exists t.
  - destruct (Obj.inherited c) eqn:Hin; [now right|contradiction].
Qed.

(** What the first loop of [_collectChunks] puts in the record: the text
    of every id that the cache holds. *)
Lemma collect_cached_values ids : ∀ acc s ret reqIds s',
  foldM (collect_cached E) acc ids s = (Ok (ret, reqIds), s') →
  (∀ k v, k ∈ ids → k ≠ "__proto__" → cached (hashCaches s) k = Some v →
          Obj.get k ret = Some (IsStr v)) ∧
  (∀ k, k ∉ ids → Obj.get k ret = Obj.get k acc.1).
Proof.
  induction ids as [|id ids IH]; intros acc s ret reqIds s'; cbn [foldM].
  - unfold mret, M_ret. intros [= -> _].
    split; [intros k v Hk; now apply elem_of_nil in Hk|reflexivity].
  - intros H. apply bind_inv in H as [(acc1 & s1 & H1 & H2)|(e & _ & He)];
      [|discriminate].
    unfold collect_cached, mbind, M_bind, cache_get in H1.
    destruct (get_peek (Some id) (hashCaches s)) as [Hv Hc].
    destruct (LRUCache.get (Some id) (hashCaches s)) as [v c1].
    cbn [fst snd] in Hv, Hc.
    assert (Hcached : ∀ k, cached (hashCaches s1) k = cached (hashCaches s) k).
    { intros k. unfold cached.
      destruct v as [[str|]|]; unfold mret, M_ret in H1;
        injection H1 as <- <-; cbn [hashCaches]; now rewrite Hc. }
    destruct (IH _ _ _ _ _ H2) as [Hin Hout].
    assert (Hacc1 : ∀ k, k ≠ id → Obj.get k acc1.1 = Obj.get k acc.1).
    { intros k Hk.
      destruct v as [[str|]|]; unfold mret, M_ret in H1;
        injection H1 as <- _; cbn [fst]; [|reflexivity..].
      now apply obj_get_set_other. }
    assert (Hid : ∀ str, id ≠ "__proto__" →
                   cached (hashCaches s) id = Some str →
                   Obj.get id acc1.1 = Some (IsStr str)).
    { intros str Hp. unfold cached. rewrite <- Hv. intros Hstr.
      destruct v as [[str'|]|]; try discriminate.
      cbn [mjoin] in Hstr. injection Hstr as ->.
      unfold mret, M_ret in H1. injection H1 as <- _. cbn [fst].
      rewrite obj_get_set by assumption. now rewrite String.eqb_refl. }
    split.
    + intros k v' Hk Hp Hkv.
      destruct (decide (k ∈ ids)) as [Hi|Hi].
      * apply Hin; [assumption..|]. now rewrite Hcached.
      * rewrite Hout by assumption.
        apply elem_of_cons in Hk as [->|Hk]; [|contradiction].
        now apply Hid.
    + intros k Hk. rewrite not_elem_of_cons in Hk. destruct Hk as [Hne Hk].
      rewrite Hout by assumption. now apply Hacc1.
Qed.

Lemma uncached_nil (c : HashCache) ids :
  Forall (λ id, is_cached c id = true) ids → uncached c ids = [].
Proof.
  unfold uncached. induction 1 as [|id ids Hid _ IH]; [reflexivity|].
  cbn [List.filter]. now rewrite Hid.
Qed.

(** X9.  When the cache holds a text for every child of an entry,
    [getByMeta] sends no request and does not reach the remote: it
    returns the entry with the texts of the cache, and the cache keeps
    its bindings.  (For a child named [__proto__], under which a record
    binds nothing, the item is the member of [Object.prototype] that
    reading the record gives, and not the text of the cache.) *)
Theorem cached_chunks_need_no_request (doc : Entry.t)
    (s : State.t (World E)) :
  Forall (λ c, is_cached (hashCaches s) c = true) (Entry.children doc) →
  ∃ c',
    getByMeta E options doc s
    = (Ok (Entry.with_data
             (map (λ c, if String.eqb c "__proto__" then IsMember c
                        else cached_text (hashCaches s) c)
                (Entry.children doc)) doc),
       mk (world s) c' (since s) (requests s)) ∧
    ∀ k, LRUCache.peek k c' = LRUCache.peek k (hashCaches s).
Proof.
  intros Hall. unfold getByMeta, _collectChunks.
  destruct (collect_cached_fold E (Entry.children doc) ([], []) s)
    as (ret & c' & Hrun & Hpeek & _).
  destruct (collect_cached_values _ _ _ _ _ _ Hrun) as [Hin _].
  assert (Hproto : Obj.get "__proto__" ret = None).
  { destruct (Obj.get "__proto__" ret) as [x|] eqn:Hget; [|reflexivity].
    assert (Hret : of_cache (hashCaches s) ret).
    { eapply collect_cached_sources; [exact Hrun|]. intros k y. discriminate. }
    now destruct (Hret _ _ Hget) as (t & _ & Hp & _). }
  pose proof (uncached_nil _ _ Hall) as Hun.
  rewrite Hun in Hrun. cbn [fst snd app] in Hrun.
  unfold mbind at 1, M_bind at 1. unfold mbind at 1, M_bind at 1.
  rewrite Hrun. cbn [fst snd length Nat.eqb]. unfold mret at 1, M_ret at 1.
  assert (Hdata : map (chunk_or_false ret) (Entry.children doc)
                  = map (λ c, if String.eqb c "__proto__" then IsMember c
                              else cached_text (hashCaches s) c)
                      (Entry.children doc)).
  { apply map_ext_in. intros c Hc. apply list_elem_of_In in Hc.
    rewrite Forall_forall in Hall. specialize (Hall c Hc).
    unfold is_cached in Hall. unfold cached_text, chunk_or_false, read_sb.
    destruct (String.eqb_spec c "__proto__") as [->|Hp].
    - now rewrite Hproto.
    - destruct (cached (hashCaches s) c) as [v|] eqn:Hv; [|discriminate].
      now rewrite (Hin c v Hc Hp Hv). }
  rewrite Hdata.
  assert (Hex : existsb (λ e, bool_decide (e = IsBool false))
                  (map (λ c, if String.eqb c "__proto__" then IsMember c
                             else cached_text (hashCaches s) c)
                     (Entry.children doc))
                = false).
  { clear. induction (Entry.children doc) as [|c cs IH]; [reflexivity|].
    cbn [map existsb]. rewrite IH. unfold cached_text.
    destruct (String.eqb c "__proto__");
      now rewrite bool_decide_false by discriminate. }
  rewrite Hex. exists c'. split; [reflexivity|exact Hpeek].
Qed.
End Assemble.

(** After the file [a.md] of the vault [legacy] has been read, its one
    chunk is in the cache, and the entry is assembled from it. *)
Lemma cached_chunks_need_no_request_witness :
  ∃ c',
    getByMeta Couch.env (Couch.options None None)
      (Entry.mk "a.md" None None None "a.md" ["h:1a2b3c"] 1 2 1 plain None None)
      after_reading
    = (Ok (Entry.with_data [IsStr "x"]
             (Entry.mk "a.md" None None None "a.md" ["h:1a2b3c"] 1 2 1 plain
                None None)),
       State.mk (State.world after_reading) c' (State.since after_reading)
         (State.requests after_reading)) ∧
    ∀ k, LRUCache.peek k c' = LRUCache.peek k (State.hashCaches after_reading).
Proof.
  apply (cached_chunks_need_no_request Couch.env (Couch.options None None)
           (Entry.mk "a.md" None None None "a.md" ["h:1a2b3c"] 1 2 1 plain
              None None) after_reading).
  repeat constructor.
Defined.

(** A cache that holds a text under [__proto__]: the record that
    [_collectChunks] builds binds nothing under that name, and the item
    read there is the member of [Object.prototype], with no request
    sent. *)
Example cached_proto_reads_the_member :
  let s := State.mk Couch.empty
             (LRUCache.mk [(Some "__proto__", Some "x")] 300 50000000%N)
             None [] in
  let run := getByMeta Couch.env (Couch.options None None)
               (Entry.mk "p.md" None None None "p.md" ["__proto__"] 1 2 1
                  plain None None) s in
  is_cached (State.hashCaches s) "__proto__" = true ∧
  run.1
  = Ok (Entry.mk "p.md" None None None "p.md" ["__proto__"] 1 2 1 plain None
          (Some [IsMember "__proto__"])) ∧
  State.requests run.2 = [].
Proof. vm_compute. repeat split. Qed.

(** ** The requests of [put] *)

Lemma obj_get_keys {V} (k : string) (o : Obj.t V) :
  Obj.get k o = None ↔ k ∉ Obj.keys o.
Proof.
  unfold Obj.keys. induction o as [|[k' v'] o IH]; cbn [Obj.get map fst].
  - split; [intros _; apply not_elem_of_nil|reflexivity].
  - rewrite not_elem_of_cons, <- IH.
    destruct (String.eqb_spec k k'); split; try discriminate; tauto.
Qed.

Lemma keys_replace {V} (k : string) (v : V) (o : Obj.t V) :
  Obj.keys (Obj.replace k v o) = Obj.keys o.
Proof.
  unfold Obj.keys. induction o as [|[k' v'] o IH]; [reflexivity|].
  cbn [Obj.replace]. destruct (String.eqb_spec k k') as [->|];
    cbn [map fst]; congruence.
Qed.

Lemma keys_insert_index {V} n (k : string) (v : V) (o : Obj.t V) :
  Obj.keys (Obj.insert_index n k v o) ≡ₚ k :: Obj.keys o.
Proof.
  unfold Obj.keys. induction o as [|[k' v'] o IH]; [reflexivity|].
  cbn [Obj.insert_index].
  destruct (Obj.index_of k') as [n'|]; [|reflexivity].
  destruct (n' <? n)%N; [|reflexivity].
  cbn [map fst]. rewrite IH. apply Permutation_swap.
Qed.

(** The keys after an assignment: one more, unless the key is
    [__proto__] or is there already. *)
Lemma keys_set {V} (k : string) (v : V) (o : Obj.t V) :
  Obj.keys (Obj.set k v o)
  ≡ₚ if String.eqb k "__proto__" then Obj.keys o
     else match Obj.get k o with
          | Some _ => Obj.keys o
          | None => k :: Obj.keys o
          end.
Proof.
  unfold Obj.set. destruct (String.eqb k "__proto__"); [reflexivity|].
  destruct (Obj.get k o); [now rewrite keys_replace|].
  destruct (Obj.index_of k); [apply keys_insert_index|].
  unfold Obj.keys. rewrite map_app. cbn [map fst].
  symmetry. apply Permutation_cons_append.
Qed.


Lemma keys_set_elem {V} (k : string) (v : V) (o : Obj.t V) x :
  k ≠ "__proto__" →
  x ∈ Obj.keys (Obj.set k v o) ↔ x = k ∨ x ∈ Obj.keys o.
Proof.
  intros Hk. rewrite keys_set.
  destruct (String.eqb_spec k "__proto__"); [contradiction|].
  destruct (Obj.get k o) eqn:Hget; [|now rewrite elem_of_cons].
  split; [now right|]. intros [->|H]; [|exact H].
  destruct (decide (k ∈ Obj.keys o)) as [|Hout]; [assumption|].
  apply obj_get_keys in Hout. congruence.
Qed.

Lemma keys_set_NoDup {V} (k : string) (v : V) (o : Obj.t V) :
  NoDup (Obj.keys o) → NoDup (Obj.keys (Obj.set k v o)).
Proof.
  intros H. rewrite keys_set. destruct (String.eqb k "__proto__"); [exact H|].
  destruct (Obj.get k o) eqn:Hget; [exact H|].
  apply NoDup_cons. split; [now apply obj_get_keys|exact H].
Qed.

Section Writes.
Variable E : Env.
Variable options : Options.t.

Import State.






End Writes.

(** ** The lines that [readLines] yields *)

Lemma readLines_from_decoded chunks : ∀ partOfLine,
  has_newline partOfLine = false →
  readLines_from partOfLine chunks
  = removelast (split_lines (partOfLine +:+ decoded chunks)).
Proof.
  unfold decoded.
  induction chunks as [|chunk chunks IH]; intros part Hpart.
  - simpl. rewrite split_prepend by assumption. reflexivity.
  - cbn [readLines_from map concat_chunks].
    set (text := TextDecoder_decode chunk).
    rewrite split_prepend by assumption.
    rewrite split_lines_app.
    pose proof (split_lines_pieces text) as Hpieces.
    destruct (split_lines text) as [|l0 [|l1 ls]] eqn:Hsplit.
    + now apply split_lines_nonempty in Hsplit.
    + cbn [removelast List.last app].
      inversion Hpieces as [|? ? Hl0 _]; subst.
      rewrite IH by (now rewrite has_newline_app, Hpart, Hl0).
      rewrite append_assoc. now rewrite split_prepend by assumption.
    + assert (Hlast : has_newline (List.last ls l1) = false).
      { rewrite <- (last_cons_default l1 ""). apply Forall_last; [|discriminate].
        now inversion Hpieces. }
      rewrite (IH _ Hlast).
      change (List.last (l0 :: l1 :: ls) "") with (List.last (l1 :: ls) "").
      rewrite (last_cons_default l1 "").
      change (removelast (l0 :: l1 :: ls)) with (l0 :: removelast (l1 :: ls)).
      cbn [app]. unfold middle. cbn [tail].
      pose proof (split_lines_nonempty
                    (List.last ls l1
                     +:+ concat_chunks (map TextDecoder_decode chunks))) as Hne.
      transitivity
        (removelast
           (((part +:+ l0) :: removelast (l1 :: ls))
            ++ split_lines
                 (List.last ls l1
                  +:+ concat_chunks (map TextDecoder_decode chunks))));
        [|reflexivity].
      now rewrite removelast_app by assumption.
Qed.

Lemma split_lines_length t : length (split_lines t) = S (newlines t).
Proof.
  induction t as [|c t IH]; [reflexivity|].
  cbn [split_lines newlines]. unfold newline.
  destruct (Ascii.eqb c "010").
  - cbn [length]. now rewrite IH.
  - destruct (split_lines t) as [|l ls]; [discriminate|]. exact IH.
Qed.

Lemma removelast_length {A} (l : list A) :
  length (removelast l) = pred (length l).
Proof.
  induction l as [|x [|y l] IH]; [reflexivity..|].
  change (removelast (x :: y :: l)) with (x :: removelast (y :: l)).
  cbn [length] in *. now rewrite IH.
Qed.

Lemma Forall_removelast {A} (P : A → Prop) l :
  Forall P l → Forall P (removelast l).
Proof.
  induction 1 as [|x l Hx Hl IH]; [constructor|].
  destruct l as [|y l]; [constructor|].
  change (removelast (x :: y :: l)) with (x :: removelast (y :: l)).
  now constructor.
Qed.

(** X11.  The lines that [readLines] yields are those of one text: the
    chunks, each decoded on its own, put end to end.  It yields the
    pieces of that text that a line feed closes, in order, as many as the
    text has line feeds, none of them holding a line feed; what follows
    the last line feed is not yielded. *)
Theorem readLines_frames_the_decoded_text (chunks : list string) :
  readLines chunks = removelast (split_lines (decoded chunks)) ∧
  length (readLines chunks) = newlines (decoded chunks) ∧
  Forall (λ l, has_newline l = false) (readLines chunks).
Proof.
  assert (H : readLines chunks = removelast (split_lines (decoded chunks))).
  { unfold readLines. rewrite readLines_from_decoded by reflexivity.
    now rewrite append_empty. }
  rewrite H. split; [reflexivity|]. split.
  - now rewrite removelast_length, split_lines_length.
  - apply Forall_removelast, split_lines_pieces.
Qed.

Lemma split_lines_stream_rest lines rest :
  Forall (λ l, has_newline l = false) lines → has_newline rest = false →
  split_lines (stream_of lines +:+ rest) = lines ++ [rest].
Proof.
  intros Hlines Hrest. induction Hlines as [|l ls Hl _ IH].
  - rewrite append_empty. now apply split_lines_no_newline.
  - cbn [stream_of]. rewrite append_assoc, append_cons.
    rewrite split_prepend by assumption.
    cbn [split_lines]. unfold newline at 1. rewrite Ascii.eqb_refl.
    rewrite IH. cbn [app]. now rewrite (append_empty_r l).
Qed.

Lemma decoded_whole chunks :
  Forall whole_characters chunks → decoded chunks = concat_chunks chunks.
Proof.
  unfold decoded. induction 1 as [|c cs Hc _ IH]; [reflexivity|].
  cbn [map concat_chunks]. now rewrite IH, decode_whole_characters.
Qed.

(** A chunk of whole characters is decoded to itself, less the byte
    order mark that opens it. *)
Lemma decode_well_formed chunk :
  utf8_wf chunk → TextDecoder_decode chunk = strip_BOM chunk.
Proof.
  intros Hwf. unfold TextDecoder_decode. apply utf8_decode_wf.
  unfold strip_BOM. destruct (startsWith chunk BOM) eqn:Hbom; [|exact Hwf].
  destruct chunk as [|a [|b [|c rest]]]; try exact Hwf.
  cbn [startsWith BOM] in Hbom.
  apply andb_true_iff in Hbom as [Ha Hbom].
  apply andb_true_iff in Hbom as [Hb Hbom].
  apply andb_true_iff in Hbom as [Hc _].
  apply Ascii.eqb_eq in Ha, Hb, Hc. subst a b c.
  inversion Hwf; subst; try discriminate. assumption.
Qed.

Lemma decoded_well_formed chunks :
  Forall utf8_wf chunks →
  decoded chunks = concat_chunks (map strip_BOM chunks).
Proof.
  unfold decoded. induction 1 as [|c cs Hc _ IH]; [reflexivity|].
  cbn [map concat_chunks]. now rewrite IH, decode_well_formed.
Qed.

(** X12.  When every chunk holds whole characters, the reader yields the
    lines that a line feed closes, intact, wherever the chunks are cut,
    of the stream that is left when the byte order mark that opens a
    chunk (any chunk, not the first alone) is taken away: a chunk is
    decoded on its own, and loses such a mark.  A last line that no line
    feed closes is never yielded, not even when the stream ends. *)
Theorem unterminated_line_is_dropped (lines : list string) (rest : string)
    (chunks : list string) :
  Forall (λ l, has_newline l = false) lines → has_newline rest = false →
  Forall utf8_wf chunks →
  concat_chunks (map strip_BOM chunks) = stream_of lines +:+ rest →
  readLines chunks = lines.
Proof.
  intros Hlines Hrest Hwhole Hstream. unfold readLines.
  rewrite readLines_from_decoded by reflexivity.
  rewrite append_empty, decoded_well_formed, Hstream by assumption.
  rewrite split_lines_stream_rest by assumption.
  apply removelast_last.
Qed.

(** The second chunk opens with a byte order mark, which is lost. *)
Lemma unterminated_line_is_dropped_witness :
  readLines ["on"; BOM +:+ String "e" (String newline "tw"); "o"] = ["one"].
Proof.
  apply (unterminated_line_is_dropped ["one"] "two").
  - repeat constructor.
  - reflexivity.
  - repeat first [apply Forall_cons; split | apply Forall_nil_2].
    + repeat constructor.
    + apply wf_three; [reflexivity..|]. repeat constructor.
    + repeat constructor.
  - reflexivity.
Defined.

(** ** Every entry is enumerated *)

Lemma filter_length_mono {A} (f g : A → bool) l :
  (∀ x, x ∈ l → f x = true → g x = true) →
  (length (List.filter f l) ≤ length (List.filter g l))%nat.
Proof.
  induction l as [|x l IH]; intros H; [reflexivity|].
  assert (IH' : (length (List.filter f l) ≤ length (List.filter g l))%nat).
  { apply IH. intros y Hy. apply H. now right. }
  cbn [List.filter]. destruct (f x) eqn:Hf.
  - rewrite (H x) by (assumption || now left). cbn [length]. lia.
  - destruct (g x); cbn [length]; lia.
Qed.

Lemma filter_length_less {A} (f g : A → bool) l x :
  (∀ y, y ∈ l → f y = true → g y = true) →
  x ∈ l → g x = true → f x = false →
  (length (List.filter f l) < length (List.filter g l))%nat.
Proof.
  induction l as [|y l IH]; intros H Hx Hg Hf.
  - now apply elem_of_nil in Hx.
  - assert (Hl : ∀ z, z ∈ l → f z = true → g z = true)
      by (intros z Hz; apply H; now right).
    cbn [List.filter]. apply elem_of_cons in Hx as [<-|Hx].
    + rewrite Hf, Hg. cbn [length].
      pose proof (filter_length_mono f g l Hl). lia.
    + specialize (IH Hl Hx Hg Hf). destruct (f y) eqn:Hfy.
      * rewrite (H y) by (assumption || now left). cbn [length]. lia.
      * destruct (g y); cbn [length]; lia.
Qed.

Lemma sorted_app_lt (l1 l2 : list string) x y :
  StronglySorted slt (l1 ++ l2) → x ∈ l1 → y ∈ l2 → slt x y.
Proof.
  induction l1 as [|z l1 IH]; cbn [app]; intros Hs Hx Hy.
  - now apply elem_of_nil in Hx.
  - apply StronglySorted_inv in Hs as [Hs Hall].
    apply elem_of_cons in Hx as [->|Hx]; [|now apply IH].
    rewrite Forall_forall in Hall. apply Hall.
    apply elem_of_app. now right.
Qed.

Section Complete.
Variable E : Env.
Variable options : Options.t.
Variable db : list (string * RemoteDocument).
Variable Inv : World E → Prop.

Hypothesis db_sorted : StronglySorted slt (map fst db).
Hypothesis db_ids : ∀ k e, (k, DocEntry e) ∈ db → Entry._id e = k.
Hypothesis range_answer : ∀ w startkey endkey,
  Inv w →
  ∃ w',
    fetch E (GetAllDocs startkey endkey 100) w
    = (Ok {| range_rows := Some (page db startkey endkey) |}, w') ∧ Inv w'.
Hypothesis chunks_keep : ∀ include_docs keys w res w',
  Inv w → fetch E (PostAllDocs include_docs keys) w = (res, w') → Inv w'.
Hypothesis small_or_apart :
  (length db < 100)%nat ∨ no_extension (map fst db).

Import State.

Variable metaOnly : bool.

Abbreviation failed := (task_failed E options Inv metaOnly).

(** Every entry of a page is yielded, unless its task throws. *)
Lemma process_page_complete entries : ∀ s,
  Inv (world s) →
  ∃ newDocs s',
    processAllTasksWithConcurrencyLimit E 5
      (map (enumerate_task E options metaOnly) entries) s
    = (Ok newDocs, s') ∧
    Inv (world s') ∧
    ∀ e, e ∈ entries → Entry._id e ∈ ids_of (oks newDocs) ∨ failed e.
Proof.
  unfold processAllTasksWithConcurrencyLimit.
  induction entries as [|e entries IH]; intros s HI.
  - exists [], s. repeat split; [assumption|].
    intros e He. now apply elem_of_nil in He.
  - cbn [map mapM]. unfold mbind at 1, M_bind at 1.
    destruct (enumerate_task E options metaOnly e s) as [r s1] eqn:Htask.
    assert (HI1 : Inv (world s1)).
    { eapply (world_enumerate_task E options Inv chunks_keep);
        [exact HI|exact Htask]. }
    destruct (IH s1 HI1) as (newDocs & s' & Hrun & HI' & Hall).
    unfold mbind, M_bind. rewrite Hrun. unfold mret, M_ret.
    exists (r :: newDocs), s'. repeat split; [assumption|].
    intros e' He'. apply elem_of_cons in He' as [->|He'].
    + destruct r as [w|msg].
      * left. cbn. rewrite (enumerate_task_ok _ _ _ _ _ _ _ Htask).
        now left.
      * right. exists s, msg, s1. now split.
    + destruct (Hall e' He') as [Hin|Hfail]; [left|now right].
      destruct r as [w|msg]; cbn; [now right|assumption].
Qed.

Lemma in_range_of_elem startkey endkey kd :
  kd ∈ in_range_of db startkey endkey ↔
  kd ∈ db ∧ in_target (startkey, endkey) kd.1 = true.
Proof. unfold in_range_of. now rewrite !list_elem_of_In, filter_In. Qed.

Lemma in_range_of_sorted startkey endkey :
  StronglySorted slt (map fst (in_range_of db startkey endkey)).
Proof.
  eapply sorted_sublist; [|exact db_sorted].
  apply map_sublist, filter_sublist.
Qed.

(** The entries of a page are the entries among its documents. *)
Lemma page_holds startkey endkey k e :
  (k, DocEntry e) ∈ take 100 (in_range_of db startkey endkey) →
  e ∈ omap entry_of_row (page db startkey endkey).
Proof.
  rewrite page_selected. unfold selected. fold (in_range_of db startkey endkey).
  intros H. apply list_elem_of_omap.
  exists (row_of_doc (k, DocEntry e)). split; [|reflexivity].
  apply list_elem_of_fmap. now exists (k, DocEntry e).
Qed.

(** The loop of [_enumerate], from the answer to the query that starts at
    [key], with more fuel than there are documents from [key] on: it
    ends, and has yielded every entry from [key] to [endKey] whose task
    did not throw. *)
Lemma enumerate_loop_complete endKey fuel : ∀ key s,
  Inv (world s) →
  (length (in_range_of db key endKey) < fuel)%nat →
  let run := _enumerate_loop E options fuel endKey metaOnly
               (Ok {| range_rows := Some (page db key endKey) |}) s in
  run.1.2 = Done ∧ Inv (world run.2) ∧
  ∀ k e, (k, DocEntry e) ∈ db → in_target (key, endKey) k = true →
         k ∈ ids_of run.1.1 ∨ failed e.
Proof.
  induction fuel as [|fuel IH]; intros key s HI Hfuel; [lia|].
  cbn zeta. cbn [_enumerate_loop range_rows].
  pose proof (page_selected db key endKey) as Hpage.
  unfold selected in Hpage. fold (in_range_of db key endKey) in Hpage.
  pose proof (in_range_of_sorted key endKey) as Hsorted.
  pose proof (λ k e, page_holds key endKey k e) as Hholds.
  pose proof (in_range_of_elem key endKey) as Helem.
  destruct (in_range_of db key endKey) as [|kd0 rem0] eqn:Hrem.
  { cbn in Hpage. rewrite Hpage. cbn [fst snd].
    repeat split; [assumption|]. intros k e Hk Hin.
    exfalso. apply (elem_of_nil (k, DocEntry e)). now apply Helem. }
  set (rem := kd0 :: rem0) in *.
  destruct (page db key endKey) as [|r0 rs0];
    [cbn in Hpage; discriminate|].
  set (kl := range_key (List.last rs0 r0)).
  set (key' := kl +:+ u10ffff).
  unfold req, _fetchJson.
  destruct (range_answer (world s) key' endKey HI) as (w' & Hfetch & HI').
  rewrite Hfetch.
  match goal with |- context [processAllTasksWithConcurrencyLimit E 5 ?ts ?st] =>
    destruct (process_page_complete (omap entry_of_row (r0 :: rs0)) st HI')
      as (newDocs & s2 & Hrun & HI2 & Hyield) end.
  rewrite Hrun.
  assert (Hkl : kl ∈ map fst (take 100 rem)).
  { unfold kl. rewrite <- (last_map range_key).
    pose proof (last_elem (range_key r0) (map range_key rs0)) as Hlast.
    change (range_key r0 :: map range_key rs0)
      with (map range_key (r0 :: rs0)) in Hlast.
    rewrite Hpage, map_map in Hlast. exact Hlast. }
  assert (Hkl_rem : ∃ d, (kl, d) ∈ rem ∧ (kl, d) ∈ take 100 rem).
  { apply list_elem_of_fmap in Hkl as ([k d] & -> & Hin).
    exists d. split; [|exact Hin].
    eapply sublist_subseteq; [apply sublist_take|exact Hin]. }
  destruct Hkl_rem as (dl & Hdl & Hdl_page).
  assert (Hkey_kl : sle key kl).
  { apply Helem in Hdl as [_ Hin]. now apply in_target_iff in Hin. }
  assert (Hlt : slt kl key') by (apply slt_append; discriminate).
  assert (Hsmaller :
    (length (in_range_of db key' endKey) < length rem)%nat).
  { rewrite <- Hrem. unfold in_range_of.
    apply (filter_length_less _ _ _ (kl, dl)).
    - intros [k d] _ Hin. cbn [fst] in *.
      apply in_target_iff in Hin as [H1 H2]. apply in_target_iff.
      split; [|assumption]. cbn [fst snd] in *.
      apply (sle_trans key kl k); [assumption|].
      apply sle_cases. left. now apply (slt_le_trans kl key' k).
    - apply Helem in Hdl. tauto.
    - apply Helem in Hdl. tauto.
    - cbn [fst]. apply not_true_is_false. intros Hin.
      apply in_target_iff in Hin as [H1 _]. cbn [fst] in H1.
      now apply (slt_not_sle kl key'). }
  destruct (IH key' s2 HI2 ltac:(cbn [length] in *; lia)) as (Hdone & HI3 & Hrest).
  cbn zeta in Hdone, HI3, Hrest.
  destruct (_enumerate_loop E options fuel endKey metaOnly _ s2)
    as [[ys c] s3].
  cbn [fst snd] in *. split; [assumption|]. split; [assumption|].
  intros k e Hk Hin. rewrite ids_of_app, elem_of_app.
  assert (Hk_rem : (k, DocEntry e) ∈ rem) by (now apply Helem).
  rewrite <- (take_drop 100 rem) in Hk_rem.
  apply elem_of_app in Hk_rem as [Hk_page|Hk_later].
  - destruct (Hyield e (Hholds k e Hk_page)) as [Hy|Hf]; [|now right].
    left. left. now rewrite <- (db_ids k e Hk).
  - assert (Hafter : slt kl k).
    { apply (sorted_app_lt (map fst (take 100 rem)) (map fst (drop 100 rem))).
      - rewrite <- map_app, take_drop. exact Hsorted.
      - exact Hkl.
      - apply list_elem_of_fmap. now exists (k, DocEntry e). }
    assert (Hlong : (100 ≤ length rem)%nat).
    { destruct (Nat.le_gt_cases 100 (length rem)) as [|Hshort]; [assumption|].
      rewrite drop_ge in Hk_later by lia. now apply elem_of_nil in Hk_later. }
    assert (Hfar : sle key' k).
    { destruct (sle_total key' k) as [|Hnear]; [assumption|]. exfalso.
      destruct small_or_apart as [Hsmall|Hapart].
      - assert (length rem ≤ length db)%nat; [|lia].
        rewrite <- Hrem. unfold in_range_of.
        apply List.filter_length_le.
      - destruct (between_extension kl u10ffff k Hafter Hnear)
          as (suffix & -> & Hne & _).
        apply (Hapart kl suffix); [|assumption|].
        + apply list_elem_of_fmap. exists (kl, dl). split; [reflexivity|].
          apply Helem in Hdl. tauto.
        + apply list_elem_of_fmap. now exists (kl +:+ suffix, DocEntry e). }
    destruct (Hrest k e Hk) as [Hy|Hf]; [|now left; right|now right].
    apply in_target_iff. apply in_target_iff in Hin as [_ Hin].
    now split.
Qed.

Lemma enumerate_complete fuel startKey endKey s :
  Inv (world s) → (length db < fuel)%nat →
  let run := _enumerate E options fuel startKey endKey metaOnly s in
  run.1.2 = Done ∧ Inv (world run.2) ∧
  ∀ k e, (k, DocEntry e) ∈ db → in_target (startKey, endKey) k = true →
         k ∈ ids_of run.1.1 ∨ failed e.
Proof.
  intros HI Hfuel. unfold _enumerate, req, _fetchJson.
  destruct (range_answer (world s) startKey endKey HI) as (w' & Hfetch & HI').
  rewrite Hfetch. apply enumerate_loop_complete; [assumption|].
  unfold in_range_of. pose proof (List.filter_length_le
    (λ kd : string * RemoteDocument, in_target (startKey, endKey) kd.1) db).
  lia.
Qed.

Lemma enumerate_targets_complete fuel ts : ∀ s,
  Inv (world s) → (length db < fuel)%nat →
  let run := enumerate_targets E options fuel metaOnly ts s in
  run.1.2 = Done ∧
  ∀ k e t, (k, DocEntry e) ∈ db → t ∈ ts → in_target t k = true →
           k ∈ ids_of run.1.1 ∨ failed e.
Proof.
  induction ts as [|[startKey endKey] ts IH]; intros s HI Hfuel.
  - split; [reflexivity|]. intros k e t _ Ht. now apply elem_of_nil in Ht.
  - cbn zeta. cbn [enumerate_targets].
    destruct (enumerate_complete fuel startKey endKey s HI Hfuel)
      as (Hdone & HI1 & Hfirst).
    cbn zeta in Hdone, HI1, Hfirst.
    destruct (_enumerate E options fuel startKey endKey metaOnly s)
      as [[ys c] s1].
    cbn [fst snd] in *. subst c.
    destruct (IH s1 HI1 Hfuel) as (Hdone2 & Hrest). cbn zeta in Hdone2, Hrest.
    destruct (enumerate_targets E options fuel metaOnly ts s1)
      as [[zs c] s2].
    cbn [fst snd] in *. split; [assumption|].
    intros k e t Hk Ht Hin. rewrite ids_of_app, elem_of_app.
    apply elem_of_cons in Ht as [->|Ht].
    + destruct (Hfirst k e Hk Hin); [left; now left|now right].
    + destruct (Hrest k e t Hk Ht Hin); [left; now right|now right].
Qed.

(** X13.  Against a server whose documents stay the same while it is
    enumerated, and which answers a range query with its documents in
    key order, [enumerateAllNormalDocs] ends and has yielded every
    metadata entry whose id is in one of the five ranges and whose task
    (decrypting its path and, without [metaOnly], assembling it) does not
    throw in any state, of the cache and of the cursor, in which the
    server holds these documents; provided that the database holds fewer
    than 100 documents or that no id of the database is another id
    followed by more text.  (The next page is asked from the last key of a
    page followed by U+10FFFF: an id that extends that key is passed
    over.) *)
Theorem enumeration_is_complete (fuel : nat) (s : State.t (World E)) :
  Inv (world s) → (length db < fuel)%nat →
  let run := enumerateAllNormalDocs E options fuel metaOnly s in
  run.1.2 = Done ∧
  ∀ k e t,
    (k, DocEntry e) ∈ db → t ∈ targets → in_target t k = true →
    (∀ s1, Inv (world s1) →
           is_ok (enumerate_task E options metaOnly e s1).1 = true) →
    k ∈ ids_of run.1.1.
Proof.
  intros HI Hfuel.
  destruct (enumerate_targets_complete fuel targets s HI Hfuel)
    as [Hdone Hall].
  split; [exact Hdone|]. intros k e t Hk Ht Hin Hok.
  destruct (Hall k e t Hk Ht Hin) as [Hy|(s1 & msg & s2 & HI1 & Hthrow)];
    [exact Hy|].
  specialize (Hok s1 HI1). rewrite Hthrow in Hok. discriminate.
Qed.
End Complete.

(** The server after two writes: the enumeration ends and yields both
    files. *)
(** Both files of that server are among the ids yielded. *)
Example enumeration_yields_both :
  ids_of (enumerateAllNormalDocs Couch.env (Couch.options None None) 5 false
            two_files).1.1
  = ["a.md"; "b.md"].
Proof. reflexivity. Qed.

(** ** Writing, then reading, on the stand-in server *)

Lemma lookup_store_eq k d l : Couch.lookup k (Couch.store k d l) = Some d.
Proof.
  unfold Couch.lookup. induction l as [|[k' d'] l IH]; cbn [Couch.store].
  - cbn. now rewrite String.eqb_refl.
  - destruct (String.eqb k k') eqn:Hk; cbn [Obj.get].
    + now rewrite String.eqb_refl.
    + destruct (String.ltb k k'); cbn [Obj.get].
      * now rewrite String.eqb_refl.
      * now rewrite Hk.
Qed.

Lemma lookup_store_ne k k' d l :
  k ≠ k' → Couch.lookup k' (Couch.store k d l) = Couch.lookup k' l.
Proof.
  intros Hne. unfold Couch.lookup.
  assert (Hkk : String.eqb k' k = false)
    by (apply String.eqb_neq; congruence).
  induction l as [|[k0 d0] l IH]; cbn [Couch.store].
  - cbn. now rewrite Hkk.
  - destruct (String.eqb_spec k k0) as [->|Hk0]; cbn [Obj.get].
    + now rewrite Hkk.
    + destruct (String.ltb k k0); cbn [Obj.get].
      * now rewrite Hkk.
      * now rewrite IH.
Qed.

Lemma obj_get_elem {V} k (v : V) (o : Obj.t V) :
  Obj.get k o = Some v → (k, v) ∈ o.
Proof.
  induction o as [|[k' v'] o IH]; cbn [Obj.get]; [discriminate|].
  destruct (String.eqb_spec k k') as [->|].
  - intros [= ->]. now left.
  - intros H. right. now apply IH.
Qed.

(** The server takes chunks that it does not hold, each under its id. *)
Lemma bulk_fresh leaves : ∀ w,
  NoDup (map Leaf._id leaves) →
  (∀ l, l ∈ leaves → Couch.lookup (Leaf._id l) (Couch.docs w) = None) →
  ∃ w',
    Couch.bulk leaves w = (map accepted leaves, w') ∧
    (∀ l, l ∈ leaves →
          Couch.lookup (Leaf._id l) (Couch.docs w')
          = Some (Couch.SLeaf 1 (Leaf.data l))) ∧
    (∀ k, k ∉ map Leaf._id leaves →
          Couch.lookup k (Couch.docs w') = Couch.lookup k (Couch.docs w)).
Proof.
  induction leaves as [|l leaves IH]; intros w Hnodup Hnew.
  - exists w. repeat split. intros l Hl. now apply elem_of_nil in Hl.
  - cbn [map] in Hnodup. apply NoDup_cons in Hnodup as [Hl Hnodup].
    cbn [Couch.bulk]. rewrite (Hnew l) by now left.
    set (w1 := Couch.mk (Couch.store (Leaf._id l)
                           (Couch.SLeaf 1 (Leaf.data l)) (Couch.docs w))
                 (Couch.changes w) (Couch.clock w)).
    destruct (IH w1 Hnodup) as (w' & Hrun & Hin & Hout).
    { intros l' Hl'. unfold w1. cbn [Couch.docs].
      rewrite lookup_store_ne; [apply Hnew; now right|].
      intros Heq. apply Hl. rewrite Heq.
      apply list_elem_of_fmap. now exists l'. }
    rewrite Hrun. exists w'. split; [reflexivity|]. split.
    + intros l' Hl'. apply elem_of_cons in Hl' as [->|Hl']; [|now apply Hin].
      rewrite Hout by assumption. unfold w1. cbn [Couch.docs].
      apply lookup_store_eq.
    + intros k Hk. cbn [map] in Hk. apply not_elem_of_cons in Hk as [Hne Hk].
      rewrite Hout by assumption. unfold w1. cbn [Couch.docs].
      apply lookup_store_ne. congruence.
Qed.

Lemma find_key_none (id : string) (es : list (option string * option string)) :
  Forall (λ kv, kv.1 = None) es → LRUCache.find_key (Some id) es = None.
Proof.
  induction 1 as [|[k v] es Hk _ IH]; [reflexivity|].
  cbn [LRUCache.find_key]. cbn in Hk. subst k.
  destruct (decide (Some id = None)); [discriminate|assumption].
Qed.

Lemma find_value_elem (v : option string) (es : list (option string * option string)) k :
  LRUCache.find_value v es = Some k → (k, v) ∈ es.
Proof.
  induction es as [|[k' v'] es IH]; cbn [LRUCache.find_value]; [discriminate|].
  destruct (decide (v = v')) as [->|].
  - intros [= ->]. now left.
  - intros H. right. now apply IH.
Qed.

Lemma fit_Forall {K V} (weigh : V → N) (P : K * V → Prop) es : ∀ n len,
  Forall P es → Forall P (LRUCache.fit weigh n len es).
Proof.
  induction es as [|[k v] es IH]; intros n len H; [constructor|].
  cbn [LRUCache.fit]. destruct n; [constructor|].
  destruct (weigh v <=? len)%N; [|constructor].
  inversion H; subst. constructor; [assumption|]. now apply IH.
Qed.

Lemma filter_Forall {A} (P : A → Prop) (f : A → bool) l :
  Forall P l → Forall P (List.filter f l).
Proof.
  induction 1 as [|x l Hx _ IH]; [constructor|].
  cbn [List.filter]. destruct (f x); [now constructor|assumption].
Qed.

Lemma holds_no_chunk_set v (c : HashCache) :
  holds_no_chunk c → holds_no_chunk (LRUCache.set weigh None v c).
Proof.
  unfold holds_no_chunk, LRUCache.set. cbn [LRUCache.entries]. intros H.
  apply fit_Forall. constructor; [reflexivity|].
  unfold LRUCache.remove_key. now apply filter_Forall.
Qed.

Section OnCache.
Variable E : Env.
Variable options : Options.t.

Import State.

(** On a cache that holds no chunk, every piece gets the id derived
    from it. *)
Lemma put_piece_derives acc piece s :
  holds_no_chunk (hashCaches s) →
  ∃ c',
    put_piece E options acc piece s
    = (Ok (Obj.set (leafId E options piece) piece acc.1,
           acc.2 ++ [leafId E options piece]),
       mk (world s) c' (since s) (requests s)) ∧
    holds_no_chunk c'.
Proof.
  intros Hc. unfold put_piece, mbind, M_bind, cache_revGet, LRUCache.revGet.
  destruct (LRUCache.find_value (Some piece) (LRUCache.entries (hashCaches s)))
    as [k|] eqn:Hfind.
  - assert (Hk : k = None).
    { apply find_value_elem in Hfind. unfold holds_no_chunk in Hc.
      rewrite Forall_forall in Hc. exact (Hc _ Hfind). }
    subst k. cbn [mjoin truthy]. eexists. split; [reflexivity|].
    unfold holds_no_chunk. cbn [LRUCache.entries].
    constructor; [reflexivity|].
    unfold LRUCache.remove_key. now apply filter_Forall.
  - cbn [mjoin truthy]. eexists. split; [reflexivity|assumption].
Qed.

Lemma put_chunks_derives pieces : ∀ acc s,
  holds_no_chunk (hashCaches s) →
  ∃ c',
    foldM (put_piece E options) acc pieces s
    = (Ok (chunks_of E options pieces acc.1,
           acc.2 ++ map (leafId E options) pieces),
       mk (world s) c' (since s) (requests s)) ∧
    holds_no_chunk c'.
Proof.
  induction pieces as [|piece pieces IH]; intros acc s Hc; cbn [foldM].
  - exists (hashCaches s). unfold mret, M_ret.
    cbn [chunks_of fold_left map]. rewrite app_nil_r.
    destruct acc, s. split; [reflexivity|assumption].
  - destruct (put_piece_derives acc piece s Hc) as (c1 & Hpiece & Hc1).
    unfold mbind, M_bind. rewrite Hpiece.
    destruct (IH (Obj.set (leafId E options piece) piece acc.1,
                  acc.2 ++ [leafId E options piece])
                 (mk (world s) c1 (since s) (requests s)) Hc1)
      as (c' & Hrun & Hc').
    cbn [fst snd world since requests] in Hrun. rewrite Hrun.
    exists c'. split; [|assumption]. cbn [chunks_of fold_left map].
    now rewrite <- app_assoc.
Qed.

(** On such a cache the first loop of [_collectChunks] asks for every
    id. *)
Lemma collect_cached_blank ids : ∀ acc s,
  holds_no_chunk (hashCaches s) →
  foldM (collect_cached E) acc ids s
  = (Ok (acc.1, acc.2 ++ ids),
     mk (world s) (hashCaches s) (since s) (requests s)).
Proof.
  induction ids as [|id ids IH]; intros acc s Hc; cbn [foldM].
  - unfold mret, M_ret. rewrite app_nil_r. now destruct acc, s.
  - unfold mbind, M_bind. unfold collect_cached at 1.
    unfold mbind, M_bind, cache_get, LRUCache.get.
    rewrite find_key_none by assumption. unfold mret, M_ret.
    rewrite IH by assumption. cbn [fst snd world hashCaches since requests].
    now rewrite <- app_assoc.
Qed.
End OnCache.

Section Chunks.
Variable E : Env.
Variable options : Options.t.

Lemma leafId_not_proto piece : leafId E options piece ≠ "__proto__".
Proof. discriminate. Qed.

Lemma chunks_of_get pieces : ∀ chunks p,
  (∀ q, q ∈ pieces → leafId E options q = leafId E options p → q = p) →
  p ∈ pieces ∨ Obj.get (leafId E options p) chunks = Some p →
  Obj.get (leafId E options p) (chunks_of E options pieces chunks) = Some p.
Proof.
  induction pieces as [|p0 pieces IH]; intros chunks p Hinj Hp.
  - destruct Hp as [Hp|Hp]; [now apply elem_of_nil in Hp|exact Hp].
  - cbn [chunks_of fold_left]. apply IH.
    + intros q Hq. apply Hinj. now right.
    + destruct (decide (p ∈ pieces)) as [Hin|Hout]; [now left|right].
      rewrite obj_get_set by apply leafId_not_proto.
      destruct (String.eqb_spec (leafId E options p) (leafId E options p0))
        as [Heq|Hne].
      * f_equal. apply Hinj; [now left|congruence].
      * destruct Hp as [Hp|Hp]; [|exact Hp].
        apply elem_of_cons in Hp as [->|Hp]; contradiction.
Qed.

Lemma chunks_of_keys pieces : ∀ chunks k,
  k ∈ Obj.keys (chunks_of E options pieces chunks) ↔
  k ∈ map (leafId E options) pieces ∨ k ∈ Obj.keys chunks.
Proof.
  unfold chunks_of.
  induction pieces as [|p0 pieces IH]; intros chunks k.
  - cbn. rewrite elem_of_nil. tauto.
  - cbn [fold_left map].
    rewrite IH, keys_set_elem, elem_of_cons by apply leafId_not_proto.
    tauto.
Qed.

Lemma chunks_of_NoDup pieces : ∀ chunks,
  NoDup (Obj.keys chunks) → NoDup (Obj.keys (chunks_of E options pieces chunks)).
Proof.
  unfold chunks_of.
  induction pieces as [|p0 pieces IH]; intros chunks H; [exact H|].
  cbn [fold_left]. now apply IH, keys_set_NoDup.
Qed.
End Chunks.

Lemma leafId_is_chunk E options piece :
  startsWith (leafId E options piece) "h:" = true.
Proof. reflexivity. Qed.

Section RoundTrip.
Variable pass : option string.
Variable hash : string → N.
Variable toId : string → option string → DocumentID.
Variable plainText : string → bool.
Variable chunker :
  list string → Number.t → bool → Z → string → option bool → list string.

Abbreviation E := (Couch.standin hash toId plainText chunker).
Abbreviation options := (Couch.options pass pass).

Import State.

(** The server reports as missing the chunks that it does not hold. *)
Lemma collect_missing_rows w keys : ∀ ret s,
  (∀ k, k ∈ keys → Couch.lookup k (Couch.docs w) = None) →
  ∃ ret',
    foldM (collect_row E options true) ret (map (Couch.row_of false w) keys) s
    = (Ok ret', s) ∧
    ∀ k, k ∈ keys → k ≠ "__proto__" → Obj.get k ret' = Some (IsBool false).
Proof.
  induction keys as [|k keys IH]; intros ret s Hnone; cbn [map foldM].
  - exists ret. split; [reflexivity|].
    intros k Hk. now apply elem_of_nil in Hk.
  - assert (Hrow : Couch.row_of false w k
                   = {| row_key := k; row_error := true; row_doc := None |}).
    { unfold Couch.row_of. now rewrite (Hnone k) by now left. }
    rewrite Hrow. unfold mbind, M_bind. unfold collect_row at 1.
    cbn [row_error row_key]. unfold mret, M_ret.
    destruct (IH (Obj.set k (IsBool false) ret) s) as (ret' & Hrun & Hret').
    { intros k' Hk'. apply Hnone. now right. }
    exists ret'. split; [exact Hrun|]. intros k' Hk' Hp.
    destruct (decide (k' ∈ keys)) as [Hin|Hout]; [now apply Hret'|].
    apply elem_of_cons in Hk' as [->|Hk']; [|contradiction].
    clear IH Hret' Hnone Hrow.
    assert (Hlater : ∀ ks r0 r1 st,
      foldM (collect_row E options true) r0
        (map (Couch.row_of false w) ks) st = (Ok r1, st) →
      k ∉ ks → Obj.get k r1 = Obj.get k r0).
    { induction ks as [|k0 ks IHr]; intros r0 r1 st; cbn [map foldM].
      - unfold mret, M_ret. now intros [= <-].
      - intros H Hk. apply not_elem_of_cons in Hk as [Hne Hk].
        apply bind_inv in H as [(r2 & st2 & H1 & H2)|(e & _ & He)];
          [|discriminate].
        unfold collect_row in H1. cbn [row_key] in H1.
        assert (Hr2 : Obj.get k r2 = Obj.get k r0 ∧ st2 = st).
        { unfold Couch.row_of in H1.
          destruct (Couch.lookup k0 (Couch.docs w));
            cbn [row_error row_key] in H1; unfold mret, M_ret in H1;
            injection H1 as <- <-; (split; [|reflexivity]);
            now apply obj_get_set_other. }
        destruct Hr2 as [Hget ->]. rewrite <- Hget. now apply (IHr r2 r1 st). }
    rewrite (Hlater keys _ _ s Hrun Hout).
    rewrite obj_get_set by assumption. now rewrite String.eqb_refl.
Qed.

Lemma existence_check keys s :
  holds_no_chunk (hashCaches s) →
  (∀ k, k ∈ keys → Couch.lookup k (Couch.docs (world s)) = None) →
  ∃ existed s',
    _collectChunks E options keys true s = (Ok existed, s') ∧
    world s' = world s ∧ hashCaches s' = hashCaches s ∧
    ∀ k, k ∈ keys → k ≠ "__proto__" →
         Obj.get k existed = Some (IsBool false).
Proof.
  intros Hc Hnone. unfold _collectChunks.
  unfold mbind at 1, M_bind at 1. rewrite collect_cached_blank by assumption.
  cbn [fst snd app].
  destruct keys as [|k keys].
  - cbn. unfold mret, M_ret. eexists _, _. repeat split.
    intros k Hk. now apply elem_of_nil in Hk.
  - cbn [length Nat.eqb]. unfold mbind, M_bind, _fetchJson.
    cbn [world hashCaches since requests fetch Couch.standin Couch.serve negb rows].
    destruct (collect_missing_rows (world s) (unique (k :: keys)) []
      (mk (world s) (hashCaches s) (since s)
          (requests s ++ [PostAllDocs false (unique (k :: keys))])))
      as (ret' & Hrun & Hret').
    + intros k' Hk'. apply Hnone. now apply unique_elem.
    + eexists _, _. split; [exact Hrun|]. repeat split.
      intros k' Hk'. apply Hret'. now apply unique_elem.
Qed.

Lemma make_leaves entries : ∀ s,
  mapM (make_leaf E options) entries s = (Ok (map (leaf_of pass) entries), s).
Proof.
  induction entries as [|e entries IH]; intros s; cbn [mapM map].
  - reflexivity.
  - unfold mbind at 1, M_bind at 1.
    assert (Hleaf : make_leaf E options e s = (Ok (leaf_of pass e), s)).
    { unfold make_leaf, leaf_of, sealed, mbind, M_bind.
      change (passphrase options) with pass.
      destruct (truthy pass); [|reflexivity].
      unfold lift_world. cbn. now destruct s. }
    rewrite Hleaf. unfold mbind, M_bind. now rewrite IH.
Qed.

Lemma upload_results chunks leaves : ∀ s,
  holds_no_chunk (hashCaches s) →
  ∃ c',
    foldM (put_result E chunks) tt (map accepted leaves) s
    = (Ok tt, mk (world s) c' (since s) (requests s)) ∧
    holds_no_chunk c'.
Proof.
  induction leaves as [|l leaves IH]; intros s Hc; cbn [map foldM].
  - exists (hashCaches s). unfold mret, M_ret. now destruct s.
  - unfold mbind, M_bind. unfold put_result at 1. cbn [accepted bulk_ok bulk_key].
    unfold cache_set.
    destruct (IH (mk (world s)
                    (LRUCache.set weigh None
                       (Obj.get (template None) chunks) (hashCaches s))
                    (since s) (requests s)))
      as (c' & Hrun & Hc'); [now apply holds_no_chunk_set|].
    rewrite Hrun. now exists c'.
Qed.
Lemma put_upload_fresh chunks s :
  holds_no_chunk (hashCaches s) → NoDup (Obj.keys chunks) →
  "__proto__" ∉ Obj.keys chunks →
  (∀ k, k ∈ Obj.keys chunks → Couch.lookup k (Couch.docs (world s)) = None) →
  ∃ s',
    put_upload E options chunks s
    = (Ok (map accepted (map (leaf_of pass) chunks)), s') ∧
    hashCaches s' = hashCaches s ∧
    (∀ k piece, (k, piece) ∈ chunks →
       Couch.lookup k (Couch.docs (world s'))
       = Some (Couch.SLeaf 1 (sealed pass piece))) ∧
    (∀ k, k ∉ Obj.keys chunks →
       Couch.lookup k (Couch.docs (world s'))
       = Couch.lookup k (Couch.docs (world s))).
Proof.
  intros Hc Hnodup Hproto Hnone. unfold put_upload.
  destruct (existence_check (Obj.keys chunks) s Hc Hnone)
    as (existed & s1 & Hcheck & Hw1 & Hc1 & Hexisted).
  unfold mbind at 1, M_bind at 1. rewrite Hcheck.
  rewrite (filter_all _ (Obj.entries chunks)).
  2: { apply Forall_forall. intros e He.
       assert (Hk : e.1 ∈ Obj.keys chunks)
         by (apply list_elem_of_fmap; now exists e).
       unfold read_sb. rewrite Hexisted; [reflexivity|assumption|].
       intros Heq. apply Hproto. now rewrite <- Heq. }
  unfold mbind at 1, M_bind at 1. rewrite make_leaves.
  unfold _fetchJson. cbn [fetch Couch.standin Couch.serve].
  assert (Hids : map Leaf._id (map (leaf_of pass) (Obj.entries chunks))
                 = Obj.keys chunks).
  { rewrite map_map. reflexivity. }
  destruct (bulk_fresh (map (leaf_of pass) (Obj.entries chunks)) (world s1))
    as (w' & Hbulk & Hin & Hout).
  { now rewrite Hids. }
  { intros l Hl. rewrite Hw1. apply Hnone. rewrite <- Hids.
    apply list_elem_of_fmap. now exists l. }
  rewrite Hbulk. eexists. split; [reflexivity|].
  cbn [hashCaches world]. split; [assumption|]. split.
  - intros k piece Hk.
    apply (Hin (leaf_of pass (k, piece))).
    apply list_elem_of_fmap. now exists (k, piece).
  - intros k Hk. rewrite Hout by (now rewrite Hids). now rewrite Hw1.
Qed.

Lemma put_meta_fresh path children info type s :
  let id := path2id_base E path pass in
  Couch.lookup id (Couch.docs (world s)) = None →
  ∃ s',
    put_meta E options id path children info type s = (Ok true, s') ∧
    hashCaches s' = hashCaches s ∧
    Couch.docs (world s')
    = Couch.store id
        (Couch.SEntry 1 (metadata_of pass id path children info type))
        (Couch.docs (world s)).
Proof.
  intros id Hnone. unfold put_meta.
  set (e0 := Entry.mk id None None None path children (FileInfo.ctime info)
               (FileInfo.mtime info) (FileInfo.size info) type None None).
  assert (Henc : encryptDocumentPath E options e0 s
                 = (Ok (metadata_of pass id path children info type), s)).
  { unfold encryptDocumentPath, mbind, M_bind, metadata_of, sealed.
    change (obfuscatePassphrase options) with pass.
    destruct (truthy pass).
    - unfold lift_world. cbn. now destruct s.
    - reflexivity. }
  eexists. split.
  { unfold mbind at 1, M_bind at 1. rewrite Henc.
    unfold mbind at 1, M_bind at 1. unfold getById.
    unfold mbind at 1, M_bind at 1, _fetchJson.
    cbn [fetch Couch.standin Couch.serve]. unfold Couch.get_doc.
    change (World E) with Couch.Server. rewrite Hnone.
    unfold mret at 1, M_ret at 1.
    unfold mbind, M_bind, _fetchJson.
    cbn [fetch Couch.standin Couch.serve world].
    unfold Couch.put_doc. change (World E) with Couch.Server.
    rewrite Hnone.
    cbn [metadata_of Entry._rev put_ok]. unfold mret, M_ret. reflexivity. }
  split; reflexivity.
Qed.

(** [put] of a file on a server that holds neither its id nor the ids of
    its chunks, from a cache that holds no chunk. *)
Lemma put_fresh path data info type s :
  let id := path2id_base E path pass in
  let ps := pieces E options path data in
  holds_no_chunk (hashCaches s) →
  startsWith id "h:" = false →
  Couch.lookup id (Couch.docs (world s)) = None →
  (∀ p, p ∈ ps →
        Couch.lookup (leafId E options p) (Couch.docs (world s)) = None) →
  (∀ p q, p ∈ ps → q ∈ ps →
          leafId E options p = leafId E options q → p = q) →
  ∃ s1,
    put E options path data info type s = (Ok true, s1) ∧
    holds_no_chunk (hashCaches s1) ∧
    Couch.lookup id (Couch.docs (world s1))
    = Some (Couch.SEntry 1
              (metadata_of pass id path (map (leafId E options) ps)
                 info type)) ∧
    ∀ p, p ∈ ps →
         Couch.lookup (leafId E options p) (Couch.docs (world s1))
         = Some (Couch.SLeaf 1 (sealed pass p)).
Proof.
  intros id ps Hc Hid Hnone Hnew Hinj.
  destruct (put_chunks_derives E options ps ([], []) s Hc)
    as (c1 & Hchunks & Hc1).
  cbn [fst snd app] in Hchunks.
  set (chunks := chunks_of E options ps []) in *.
  set (s1 := mk (world s) c1 (since s) (requests s)) in *.
  assert (Hkeys : ∀ k, k ∈ Obj.keys chunks ↔ k ∈ map (leafId E options) ps).
  { intros k. unfold chunks. rewrite chunks_of_keys. cbn.
    rewrite elem_of_nil. tauto. }
  destruct (put_upload_fresh chunks s1 Hc1) as (s2 & Hupload & Hc2 & Hin & Hout).
  { apply chunks_of_NoDup. constructor. }
  { intros Hk. apply Hkeys, list_elem_of_fmap in Hk as (p & Hk & _).
    symmetry in Hk. now apply leafId_not_proto in Hk. }
  { intros k Hk. apply Hkeys, list_elem_of_fmap in Hk as (p & -> & Hp).
    now apply Hnew. }
  destruct (upload_results chunks (map (leaf_of pass) chunks) s2)
    as (c3 & Hresults & Hc3); [now rewrite Hc2|].
  set (s3 := mk (world s2) c3 (since s2) (requests s2)) in *.
  assert (Hid_chunk : id ∉ Obj.keys chunks).
  { intros Hk. apply Hkeys, list_elem_of_fmap in Hk as (p & Hk & _).
    rewrite Hk, leafId_is_chunk in Hid. discriminate. }
  destruct (put_meta_fresh path (map (leafId E options) ps) info type s3)
    as (s4 & Hmeta & Hc4 & Hdocs).
  { unfold s3. cbn [world]. rewrite Hout by assumption. exact Hnone. }
  fold id in Hmeta, Hdocs. exists s4. split.
  { unfold put, path2id.
    unfold mbind at 1, M_bind at 1, mret at 1, M_ret at 1.
    change (splitPieces2 E data _ _ _ _ _) with ps.
    change (obfuscatePassphrase options) with pass. fold id.
    unfold put_chunks.
    unfold mbind at 1, M_bind at 1. rewrite Hchunks. cbn [fst snd].
    unfold mbind at 1, M_bind at 1.
    unfold s1 in Hupload. change (World E) with Couch.Server in *.
    rewrite Hupload.
    unfold put_results. unfold mbind at 1, M_bind at 1. rewrite Hresults.
    exact Hmeta. }
  split; [now rewrite Hc4|]. rewrite Hdocs. split.
  - apply lookup_store_eq.
  - intros p Hp. rewrite lookup_store_ne.
    + unfold s3. cbn [world]. apply Hin. apply obj_get_elem.
      unfold chunks. apply chunks_of_get; [|now left].
      intros q Hq Heq. now apply Hinj.
    + intros Heq. pose proof (leafId_is_chunk E options p) as Hchunk.
      rewrite <- Heq in Hchunk. unfold id in *.
      rewrite Hchunk in Hid. discriminate.
Qed.

Lemma unseal text :
  (if truthy pass
   then lift_result (E:=E)
          (decrypt E (sealed pass text) (template pass)
             (useDynamicIterationCount options))
   else mret (sealed pass text))
  = (mret text : M E string).
Proof.
  unfold sealed. destruct (truthy pass); [|reflexivity].
  cbn [decrypt Couch.standin Couch.env]. now rewrite open_seal.
Qed.

(** The server answers with the chunks that it holds, and each is
    opened. *)
Lemma collect_stored_rows w (text : string → string) keys : ∀ ret s,
  "__proto__" ∉ keys →
  (∀ k, k ∈ keys →
        Couch.lookup k (Couch.docs w)
        = Some (Couch.SLeaf 1 (sealed pass (text k)))) →
  ∃ ret' s',
    foldM (collect_row E options false) ret (map (Couch.row_of true w) keys) s
    = (Ok ret', s') ∧
    (∀ k, k ∈ keys → Obj.get k ret' = Some (IsStr (text k))) ∧
    (∀ k, k ∉ keys → Obj.get k ret' = Obj.get k ret).
Proof.
  induction keys as [|k keys IH]; intros ret s Hproto Hstored;
    cbn [map foldM].
  - exists ret, s. repeat split. intros k Hk. now apply elem_of_nil in Hk.
  - apply not_elem_of_cons in Hproto as [Hk Hproto].
    assert (Hrow : Couch.row_of true w k
                   = {| row_key := k; row_error := false;
                        row_doc := Some {| doc_type := Some "leaf";
                                           doc_data :=
                                             Some (sealed pass (text k)) |} |}).
    { unfold Couch.row_of. now rewrite (Hstored k) by now left. }
    rewrite Hrow.
    assert (Hstep : ∃ s1,
      collect_row E options false ret
        {| row_key := k; row_error := false;
           row_doc := Some {| doc_type := Some "leaf";
                              doc_data := Some (sealed pass (text k)) |} |} s
      = (Ok (Obj.set k (IsStr (text k)) ret), s1)).
    { unfold collect_row. cbn [row_error row_key row_doc doc_type doc_data].
      rewrite bool_decide_true by reflexivity. cbn [negb].
      change (passphrase options) with pass. rewrite unseal.
      unfold mbind, M_bind, mret, M_ret, cache_set. eauto. }
    destruct Hstep as (s1 & Hstep).
    unfold mbind, M_bind. rewrite Hstep.
    destruct (IH (Obj.set k (IsStr (text k)) ret) s1 Hproto)
      as (ret' & s' & Hrun & Hin & Hout).
    { intros k' Hk'. apply Hstored. now right. }
    exists ret', s'. split; [exact Hrun|]. split.
    + intros k' Hk'. destruct (decide (k' ∈ keys)) as [Hi|Hi]; [now apply Hin|].
      rewrite Hout by assumption.
      apply elem_of_cons in Hk' as [->|Hk']; [|contradiction].
      rewrite obj_get_set by congruence. now rewrite String.eqb_refl.
    + intros k' Hk'. apply not_elem_of_cons in Hk' as [Hne Hk'].
      rewrite Hout by assumption. now apply obj_get_set_other.
Qed.

Lemma no_false (text : string → string) children :
  existsb (λ e, bool_decide (e = IsBool false))
    (map (λ c, IsStr (text c)) children) = false.
Proof.
  induction children as [|c cs IH]; [reflexivity|].
  cbn [map existsb]. now rewrite IH, bool_decide_false by discriminate.
Qed.

(** [getByMeta] on a cache that holds no chunk, when the server holds
    every child. *)
Lemma getByMeta_stored doc (text : string → string) s :
  holds_no_chunk (hashCaches s) →
  "__proto__" ∉ Entry.children doc →
  (∀ k, k ∈ Entry.children doc →
        Couch.lookup k (Couch.docs (world s))
        = Some (Couch.SLeaf 1 (sealed pass (text k)))) →
  ∃ s',
    getByMeta E options doc s
    = (Ok (Entry.with_data (map (λ c, IsStr (text c)) (Entry.children doc)) doc),
       s').
Proof.
  intros Hc Hproto Hstored.
  assert (Hchunks : ∃ chunks s',
    _collectChunks E options (Entry.children doc) false s = (Ok chunks, s') ∧
    ∀ k, k ∈ Entry.children doc → Obj.get k chunks = Some (IsStr (text k))).
  { unfold _collectChunks. unfold mbind at 1, M_bind at 1.
    rewrite collect_cached_blank by assumption. cbn [fst snd app].
    destruct (Entry.children doc) as [|c cs] eqn:Hchildren.
    - cbn. unfold mret, M_ret. eexists _, _. split; [reflexivity|].
      intros k Hk. now apply elem_of_nil in Hk.
    - cbn [length Nat.eqb]. unfold mbind, M_bind, _fetchJson.
      cbn [world hashCaches since requests fetch Couch.standin Couch.serve
           negb rows].
      destruct (collect_stored_rows (world s) text (unique (c :: cs)) []
        (mk (world s) (hashCaches s) (since s)
            (requests s ++ [PostAllDocs true (unique (c :: cs))])))
        as (ret' & s' & Hrun & Hin & _).
      + intros Hk. apply Hproto. now apply unique_elem.
      + intros k Hk. apply Hstored. now apply unique_elem.
      + exists ret', s'. split; [exact Hrun|].
        intros k Hk. apply Hin. now apply unique_elem. }
  destruct Hchunks as (chunks & s' & Hrun & Hget).
  exists s'. unfold getByMeta. unfold mbind, M_bind. rewrite Hrun.
  assert (Hdata : map (chunk_or_false chunks) (Entry.children doc)
                  = map (λ c, IsStr (text c)) (Entry.children doc)).
  { apply map_ext_in. intros c Hc'. apply list_elem_of_In in Hc'.
    unfold chunk_or_false, read_sb. now rewrite (Hget c Hc'). }
  rewrite Hdata, no_false. reflexivity.
Qed.

(** [getByMeta] on any cache, when the server holds every child: it
    returns. *)
Lemma getByMeta_served doc (text : string → string) s :
  "__proto__" ∉ Entry.children doc →
  (∀ k, k ∈ Entry.children doc →
        Couch.lookup k (Couch.docs (world s))
        = Some (Couch.SLeaf 1 (sealed pass (text k)))) →
  ∃ ready s', getByMeta E options doc s = (Ok ready, s').
Proof.
  intros Hproto Hstored.
  assert (Hchunks : ∃ chunks s',
    _collectChunks E options (Entry.children doc) false s = (Ok chunks, s') ∧
    ∀ k, k ∈ Entry.children doc → ∃ t, Obj.get k chunks = Some (IsStr t)).
  { unfold _collectChunks.
    destruct (collect_cached_fold E (Entry.children doc) ([], []) s)
      as (ret & c' & Hrun & _).
    destruct (collect_cached_values _ _ _ _ _ _ _ Hrun) as [Hin _].
    assert (Hheld : ∀ k, k ∈ Entry.children doc →
              k ∉ uncached (hashCaches s) (Entry.children doc) →
              ∃ t, Obj.get k ret = Some (IsStr t)).
    { intros k Hk Hun.
      destruct (cached (hashCaches s) k) as [v|] eqn:Hv.
      - exists v. apply Hin; [assumption| |assumption].
        intros ->. contradiction.
      - exfalso. apply Hun. unfold uncached.
        apply list_elem_of_In, filter_In. split; [now apply list_elem_of_In|].
        unfold is_cached. now rewrite Hv. }
    unfold mbind at 1, M_bind at 1. rewrite Hrun. cbn [fst snd app].
    change (World E) with Couch.Server in *.
    destruct (uncached (hashCaches s) (Entry.children doc)) as [|c cs] eqn:Hun.
    - cbn. unfold mret, M_ret. eexists _, _. split; [reflexivity|].
      intros k Hk. apply Hheld; [assumption|]. apply not_elem_of_nil.
    - cbn [length Nat.eqb]. unfold mbind, M_bind, _fetchJson.
      cbn [world hashCaches since requests fetch Couch.standin Couch.serve
           negb rows].
      assert (Hsub : ∀ k, k ∈ c :: cs → k ∈ Entry.children doc).
      { intros k Hk. rewrite <- Hun in Hk. unfold uncached in Hk.
        apply list_elem_of_In, filter_In in Hk as [Hk _].
        now apply list_elem_of_In. }
      destruct (collect_stored_rows
        (world s) text (unique (c :: cs)) ret
        (mk (world s) c' (since s)
            (requests s ++ [PostAllDocs true (unique (c :: cs))])))
        as (ret' & s' & Hrows & Hnew & Hold).
      + intros Hk. apply Hproto, Hsub. now apply unique_elem.
      + intros k Hk. apply Hstored, Hsub. now apply unique_elem.
      + exists ret', s'. split; [exact Hrows|].
        intros k Hk. destruct (decide (k ∈ c :: cs)) as [Hi|Hi].
        * exists (text k). apply Hnew. now apply unique_elem.
        * rewrite Hold by (intros Hu; apply Hi; now apply unique_elem).
          now apply Hheld. }
  destruct Hchunks as (chunks & s' & Hrun & Hget).
  unfold getByMeta. unfold mbind, M_bind. rewrite Hrun.
  assert (Hex : existsb (λ e, bool_decide (e = IsBool false))
                  (map (chunk_or_false chunks) (Entry.children doc)) = false).
  { clear Hrun. induction (Entry.children doc) as [|c cs IH]; [reflexivity|].
    cbn [map existsb]. rewrite IH.
    - destruct (Hget c) as (t & Ht); [now left|].
      unfold chunk_or_false, read_sb. rewrite Ht.
      now rewrite bool_decide_false by discriminate.
    - intros H. apply Hproto. now right.
    - intros k Hk. apply Hstored. now right.
    - intros k Hk. apply Hget. now right. }
  rewrite Hex. eauto.
Qed.
(** X14.  On the stand-in server and cipher, for every hash, path mapping
    and chunker, with no passphrase or with the same passphrase for the
    chunks and for the paths, on an instance whose cache holds no chunk
    (a new instance is one): a [put] of a file whose id and whose chunk
    ids the server does not hold succeeds, and the [get] that follows
    returns the entry with the pieces that the chunker made of the data,
    in their order, under the same path, with the size, the times and the
    type that were given; so it returns the text that was put whenever
    the pieces of the chunker make up that text.  This holds provided
    that no two pieces of the file share a leaf id and that the id of the
    path does not start with [h:]. *)
Theorem put_then_get (path : string) (data : list string)
    (info : FileInfo.t) (type : EntryType) (s : State.t Couch.Server) :
  let id := path2id_base E path pass in
  let ps := pieces E options path data in
  holds_no_chunk (hashCaches s) →
  startsWith id "h:" = false →
  Couch.lookup id (Couch.docs (world s)) = None →
  (∀ p, p ∈ ps →
        Couch.lookup (leafId E options p) (Couch.docs (world s)) = None) →
  (∀ p q, p ∈ ps → q ∈ ps →
          leafId E options p = leafId E options q → p = q) →
  ∃ s1 s2 e,
    put E options path data info type s = (Ok true, s1) ∧
    get E options path false s1 = (Ok (Some e), s2) ∧
    Entry.data e = Some (map IsStr ps) ∧
    joined e = String.concat "" ps ∧
    (String.concat "" ps = String.concat "" data →
     joined e = String.concat "" data) ∧
    Entry.path e = path ∧
    Entry.size e = FileInfo.size info ∧
    Entry.ctime e = FileInfo.ctime info ∧
    Entry.mtime e = FileInfo.mtime info ∧
    Entry.type e = type ∧
    Entry.children e = map (leafId E options) ps.
Proof.
  intros id ps Hc Hid Hnone Hnew Hinj.
  destruct (put_fresh path data info type s)
    as (s1 & Hput & Hc1 & Hmeta & Hleaves); [assumption..|].
  fold id ps in Hmeta, Hleaves.
  set (children := map (leafId E options) ps) in *.
  set (stored := metadata_of pass id path children info type) in *.
  set (doc := Entry.with_path path
                (Entry.with_rev (Some (Couch.rev_of 1)) stored)).
  assert (Hchildren : Entry.children doc = children) by reflexivity.
  set (text := λ k, default "" (Obj.get k (chunks_of E options ps []))).
  assert (Htext : ∀ p, p ∈ ps → text (leafId E options p) = p).
  { intros p Hp. unfold text. rewrite chunks_of_get; [reflexivity| |now left].
    intros q Hq Heq. now apply Hinj. }
  set (st := mk (world s1) (hashCaches s1) (since s1)
               (requests s1 ++ [GetDoc id])).
  destruct (getByMeta_stored doc text st Hc1) as (s2 & Hget).
  { rewrite Hchildren. intros Hk.
    apply list_elem_of_fmap in Hk as (p & Hk & _).
    symmetry in Hk. now apply leafId_not_proto in Hk. }
  { intros k Hk. rewrite Hchildren in Hk.
    apply list_elem_of_fmap in Hk as (p & -> & Hp).
    rewrite (Htext p Hp). now apply Hleaves. }
  assert (Hdata : map (λ c, IsStr (text c)) (Entry.children doc)
                  = map IsStr ps).
  { rewrite Hchildren. unfold children.
    rewrite map_map. apply map_ext_in. intros p Hp.
    apply list_elem_of_In in Hp. now rewrite Htext. }
  rewrite Hdata in Hget.
  assert (Hjoined : joined (Entry.with_data (map IsStr ps) doc)
                    = String.concat "" ps).
  { change (joined (Entry.with_data (map IsStr ps) doc))
      with (String.concat "" (map text_of (map IsStr ps))).
    rewrite map_map. now rewrite map_id. }
  exists s1, s2, (Entry.with_data (map IsStr ps) doc).
  split; [exact Hput|]. split.
  { unfold get, path2id.
    unfold mbind at 1, M_bind at 1, mret at 1, M_ret at 1.
    change (obfuscatePassphrase options) with pass. fold id.
    unfold getById. unfold mbind at 1, M_bind at 1, _fetchJson.
    cbn [fetch Couch.standin Couch.serve]. unfold Couch.get_doc.
    change (World E) with Couch.Server in *.
    rewrite Hmeta. cbn [Couch.as_document]. fold st.
    assert (Hdec : decryptDocumentPath E options
                     (Entry.with_rev (Some (Couch.rev_of 1)) stored) st
                   = (Ok doc, st)).
    { unfold decryptDocumentPath, doc, stored, metadata_of.
      cbn [Entry.with_rev Entry.path].
      change (passphrase options) with pass.
      unfold mbind, M_bind. rewrite unseal. reflexivity. }
    unfold mbind at 1, M_bind at 1. rewrite Hdec.
    unfold mbind, M_bind. rewrite Hget. reflexivity. }
  split; [reflexivity|]. split; [exact Hjoined|].
  split; [intros <-; exact Hjoined|].
  repeat split.
Qed.
End RoundTrip.

(** A chunker that cuts every text after its third character, and the
    write of the first scenario with it, under a passphrase. *)
Lemma put_then_get_witness :
  let E := Couch.standin Couch.hash (path2id_base Couch.env) (λ _, true)
             (λ data _ _ _ _ _, flat_map cut3 data) in
  let options := Couch.options (Some "p") (Some "p") in
  let ps := ["Hel"; "lo, "; "wor"; "ld!"] in
  ∃ s1 s2 e,
    put E options "a/b.md" hello hello_info plain (Couch.fresh Couch.empty)
    = (Ok true, s1) ∧
    get E options "a/b.md" false s1 = (Ok (Some e), s2) ∧
    Entry.data e = Some (map IsStr ps) ∧
    joined e = "Hello, world!" ∧
    ("Hello, world!" = "Hello, world!" → joined e = "Hello, world!") ∧
    Entry.path e = "a/b.md" ∧ Entry.size e = 13 ∧
    Entry.ctime e = 1 ∧ Entry.mtime e = 2 ∧
    Entry.type e = plain ∧
    Entry.children e = map (leafId E options) ps.
Proof.
  intros E options ps.
  apply (put_then_get (Some "p") Couch.hash (path2id_base Couch.env)
           (λ _, true) (λ data _ _ _ _ _, flat_map cut3 data)
           "a/b.md" hello hello_info plain (Couch.fresh Couch.empty)).
  - constructor.
  - reflexivity.
  - reflexivity.
  - intros p _. reflexivity.
  - intros p q Hp Hq Heq.
    change (pieces _ _ _ _) with ps in Hp, Hq. unfold ps in Hp, Hq.
    repeat match goal with
           | H : _ ∈ _ :: _ |- _ => apply elem_of_cons in H as [->|H]
           | H : _ ∈ [] |- _ => now apply elem_of_nil in H
           end;
      try reflexivity; vm_compute in Heq; discriminate Heq.
Defined.

(** On the server after two writes, whatever the cache holds, the task of
    each of the two files returns: both are yielded. *)
Lemma enumeration_is_complete_witness :
  let run := enumerateAllNormalDocs Couch.env (Couch.options None None) 5
               false two_files in
  run.1.2 = Done ∧
  ∀ k e t,
    (k, DocEntry e) ∈ documents (State.world two_files) → t ∈ targets →
    in_target t k = true →
    k ∈ ids_of run.1.1.
Proof.
  assert (Hsorted : StronglySorted slt
                      (map fst (documents (State.world two_files)))).
  { vm_compute. repeat (constructor; [|repeat constructor; reflexivity]).
    constructor. }
  assert (Hids : ∀ k e,
    (k, DocEntry e) ∈ documents (State.world two_files) → Entry._id e = k).
  { intros k e H. vm_compute in H.
    repeat (apply elem_of_cons in H as [H|H]; [now inversion H|]).
    now apply elem_of_nil in H. }
  assert (Hsmall : (length (documents (State.world two_files)) < 100)%nat)
    by (vm_compute; lia).
  assert (Hserved : ∀ k e,
    (k, DocEntry e) ∈ documents (State.world two_files) →
    ∀ s1, same_documents (State.world two_files) (State.world s1) →
          is_ok (enumerate_task Couch.env (Couch.options None None) false e
                   s1).1 = true).
  { intros k e Hk s1 Hs1.
    assert (Hget : ∃ ready s',
      getByMeta Couch.env (Couch.options None None)
        (Entry.with_path (Entry.path e) e) s1 = (Ok ready, s')).
    { assert (Hsame : Entry.children (Entry.with_path (Entry.path e) e)
                      = Entry.children e) by reflexivity.
      apply (getByMeta_served None Couch.hash (path2id_base Couch.env)
               (λ _, true) (λ data _ _ _ _ _, data) _
               (λ c, if String.eqb c (leafId Couch.env (Couch.options None None) "one")
                     then "one" else "two") s1).
      - rewrite Hsame. intros Hp. vm_compute in Hk.
        repeat (apply elem_of_cons in Hk as [Hk|Hk];
                [inversion Hk; subst; vm_compute in Hp;
                 repeat (apply elem_of_cons in Hp as [Hp|Hp];
                         [discriminate Hp|]);
                 now apply elem_of_nil in Hp|]).
        now apply elem_of_nil in Hk.
      - rewrite Hsame. intros c Hc. unfold same_documents in Hs1.
        rewrite Hs1.
        vm_compute in Hk.
        repeat (apply elem_of_cons in Hk as [Hk|Hk];
                [inversion Hk; subst; vm_compute in Hc;
                 repeat (apply elem_of_cons in Hc as [->|Hc];
                         [vm_compute; reflexivity|]);
                 now apply elem_of_nil in Hc|]).
        now apply elem_of_nil in Hk. }
    destruct Hget as (ready & s' & Hget).
    unfold enumerate_task, try_catch, decryptDocumentPath.
    cbn [truthy Couch.options passphrase Options.passphrase].
    unfold mbind, M_bind, mret, M_ret.
    now rewrite Hget. }
  destruct (enumeration_is_complete Couch.env (Couch.options None None)
              (documents (State.world two_files))
              (same_documents (State.world two_files))
              Hsorted Hids
              (couch_range_answer (State.world two_files))
              (couch_chunks_keep (State.world two_files))
              (or_introl Hsmall) false 5 two_files) as [Hdone Hall].
  - reflexivity.
  - vm_compute. lia.
  - split; [exact Hdone|]. intros k e t Hk Ht Hin.
    apply (Hall k e t Hk Ht Hin). exact (Hserved k e Hk).
Defined.

(** ** [enumerate] *)

Section EnumerateFacts.
Variable E : Env.
Variable options : Options.t.
Variable window_btoa : bool.
Variable remote :
  HttpRequest (Obj.t JsonValue) → World E → Result EnumAnswer * World E.
Variable Inv : World E → Prop.

Hypothesis chunks_keep : ∀ include_docs keys w res w',
  Inv w → fetch E (PostAllDocs include_docs keys) w = (res, w') → Inv w'.

Import State.

Lemma enumerate_request_plain cond key r :
  enumerate_request options window_btoa cond key = Ok r →
  plain_all_docs options r.
Proof.
  unfold enumerate_request, getById_request, _fetch.
  destruct (base64encode _ _); [|discriminate].
  intros [= <-]. repeat split.
Qed.

Lemma enumerate_rows_world metaOnly rows : ∀ key s,
  Inv (world s) →
  Inv (world (enumerate_rows E options metaOnly rows key s).2).
Proof.
  induction rows as [|v rows IH]; intros key s HI; [exact HI|].
  cbn [enumerate_rows].
  destruct metaOnly.
  - destruct (enum_doc v) as [d|]; [|exact HI].
    specialize (IH (Some (template (doc_id d) +:+ u10ffff)) s HI).
    destruct (enumerate_rows E options true rows _ s) as [[ys r] s2].
    exact IH.
  - destruct (enum_doc v) as [[e|i]|]; [|exact HI|exact HI].
    destruct (getByMeta E options e s) as [r s1] eqn:Hget.
    assert (HI1 : Inv (world s1)).
    { eapply (world_getByMeta E options Inv chunks_keep); eassumption. }
    destruct r as [ready|m]; [|exact HI1].
    specialize (IH (Some (template (doc_id (EEntry e)) +:+ u10ffff)) s1 HI1).
    destruct (enumerate_rows E options false rows _ s1) as [[ys r] s2].
    exact IH.
Qed.

(** X15.  [enumerate] does not end while the database has a document:
    all its requests are the plain [GET] of [_all_docs], and it leaves
    its loop only on an answer without rows or by throwing.  Whatever
    the conditions, and however long it runs, it has not returned. *)
Theorem enumerate_never_returns (fuel : nat) (cond : EnumerateConditions)
    (s : State.t (World E)) :
  (∀ r w, plain_all_docs options r → Inv w →
          ∃ rows w',
            remote r w = (Ok {| enum_rows := Some rows |}, w') ∧
            rows ≠ [] ∧ Inv w') →
  Inv (world s) →
  (enumerate E options window_btoa remote fuel cond s).1.2 ≠ Done.
Proof.
  intros Hremote. unfold enumerate. generalize (startKey cond).
  revert s. induction fuel as [|fuel IH]; intros s key HI; [discriminate|].
  cbn [enumerate_loop]. unfold enumerate_fetch.
  destruct (enumerate_request options window_btoa cond key) as [r|m] eqn:Hreq;
    [|discriminate].
  apply enumerate_request_plain in Hreq.
  unfold lift_world.
  destruct (Hremote r (world s) Hreq HI) as (rows & w' & -> & Hrows & HI').
  cbn [enum_rows]. destruct rows as [|v rows]; [contradiction|].
  match goal with
  | |- context [enumerate_rows E options ?m ?rs ?k ?st] =>
      pose proof (enumerate_rows_world m rs k st HI') as HI2;
      destruct (enumerate_rows E options m rs k st) as [[ys [key'|msg]] s2]
  end; [|discriminate].
  specialize (IH s2 key' HI2).
  destruct (enumerate_loop E options window_btoa remote fuel cond key' s2)
    as [[zs c] s3].
  exact IH.
Qed.

(** X16.  Against a server that answers the plain [GET] of [_all_docs]
    as the protocol has it, with rows that hold no [doc], [enumerate]
    throws on the first row: after yielding one [undefined] with
    [metaOnly], before yielding anything without. *)
Theorem enumerate_throws_without_docs (fuel : nat)
    (cond : EnumerateConditions) (s : State.t (World E)) :
  (∀ r w, plain_all_docs options r → Inv w →
          ∃ rows w',
            remote r w = (Ok {| enum_rows := Some rows |}, w') ∧ rows ≠ [] ∧
            Forall (λ v, enum_doc v = None) rows) →
  Inv (world s) →
  (enumerate E options window_btoa remote (S fuel) cond s).1
  = match base64encode window_btoa
            (Options.username options +:+ ":" +:+ Options.password options)
    with
    | Ok _ => (if metaOnly cond then [None] else [], Thrown "TypeError")
    | Throw m => ([], Thrown m)
    end.
Proof.
  intros Hremote HI. unfold enumerate. cbn [enumerate_loop].
  unfold enumerate_fetch.
  pose proof (enumerate_request_plain cond (startKey cond)) as Hplain.
  unfold enumerate_request, getById_request, _fetch in *.
  destruct (base64encode _ _) as [credentials|m]; [|reflexivity].
  specialize (Hplain _ eq_refl). unfold lift_world.
  destruct (Hremote _ (world s) Hplain HI) as (rows & w' & -> & Hrows & Hnone).
  cbn [enum_rows]. destruct rows as [|v rows]; [contradiction|].
  inversion Hnone as [|? ? Hv _]; subst.
  cbn [enumerate_rows]. rewrite Hv. now destruct (metaOnly cond).
Qed.
End EnumerateFacts.

Lemma listing_answers w0 r w :
  Couch.docs w0 ≠ [] →
  same_documents w0 w →
  ∃ rows w',
    listing r w = (Ok {| enum_rows := Some rows |}, w') ∧ rows ≠ [] ∧
    Forall (λ v, enum_doc v = None) rows ∧
    same_documents w0 w'.
Proof.
  intros Hne Hw.
  exists (map (λ _, {| enum_doc := None |}) (Couch.docs w)), w.
  split; [reflexivity|]. split; [|split; [|exact Hw]].
  - rewrite Hw. destruct (Couch.docs w0); [contradiction|discriminate].
  - apply Forall_forall. intros v Hv. apply list_elem_of_fmap in Hv.
    now destruct Hv as (? & -> & _).
Qed.

Lemma listing_docs_answers w0 r w :
  Couch.docs w0 ≠ [] →
  same_documents w0 w →
  ∃ rows w',
    listing_docs r w = (Ok {| enum_rows := Some rows |}, w') ∧ rows ≠ [] ∧
    same_documents w0 w'.
Proof.
  intros Hne Hw. eexists _, w. split; [reflexivity|]. split; [|exact Hw].
  rewrite Hw. destruct (Couch.docs w0); [contradiction|discriminate].
Qed.

Lemma two_files_docs : Couch.docs (State.world two_files) ≠ [].
Proof. vm_compute. discriminate. Qed.

Lemma enumerate_never_returns_witness :
  length (Couch.docs (State.world two_files)) = 4%nat ∧
  (enumerate Couch.env (Couch.options None None) false listing_docs 3
     {| startKey := None; endKey := Some "b"; ids := None; metaOnly := true |}
     two_files).1.2 ≠ Done.
Proof.
  split; [reflexivity|].
  apply (enumerate_never_returns Couch.env (Couch.options None None) false
           listing_docs (same_documents (State.world two_files))
           (couch_chunks_keep (State.world two_files))).
  - intros r w _ Hw.
    exact (listing_docs_answers _ r w two_files_docs Hw).
  - exact eq_refl.
Defined.

(** Three rounds on the server with four documents: the same four
    documents three times, and no end. *)
Example enumerate_asks_again :
  let run :=
    enumerate Couch.env (Couch.options None None) false listing_docs 3
      {| startKey := None; endKey := Some "b"; ids := None; metaOnly := true |}
      two_files in
  run.1.2 = OutOfFuel ∧
  ∃ ys, run.1.1 = ys ++ ys ++ ys ∧ length ys = 4%nat.
Proof. vm_compute. split; [reflexivity|]. eexists [_; _; _; _]. now split. Qed.

Lemma enumerate_throws_without_docs_witness :
  (enumerate Couch.env (Couch.options None None) false listing 1
     {| startKey := Some "a"; endKey := None; ids := None; metaOnly := true |}
     two_files).1
  = ([None], Thrown "TypeError").
Proof.
  apply (enumerate_throws_without_docs Couch.env (Couch.options None None)
           false listing (same_documents (State.world two_files)) 0
           {| startKey := Some "a"; endKey := None; ids := None;
              metaOnly := true |}).
  - intros r w _ Hw.
    destruct (listing_answers _ r w two_files_docs Hw)
      as (rows & w' & H1 & H2 & H3 & _).
    exists rows, w'. split; [exact H1|]. split; [exact H2|exact H3].
  - exact eq_refl.
Defined.
